(** * git2r: R bindings to libgit2

    A shallow embedding of the binding routines of [src/git2r.c],
    [src/git2r_graph.c], [src/git2r_note.c] and [src/git2r_repository.c].

    Every routine of the binding receives R values ([SEXP]), opens a
    repository handle, calls into libgit2, marshals the answer into R values
    and either returns or raises an R error with [error()].  The embedding
    keeps that shape:

    - R values are the inductive type [SEXP];
    - a routine is a computation in the monad [R], which threads the state
      the routine can observe or change (the repositories libgit2 works on
      and the error record behind [giterr_last()]) and ends in a value, an R
      error or C undefined behaviour;
    - libgit2 is the interface [LibGit2]; the helpers of the binding whose
      definitions live in other files are the interface [Helpers]; the
      calls and helpers of the routines embedded further down are
      [LibGit2More] and [HelpersMore];
    - the accessors of R ([STRING_ELT], [VECTOR_ELT], [LOGICAL], ...) are
      R's functions, since the files do not define [USE_RINTERNALS]: a value
      of the wrong type raises an R error, an index past the end is
      undefined;
    - a revision walk is finite: it is the commits it yields and the call
      that ends it ([git_walk]);
    - [goto cleanup] becomes the error code and the result handed to the
      code after the label; [PROTECT] and [UNPROTECT], which only guard
      against R's garbage collector, are left out. *)

From Stdlib Require Import ZArith Ascii String List Bool Lia.
From stdpp Require Import gmap strings list fin_maps.

#[local] Open Scope string_scope.
#[local] Open Scope Z_scope.

(** ** R values *)

(** The part of R's [SEXP] universe the binding touches.  [LOGICAL()] and
    [INTEGER()] vectors hold C ints; a character vector holds its [CHAR()]
    contents; a generic vector carries its optional [names] attribute; an S4
    object carries its [class] attribute and its slots. *)
#[warnings="-register-all"]
Inductive SEXP : Type :=
| R_NilValue
| LGLSXP (v : list Z)
| INTSXP (v : list Z)
| STRSXP (v : list string)
| VECSXP (v : list SEXP) (names : option (list string))
| S4SXP (class : list string) (slots : list (string * SEXP)).

Definition is_nil (x : SEXP) : bool :=
  match x with R_NilValue => true | _ => false end.

Definition is_S4 (x : SEXP) : bool :=
  match x with S4SXP _ _ => true | _ => false end.

Definition isString (x : SEXP) : bool :=
  match x with STRSXP _ => true | _ => false end.

(** [isNewList] of Rinternals: [R_NilValue] or a [VECSXP]. *)
Definition isNewList (x : SEXP) : bool :=
  match x with R_NilValue | VECSXP _ _ => true | _ => false end.

Definition Rf_length (x : SEXP) : Z :=
  match x with
  | R_NilValue => 0
  | LGLSXP v | INTSXP v => Z.of_nat (length v)
  | STRSXP v => Z.of_nat (length v)
  | VECSXP v _ => Z.of_nat (length v)
  | S4SXP _ _ => 1
  end.

(** [type2char(TYPEOF(x))] *)
Definition type2char (x : SEXP) : string :=
  match x with
  | R_NilValue => "NULL"
  | LGLSXP _ => "logical"
  | INTSXP _ => "integer"
  | STRSXP _ => "character"
  | VECSXP _ _ => "list"
  | S4SXP _ _ => "S4"
  end.

Definition ScalarLogical (x : Z) : SEXP := LGLSXP [x].
Definition ScalarString (s : string) : SEXP := STRSXP [s].

Fixpoint slot_lookup (name : string) (slots : list (string * SEXP)) : option SEXP :=
  match slots with
  | [] => None
  | (k, v) :: rest => if String.eqb k name then Some v else slot_lookup name rest
  end.

(** [SET_SLOT]: overwrite the slot when present, add it otherwise. *)
Fixpoint slot_update (name : string) (v : SEXP) (slots : list (string * SEXP))
  : list (string * SEXP) :=
  match slots with
  | [] => [(name, v)]
  | (k, w) :: rest =>
      if String.eqb k name then (k, v) :: rest else (k, w) :: slot_update name v rest
  end.

Definition SET_SLOT (obj : SEXP) (name : string) (v : SEXP) : SEXP :=
  match obj with
  | S4SXP c slots => S4SXP c (slot_update name v slots)
  | other => other
  end.

(** [NEW_OBJECT(MAKE_CLASS(name))]: a fresh S4 object without slots set. *)
Definition NEW_OBJECT (class : string) : SEXP := S4SXP [class] [].

(** ** libgit2 error codes ([git2/errors.h]) *)

Definition GIT_OK : Z := 0.
Definition GIT_ENOTFOUND : Z := -3.
Definition GIT_EEXISTS : Z := -4.
Definition GIT_ITEROVER : Z := -31.

(** The record behind [giterr_last()]. *)
Record git_error : Type := { klass : Z; message : string }.

(** What a call into libgit2 hands back: the C return value, the
    out-parameter, and the error record the call stored, if it stored one. *)
Record lib_ret (T : Type) : Type := Lib { rc : Z; out : T; seterr : option git_error }.
Arguments Lib {T} rc out seterr.
Arguments rc {T} _.
Arguments out {T} _.
Arguments seterr {T} _.

(** A walk, as successive calls of [git_revwalk_next] unfold it: the commits
    yielded by the calls that return 0, in order, and then the call that
    ends the walk.  That call returns a negative code, [- walk_code]
    ([GIT_ITEROVER] or an error), and leaves an error record and the walker
    in its final state.  Walks are finite. *)
Record git_walk (oid walker : Type) : Type := Walk {
  walk_yields : list oid;
  walk_code : positive;
  walk_error : option git_error;
  walk_left : walker
}.
Arguments Walk {oid walker} walk_yields walk_code walk_error walk_left.
Arguments walk_yields {oid walker} _.
Arguments walk_code {oid walker} _.
Arguments walk_error {oid walker} _.
Arguments walk_left {oid walker} _.

(** The call of [git_revwalk_next] that ends a walk. *)
Definition walk_last {oid walker : Type} (walk : git_walk oid walker) : lib_ret walker :=
  Lib (Z.neg (walk_code walk)) (walk_left walk) (walk_error walk).

(** ** The libgit2 interface

    [world] is everything libgit2 reads and writes on behalf of the binding:
    the repositories on disk with their objects, references, notes and
    configuration.  Queries take the world and cannot change it; the three
    mutating calls the binding makes return the new world.  Handles are
    values; freeing a handle does not touch the world. *)
Class LibGit2 : Type := {
  world : Type;
  git_repository : Type;
  git_oid : Type;
  git_signature : Type;
  git_note : Type;
  git_config : Type;
  git_remote : Type;
  git_commit : Type;
  git_revwalk : Type;

  git_repository_open : string -> world -> lib_ret (option git_repository);
  git_repository_is_bare : git_repository -> world -> Z;
  (* 1, 0 or an error code, with the error record a failing test leaves *)
  git_repository_is_empty : git_repository -> world -> lib_ret unit;
  (* NULL for a repository without working directory *)
  git_repository_workdir : git_repository -> world -> option string;
  (* start path, across_fs, ceiling_dirs; the out-parameter is buf.ptr *)
  git_repository_discover : string -> Z -> option string -> world -> lib_ret string;

  git_oid_fromstr : string -> lib_ret (option git_oid);
  git_oid_fmt : git_oid -> string;

  git_graph_descendant_of : git_repository -> git_oid -> git_oid -> world -> lib_ret unit;

  git_note_create :
    git_repository -> git_signature -> git_signature -> string -> git_oid ->
    string -> Z -> world -> lib_ret (option git_oid) * world;
  git_note_read : git_repository -> string -> git_oid -> world -> lib_ret (option git_note);
  git_note_message : git_note -> string;
  git_note_default_ref : git_repository -> world -> lib_ret (option string);
  (* the (blob id, annotated object id) pairs [git_note_foreach] visits on a
     notes reference, in order, or the failure of the iteration *)
  git_note_entries : git_repository -> string -> world -> lib_ret (list (git_oid * git_oid));
  (* what [git_note_foreach] returns when its callback returned non-zero *)
  git_note_foreach_abort : Z -> Z;

  git_repository_config : git_repository -> world -> lib_ret (option git_config);
  git_config_set_string : git_config -> string -> string -> world -> lib_ret unit * world;

  git_remote_load : git_repository -> string -> world -> lib_ret (option git_remote);
  git_remote_fetch : git_remote -> world -> lib_ret unit * world;

  git_revwalk_new : git_repository -> world -> lib_ret (option git_revwalk);
  (* the code, and the walker after the push *)
  git_revwalk_push_head : git_revwalk -> world -> lib_ret git_revwalk;
  git_revwalk_reset : git_revwalk -> git_revwalk;
  (* what successive calls of [git_revwalk_next] on a walker come to *)
  git_revwalk_walk : git_revwalk -> world -> git_walk git_oid git_revwalk;
  git_commit_lookup : git_repository -> git_oid -> world -> lib_ret (option git_commit)
}.

(** ** The monad of binding routines *)

Inductive printf_arg : Type := arg_d (z : Z) | arg_s (s : string).

(** How a routine ends: with a value, with R's [error()] (kept as the format
    string and its arguments), or in C undefined behaviour. *)
Inductive outcome (A : Type) : Type :=
| Value (a : A)
| Rf_error (format : string) (args : list printf_arg)
| Undefined (what : string).
Arguments Value {A} a.
Arguments Rf_error {A} format args.
Arguments Undefined {A} what.

Section Monad.
Context `{LibGit2}.

Record rstate : Type := { repos : world; giterr : option git_error }.

Definition R (A : Type) : Type := rstate -> outcome A * rstate.

Definition ret {A} (a : A) : R A := fun s => (Value a, s).

Definition bind {A B} (m : R A) (k : A -> R B) : R B := fun s =>
  match m s with
  | (Value a, s') => k a s'
  | (Rf_error f args, s') => (Rf_error f args, s')
  | (Undefined w, s') => (Undefined w, s')
  end.

Definition error {A} (format : string) (args : list printf_arg) : R A :=
  fun s => (Rf_error format args, s).

Definition undefined {A} (what : string) : R A := fun s => (Undefined what, s).

Definition record_error (e : option git_error) (s : rstate) : rstate :=
  {| repos := repos s;
     giterr := match e with Some e => Some e | None => giterr s end |}.

(** A libgit2 call that only reads the world. *)
Definition query {T} (f : world -> lib_ret T) : R (Z * T) := fun s =>
  let r := f (repos s) in (Value (rc r, out r), record_error (seterr r) s).

(** A libgit2 call that may change the world. *)
Definition update {T} (f : world -> lib_ret T * world) : R (Z * T) := fun s =>
  let '(r, w) := f (repos s) in
  (Value (rc r, out r), record_error (seterr r) {| repos := w; giterr := giterr s |}).

Definition giterr_last : R (option git_error) := fun s => (Value (giterr s), s).

(** A computation that leaves the repositories as they are: it may only
    replace the error record. *)
Definition reads_only {A} (m : R A) : Prop :=
  forall s, repos (snd (m s)) = repos s.

(** A computation that leaves the whole state as it is. *)
Definition stateless {A} (m : R A) : Prop :=
  forall s, snd (m s) = s.

End Monad.

Declare Scope r_scope.
Delimit Scope r_scope with R.
Notation "x <- c1 ;; c2" := (bind c1 (fun x => c2))
  (at level 100, c1 at next level, right associativity) : r_scope.
Notation "'let*' p ':=' c1 'in' c2" := (bind c1 (fun p => c2))
  (at level 10, p pattern, c1 at level 100, c2 at level 200) : r_scope.
Notation "c1 ;; c2" := (bind c1 (fun _ => c2))
  (at level 100, right associativity) : r_scope.
#[local] Open Scope r_scope.

(** ** R accessors that can go wrong *)

Section Accessors.
Context `{LibGit2}.

Definition when (c : bool) (m : R unit) : R unit := if c then m else ret tt.

(** A libgit2 accessor that reads the world and cannot fail. *)
Definition read {T} (f : world -> T) : R T := fun s => (Value (f (repos s)), s).

(** The files include [Rdefines.h] without [USE_RINTERNALS]: the accessors
    are R's functions, which test the type of their argument and raise an
    R error on the wrong one.  They do not test the index. *)
Definition accessor_error {A} (accessor expected : string) (x : SEXP) : R A :=
  error "%s() can only be applied to a '%s', not a '%s'"
        [arg_s accessor; arg_s expected; arg_s (type2char x)].

(** [CHAR(STRING_ELT(x, i))]: reading past the end of a character vector is
    undefined. *)
Definition STRING_ELT (x : SEXP) (i : nat) : R string :=
  match x with
  | STRSXP v =>
      match nth_error v i with
      | Some s => ret s
      | None => undefined "STRING_ELT: index out of range"
      end
  | _ => accessor_error "STRING_ELT" "character vector" x
  end.

Definition VECTOR_ELT (x : SEXP) (i : nat) : R SEXP :=
  match x with
  | VECSXP v _ =>
      match nth_error v i with
      | Some e => ret e
      | None => undefined "VECTOR_ELT: index out of range"
      end
  | _ => accessor_error "VECTOR_ELT" "list" x
  end.

(** [LOGICAL(x)[i]] *)
Definition LOGICAL (x : SEXP) (i : nat) : R Z :=
  match x with
  | LGLSXP v =>
      match nth_error v i with
      | Some b => ret b
      | None => undefined "LOGICAL: index out of range"
      end
  | _ => accessor_error "LOGICAL" "logical" x
  end.

(** [SET_VECTOR_ELT(x, i, v)] *)
Definition SET_VECTOR_ELT (x : SEXP) (i : nat) (e : SEXP) : R SEXP :=
  match x with
  | VECSXP v names =>
      if decide (i < length v)%nat then ret (VECSXP (<[i := e]> v) names)
      else undefined "SET_VECTOR_ELT: index out of range"
  | _ => accessor_error "SET_VECTOR_ELT" "list" x
  end.

(** [allocVector(VECSXP, n)]: [n] elements, each [R_NilValue]. *)
Definition allocVector_VECSXP (n : nat) : SEXP := VECSXP (replicate n R_NilValue) None.

(** [GET_SLOT(obj, Rf_install(name))]: R raises an error when the object has
    no such slot. *)
Definition GET_SLOT (obj : SEXP) (name : string) : R SEXP :=
  match obj with
  | S4SXP _ slots =>
      match slot_lookup name slots with
      | Some v => ret v
      | None => error "no slot of name %s for this object" [arg_s name]
      end
  | _ => error "no slot of name %s for this object" [arg_s name]
  end.

(** [getAttrib(x, R_ClassSymbol)] *)
Definition getAttrib_class (x : SEXP) : SEXP :=
  match x with
  | S4SXP c _ => STRSXP c
  | _ => R_NilValue
  end.

(** [getAttrib(x, R_NamesSymbol)] *)
Definition getAttrib_names (x : SEXP) : SEXP :=
  match x with
  | VECSXP _ (Some names) => STRSXP names
  | _ => R_NilValue
  end.

(** [mkChar(p)] computes [strlen(p)]: a NULL pointer is undefined. *)
Definition mkChar (p : option string) : R string :=
  match p with
  | Some s => ret s
  | None => undefined "mkChar(NULL)"
  end.

(** [giterr_last()->message] *)
Definition giterr_last_message : R string :=
  e <- giterr_last ;;
  match e with
  | Some e => ret (message e)
  | None => undefined "giterr_last() is NULL"
  end.

(** Releasing a handle ([git_repository_free], [git_signature_free],
    [git_config_free], [git_remote_free], [git_commit_free],
    [git_revwalk_free], [git_buf_free]) leaves the world as it is. *)
Definition free {T} (handle : T) : R unit := ret tt.

End Accessors.

(** ** Helpers of the binding defined outside these four files

    Argument checks ([git2r_arg.c], [git2r_error.c]), the error raiser and
    its format strings ([git2r_error.c]), and the marshalling helpers of
    [git2r_signature.c], [git2r_oid.c] and [git2r_commit.c].  Nothing is
    assumed about them beyond their C prototypes. *)
Class Helpers `{LibGit2} : Type := {
  git2r_err_invalid_repository : string;
  git2r_err_string_arg : string;
  git2r_err_from_libgit2 : string;
  git2r_err_invalid_checkout_args : string;
  git2r_error : string -> string -> option string -> R unit;
  git2r_arg_check_string : SEXP -> Z;
  git2r_arg_check_hex : SEXP -> Z;
  git2r_error_check_string_arg : SEXP -> Z;
  git2r_error_check_signature_arg : SEXP -> Z;
  git2r_error_check_logical_arg : SEXP -> Z;
  git2r_signature_from_arg : SEXP -> lib_ret (option git_signature);
  git2r_oid_from_hex_sexp : SEXP -> git_oid;
  init_commit : git_commit -> SEXP -> SEXP
}.

(** ** [src/git2r_repository.c] *)

Section Repository.
Context `{Helpers}.

(** [git2r_repository_open]: the handle of the repository an S4
    [git_repository] object names, or NULL. *)
Definition git2r_repository_open (repo : SEXP) : R (option git_repository) :=
  if is_nil repo || negb (is_S4 repo) then ret None
  else
    class_name <- STRING_ELT (getAttrib_class repo) 0 ;;
    if negb (String.eqb class_name "git_repository") then ret None
    else
      path <- GET_SLOT repo "path" ;;
      if negb (git2r_arg_check_string path =? 0) then ret None
      else
        p <- STRING_ELT path 0 ;;
        let* (err, repository) := query (git_repository_open p) in
        if err <? 0 then ret None else ret repository.

(** [git2r_repository_can_open] *)
Definition git2r_repository_can_open (path : SEXP) : R SEXP :=
  when (negb (git2r_arg_check_string path =? 0))
       (git2r_error git2r_err_string_arg "git2r_repository_can_open" (Some "path")) ;;
  p <- STRING_ELT path 0 ;;
  let* (can_open, repository) := query (git_repository_open p) in
  (match repository with Some r => free r | None => ret tt end) ;;
  if negb (can_open =? 0) then ret (LGLSXP [0]) else ret (LGLSXP [1]).

(** [git2r_repository_workdir] *)
Definition git2r_repository_workdir (repo : SEXP) : R SEXP :=
  repository <- git2r_repository_open repo ;;
  match repository with
  | None =>
      git2r_error git2r_err_invalid_repository "git2r_repository_workdir" None ;;
      undefined "git_repository_is_bare(NULL)"
  | Some repository =>
      is_bare <- read (git_repository_is_bare repository) ;;
      result <- (if is_bare =? 0 then
                   wd <- read (git_repository_workdir repository) ;;
                   c <- mkChar wd ;;
                   ret (STRSXP [c])
                 else ret R_NilValue) ;;
      free repository ;;
      ret result
  end.

(** [git2r_repository_discover]: [across_fs] is passed as 0 and
    [ceiling_dirs] as NULL. *)
Definition git2r_repository_discover (path : SEXP) : R SEXP :=
  when (negb (git2r_arg_check_string path =? 0))
       (git2r_error git2r_err_string_arg "git2r_repository_discover" (Some "path")) ;;
  p <- STRING_ELT path 0 ;;
  let* (err, buf) := query (git_repository_discover p 0 None) in
  let* (err, result) :=
    (if negb (err =? GIT_OK) then
       (* NB just return R_NilValue if we can't discover the repo *)
       ret (if err =? GIT_ENOTFOUND then GIT_OK else err, R_NilValue)
     else
       c <- mkChar (Some buf) ;;
       ret (err, STRSXP [c])) in
  (* cleanup: *)
  free buf ;;
  when (negb (err =? GIT_OK))
       (m <- giterr_last_message ;;
        git2r_error git2r_err_from_libgit2 "git2r_repository_discover" (Some m)) ;;
  ret result.

End Repository.

(** ** [src/git2r_graph.c] *)

Section Graph.
Context `{Helpers}.

(** [git2r_graph_descendant_of]: the repository is the one in the [repo]
    slot of [commit]; both ids are read from the [hex] slots. *)
Definition git2r_graph_descendant_of (commit ancestor : SEXP) : R SEXP :=
  slot <- GET_SLOT commit "repo" ;;
  repository <- git2r_repository_open slot ;;
  match repository with
  | None => error git2r_err_invalid_repository []
  | Some repository =>
      slot <- GET_SLOT commit "hex" ;;
      let commit_oid := git2r_oid_from_hex_sexp slot in
      slot <- GET_SLOT ancestor "hex" ;;
      let ancestor_oid := git2r_oid_from_hex_sexp slot in
      let* (result, _) :=
        query (git_graph_descendant_of repository commit_oid ancestor_oid) in
      free repository ;;
      if result <? 0 then
        m <- giterr_last_message ;;
        error "Error: %s\n" [arg_s m]
      else if result =? 0 then ret (ScalarLogical 0)
      else ret (ScalarLogical 1)
  end.

End Graph.

(** ** [src/git2r_note.c] *)

Section Note.
Context `{Helpers}.

(** The payload of the listing callback.  [list] and the [result] of
    [git2r_note_list] are one and the same R object. *)
Record git2r_note_list_cb_data : Type := {
  cb_n : nat;
  cb_list : SEXP;
  cb_repo : SEXP;
  cb_repository : option git_repository;
  cb_notes_ref : option string
}.

(** [git2r_note_init]: fill the slots of an S4 [git_note]; returns the error
    code together with the (updated) destination object. *)
Definition git2r_note_init
    (blob_id annotated_object_id : git_oid) (repository : git_repository)
    (notes_ref : string) (repo dest : SEXP) : R (Z * SEXP) :=
  let* (err, note) := query (git_note_read repository notes_ref annotated_object_id) in
  if err <? 0 then ret (err, dest)
  else
    let dest := SET_SLOT dest "hex" (ScalarString (git_oid_fmt blob_id)) in
    let dest := SET_SLOT dest "annotated" (ScalarString (git_oid_fmt annotated_object_id)) in
    msg <- mkChar (git_note_message <$> note) ;;
    let dest := SET_SLOT dest "message" (ScalarString msg) in
    let dest := SET_SLOT dest "refname" (ScalarString notes_ref) in
    let dest := SET_SLOT dest "repo" repo in
    (match note with Some n => free n | None => ret tt end) ;;
    ret (0, dest).

(** [git2r_note_create] *)
Definition git2r_note_create
    (repo hex message ref author committer force : SEXP) : R SEXP :=
  if negb (git2r_arg_check_hex hex =? 0)
     || negb (git2r_error_check_string_arg message =? 0)
     || negb (git2r_error_check_string_arg ref =? 0)
     || negb (git2r_error_check_signature_arg author =? 0)
     || negb (git2r_error_check_signature_arg committer =? 0)
     || negb (git2r_error_check_logical_arg force =? 0)
  then error "Invalid arguments to git2r_note_create" []
  else
    repository <- git2r_repository_open repo ;;
    match repository with
    | None => error git2r_err_invalid_repository []
    | Some repository =>
        let* (err, result) :=
          (let* (err, sig_author) := query (fun _ => git2r_signature_from_arg author) in
           if err <? 0 then ret (err, R_NilValue)
           else
             let* (err, sig_committer) :=
               query (fun _ => git2r_signature_from_arg committer) in
             if err <? 0 then ret (err, R_NilValue)
             else
               h <- STRING_ELT hex 0 ;;
               let* (err, object_oid) := query (fun _ => git_oid_fromstr h) in
               if err <? 0 then ret (err, R_NilValue)
               else
                 f <- LOGICAL force 0 ;;
                 let overwrite := if f =? 0 then 0 else 1 in
                 r <- STRING_ELT ref 0 ;;
                 m <- STRING_ELT message 0 ;;
                 match sig_author, sig_committer, object_oid with
                 | Some sig_author, Some sig_committer, Some object_oid =>
                     let* (err, note_oid) :=
                       update (git_note_create repository sig_author sig_committer
                                               r object_oid m overwrite) in
                     if err <? 0 then ret (err, R_NilValue)
                     else
                       match note_oid with
                       | Some note_oid =>
                           git2r_note_init note_oid object_oid repository r repo
                                           (NEW_OBJECT "git_note")
                       | None => undefined "note_oid not set"
                       end
                 | _, _, _ => undefined "NULL signature or unset oid passed to git_note_create"
                 end) in
        (* cleanup: *)
        free repository ;;
        if err <? 0 then
          m <- giterr_last_message ;;
          error "Error: %s\n" [arg_s m]
        else ret result
    end.

(** [git2r_note_list_cb]: counts the notes and, once a list is there, fills
    it. *)
Definition git2r_note_list_cb
    (blob_id annotated_object_id : git_oid) (cb_data : git2r_note_list_cb_data)
  : R (Z * git2r_note_list_cb_data) :=
  if negb (is_nil (cb_list cb_data)) then
    match cb_repository cb_data, cb_notes_ref cb_data with
    | Some repository, Some notes_ref =>
        let* (err, note) :=
          git2r_note_init blob_id annotated_object_id repository notes_ref
                          (cb_repo cb_data) (NEW_OBJECT "git_note") in
        if err <? 0 then ret (err, cb_data)
        else
          l <- SET_VECTOR_ELT (cb_list cb_data) (cb_n cb_data) note ;;
          ret (0, {| cb_n := S (cb_n cb_data); cb_list := l; cb_repo := cb_repo cb_data;
                     cb_repository := cb_repository cb_data;
                     cb_notes_ref := cb_notes_ref cb_data |})
    | _, _ => undefined "git_note_read on a NULL repository or reference"
    end
  else
    ret (0, {| cb_n := S (cb_n cb_data); cb_list := cb_list cb_data;
               cb_repo := cb_repo cb_data; cb_repository := cb_repository cb_data;
               cb_notes_ref := cb_notes_ref cb_data |}).

(** [git_note_foreach] walks the entries of the notes reference and calls
    the callback on each; a non-zero return of the callback stops the walk. *)
Fixpoint note_foreach_loop {P : Type}
    (note_cb : git_oid -> git_oid -> P -> R (Z * P))
    (entries : list (git_oid * git_oid)) (payload : P) : R (Z * P) :=
  match entries with
  | [] => ret (0, payload)
  | (blob_id, annotated_id) :: rest =>
      let* (r, payload) := note_cb blob_id annotated_id payload in
      if r =? 0 then note_foreach_loop note_cb rest payload
      else ret (git_note_foreach_abort r, payload)
  end.

Definition git_note_foreach {P : Type}
    (repository : git_repository) (notes_ref : string)
    (note_cb : git_oid -> git_oid -> P -> R (Z * P)) (payload : P) : R (Z * P) :=
  let* (err, entries) := query (git_note_entries repository notes_ref) in
  if negb (err =? 0) then ret (err, payload)
  else note_foreach_loop note_cb entries payload.

(** [git2r_note_list] *)
Definition git2r_note_list (repo ref : SEXP) : R SEXP :=
  let cb_data := {| cb_n := 0; cb_list := R_NilValue; cb_repo := R_NilValue;
                    cb_repository := None; cb_notes_ref := None |} in
  notes_ref <- (if negb (is_nil ref) then
                  if negb (git2r_error_check_string_arg ref =? 0)
                  then error "Invalid arguments to git2r_note_list" []
                  else r <- STRING_ELT ref 0 ;; ret (Some r)
                else ret None) ;;
  repository <- git2r_repository_open repo ;;
  match repository with
  | None => error git2r_err_invalid_repository []
  | Some repository =>
      let* (err, result) :=
        (let* (err, notes_ref) :=
           (match notes_ref with
            | None => query (git_note_default_ref repository)
            | Some r => ret (0, Some r)
            end) in
         if err <? 0 then ret (err, R_NilValue)
         else
           match notes_ref with
           | None => undefined "git_note_foreach on a NULL reference name"
           | Some notes_ref =>
               (* Count number of notes before creating the list *)
               let* (err, cb_data) :=
                 git_note_foreach repository notes_ref git2r_note_list_cb cb_data in
               if err <? 0 then
                 if GIT_ENOTFOUND =? err then ret (0, allocVector_VECSXP 0)
                 else ret (err, R_NilValue)
               else
                 let result := allocVector_VECSXP (cb_n cb_data) in
                 let cb_data := {| cb_n := 0; cb_list := result; cb_repo := repo;
                                   cb_repository := Some repository;
                                   cb_notes_ref := Some notes_ref |} in
                 let* (err, cb_data) :=
                   git_note_foreach repository notes_ref git2r_note_list_cb cb_data in
                 ret (err, cb_list cb_data)
           end) in
      (* cleanup: *)
      free repository ;;
      if err <? 0 then
        m <- giterr_last_message ;;
        error "Error: %s\n" [arg_s m]
      else ret result
  end.

(** The S4 [git_note] object [git2r_note_init] builds. *)
Definition note_object (repo : SEXP) (notes_ref : string) (blob annotated : git_oid)
    (message : string) : SEXP :=
  S4SXP ["git_note"]
        [("hex", STRSXP [git_oid_fmt blob]);
         ("annotated", STRSXP [git_oid_fmt annotated]);
         ("message", STRSXP [message]);
         ("refname", STRSXP [notes_ref]);
         ("repo", repo)].

(** Whether an S4 [git_note] object annotates the object with this hex id. *)
Definition annotates (hex : string) (note : SEXP) : bool :=
  match note with
  | S4SXP _ slots =>
      match slot_lookup "annotated" slots with
      | Some (STRSXP [a]) => String.eqb a hex
      | _ => false
      end
  | _ => false
  end.

End Note.

(** ** [src/git2r.c] *)

Section Git2r.
Context `{Helpers}.

(** [get_repository] *)
Definition get_repository (repo : SEXP) : R (option git_repository) :=
  if is_nil repo || negb (is_S4 repo) then ret None
  else
    class_name <- STRING_ELT (getAttrib_class repo) 0 ;;
    if negb (String.eqb class_name "git_repository") then ret None
    else
      path <- GET_SLOT repo "path" ;;
      if is_nil path then ret None
      else
        p <- STRING_ELT path 0 ;;
        let* (err, r) := query (git_repository_open p) in
        if err <? 0 then ret None else ret r.

(** [checkout].  The local [err] is declared without initialiser and no
    statement assigns it; [err_uninit] is the value it happens to hold when
    the final test reads it. *)
Inductive CHECKOUT_ACTION : Type :=
| CHECKOUT_COMMIT
| CHECKOUT_TAG
| CHECKOUT_TREE
| CHECKOUT_HEAD.

Definition checkout_strategy (treeish : SEXP) : R CHECKOUT_ACTION :=
  if is_S4 treeish then
    class_name <- STRING_ELT (getAttrib_class treeish) 0 ;;
    if String.eqb class_name "git_commit" then ret CHECKOUT_COMMIT
    else if String.eqb class_name "git_tag" then ret CHECKOUT_TAG
    else if String.eqb class_name "git_tree" then ret CHECKOUT_TREE
    else error git2r_err_invalid_checkout_args []
  else if isString treeish && (Rf_length treeish =? 1) then
    s <- STRING_ELT treeish 0 ;;
    if String.eqb s "HEAD" then ret CHECKOUT_HEAD
    else error git2r_err_invalid_checkout_args []
  else error git2r_err_invalid_checkout_args [].

Definition checkout (err_uninit : Z) (repo treeish : SEXP) : R SEXP :=
  let err := err_uninit in
  (* Check arguments to checkout *)
  if is_nil repo || is_nil treeish then error git2r_err_invalid_checkout_args []
  else
    (* Determine checkout strategy *)
    checkout_action <- checkout_strategy treeish ;;
    repository <- get_repository repo ;;
    match repository with
    | None => error git2r_err_invalid_repository []
    | Some repository =>
        match checkout_action with
        | CHECKOUT_COMMIT => ret tt (* :TODO:FIX: *)
        | CHECKOUT_TAG => ret tt (* :TODO:FIX: *)
        | CHECKOUT_TREE => ret tt (* :TODO:FIX: *)
        | CHECKOUT_HEAD => ret tt (* :TODO:FIX: *)
        end ;;
        (* cleanup: *)
        free repository ;;
        if err <? 0 then
          e <- giterr_last ;;
          match e with
          | Some e => error "Error %d: %s\n" [arg_d (klass e); arg_s (message e)]
          | None => undefined "giterr_last() is NULL"
          end
        else ret R_NilValue
    end.

(** [config]: the loop over [variables]; the result is the last error
    code. *)
Fixpoint config_loop (cfg : option git_config) (names variables : SEXP)
    (i : nat) (steps : nat) (err : Z) : R Z :=
  match steps with
  | O => ret err
  | S steps =>
      key <- STRING_ELT names i ;;
      v <- VECTOR_ELT variables i ;;
      value <- STRING_ELT v 0 ;;
      match cfg with
      | None => undefined "git_config_set_string on a NULL configuration"
      | Some c =>
          let* (err, _) := update (git_config_set_string c key value) in
          if err <? 0 then ret err
          else config_loop cfg names variables (S i) steps err
      end
  end.

Definition config (repo variables : SEXP) : R SEXP :=
  if is_nil variables then error "'variables' equals R_NilValue." []
  else if negb (isNewList variables) then error "'variables' must be a list." []
  else
    repository <- get_repository repo ;;
    match repository with
    | None => error git2r_err_invalid_repository []
    | Some repository =>
        let* (err, cfg) := query (git_repository_config repository) in
        err <- (if err <? 0 then ret err
                else
                  let names := getAttrib_names variables in
                  config_loop cfg names variables 0
                              (Z.to_nat (Rf_length variables)) err) ;;
        (* cleanup: the error code is not looked at again *)
        free cfg ;;
        free repository ;;
        ret R_NilValue
    end.

(** [fetch] *)
Definition fetch (repo name : SEXP) : R SEXP :=
  if is_nil name || negb (isString name) || negb (Rf_length name =? 1)
  then error "Invalid arguments to fetch" []
  else
    repository <- get_repository repo ;;
    match repository with
    | None => error git2r_err_invalid_repository []
    | Some repository =>
        n <- STRING_ELT name 0 ;;
        let* (err, remote) := query (git_remote_load repository n) in
        err <- (if err <? 0 then ret err
                else
                  match remote with
                  | None => undefined "git_remote_fetch on a NULL remote"
                  | Some r =>
                      let* (err, _) := update (git_remote_fetch r) in
                      ret err
                  end) ;;
        (* cleanup: the error code is not looked at again *)
        (match remote with Some r => free r | None => ret tt end) ;;
        free repository ;;
        ret R_NilValue
    end.

(** [is_repository] *)
Definition is_repository (path : SEXP) : R SEXP :=
  if is_nil path then error "'path' equals R_NilValue" []
  else if negb (isString path) then error "'path' must be a string" []
  else
    p <- STRING_ELT path 0 ;;
    let* (err, repository) := query (git_repository_open p) in
    if err <? 0 then ret (ScalarLogical 0)
    else
      free repository ;;
      ret (ScalarLogical 1).

(** [number_of_revisions]: [while (!git_revwalk_next(&oid, walker)) n++;]
    one turn per commit the walk yields; the first call that does not
    return 0 ends the count, whatever its code, and leaves its error
    record. *)
Fixpoint count_revisions (yields : list git_oid) (n : nat) : nat :=
  match yields with
  | [] => n
  | _ :: rest => count_revisions rest (S n)
  end.

Definition number_of_revisions (walker : git_revwalk) : R (nat * git_revwalk) :=
  walk <- read (git_revwalk_walk walker) ;;
  let n := count_revisions (walk_yields walk) 0 in
  let* (_, walker) := query (fun _ => walk_last walk) in
  ret (n, walker).

(** The [for (;;)] loop of [revisions], over the commits the walk has still
    to yield: one turn per commit, left when a lookup fails; the call that
    ends the walk returns a negative code, which becomes 0 when it is
    [GIT_ITEROVER] and is the error of the routine otherwise. *)
Fixpoint revisions_loop (repository : git_repository) (yields : list git_oid)
    (last : lib_ret git_revwalk) (list : SEXP) (i : nat) : R (Z * SEXP) :=
  match yields with
  | [] =>
      let* (err, _) := query (fun _ => last) in
      ret (if GIT_ITEROVER =? err then 0 else err, list)
  | oid :: yields =>
      let* (err, commit) := query (git_commit_lookup repository oid) in
      if err <? 0 then ret (err, list)
      else
        match commit with
        | None => undefined "init_commit on a NULL commit"
        | Some commit =>
            let sexp_commit := init_commit commit (NEW_OBJECT "git_commit") in
            list <- SET_VECTOR_ELT list i sexp_commit ;;
            free commit ;;
            revisions_loop repository yields last list (S i)
        end
  end.

(** [revisions].  [list] has no initialiser; it is read on the paths that
    have assigned it only. *)
Definition revisions (repo : SEXP) : R SEXP :=
  repository <- get_repository repo ;;
  match repository with
  | None => error git2r_err_invalid_repository []
  | Some repository =>
      let* (is_empty, _) := query (git_repository_is_empty repository) in
      let* (err, list) :=
        (if negb (is_empty =? 0) then
           (* No commits, create empty list *)
           ret (0, allocVector_VECSXP 0)
         else
           let* (err, walker) := query (git_revwalk_new repository) in
           if err <? 0 then ret (err, R_NilValue)
           else
             match walker with
             | None => undefined "git_revwalk_push_head on a NULL walker"
             | Some walker =>
                 let* (err, walker) := query (git_revwalk_push_head walker) in
                 if err <? 0 then ret (err, R_NilValue)
                 else
                   (* Count number of revisions before creating the list *)
                   let* (n, walker) := number_of_revisions walker in
                   (* Create list to store result *)
                   let list := allocVector_VECSXP n in
                   let walker := git_revwalk_reset walker in
                   let* (err, walker) := query (git_revwalk_push_head walker) in
                   if err <? 0 then ret (err, list)
                   else
                     walk <- read (git_revwalk_walk walker) ;;
                     revisions_loop repository (walk_yields walk) (walk_last walk) list 0
             end) in
      (* cleanup: *)
      free repository ;;
      if err <? 0 then
        e <- giterr_last ;;
        match e with
        | Some e => error "Error %d/%d: %s\n" [arg_d err; arg_d (klass e); arg_s (message e)]
        | None => undefined "giterr_last() is NULL"
        end
      else ret list
  end.

(** [workdir]: no test for a bare repository before [mkChar]. *)
Definition workdir (repo : SEXP) : R SEXP :=
  repository <- get_repository repo ;;
  match repository with
  | None => error git2r_err_invalid_repository []
  | Some repository =>
      wd <- read (git_repository_workdir repository) ;;
      c <- mkChar wd ;;
      let result := ScalarString c in
      free repository ;;
      ret result
  end.

End Git2r.

(** * The wrapped library

    libgit2 itself is not among the four files.  [Model] is the version
    control core as the specification describes it (object store, commit
    graph walker, notes subsystem, repository context), packaged as an
    instance of [LibGit2] so that the binding routines above can be run and
    reasoned about against it. *)

Module Model.

(** Modelled from the spec: the ObjectId of section 3, missing with libgit2's
    [git_oid]; kept in its 40-character lower-case hex encoding. *)
Definition ObjectId : Type := string.

Definition is_hex_digit (c : ascii) : bool :=
  let n := nat_of_ascii c in
  ((48 <=? n) && (n <=? 57) || (97 <=? n) && (n <=? 102) || (65 <=? n) && (n <=? 70))%nat.

Definition lower_hex (c : ascii) : ascii :=
  let n := nat_of_ascii c in
  if ((65 <=? n) && (n <=? 70))%nat then ascii_of_nat (n + 32) else c.

Fixpoint string_map (f : ascii -> ascii) (s : string) : string :=
  match s with
  | EmptyString => EmptyString
  | String c rest => String (f c) (string_map f rest)
  end.

Fixpoint string_forallb (f : ascii -> bool) (s : string) : bool :=
  match s with
  | EmptyString => true
  | String c rest => f c && string_forallb f rest
  end.

(** Modelled from the spec: hex decoding of an ObjectId (section 3: 40 hex
    characters), missing with libgit2's [git_oid_fromstr]. *)
Definition oid_decode (s : string) : option ObjectId :=
  if (String.length s =? 40)%nat && string_forallb is_hex_digit s
  then Some (string_map lower_hex s)
  else None.

(** Modelled from the spec: the Object, Signature and Note of section 3. *)
Inductive Object : Type :=
| Blob (content : string)
| Tree (entries : list (string * ObjectId))
| Commit (tree : ObjectId) (parents : list ObjectId) (message : string)
| Tag (target : ObjectId) (name message : string).

Record Signature : Type := {
  sig_name : string;
  sig_email : string;
  sig_time : Z;
  sig_offset : Z
}.

Record Note : Type := { note_blob : ObjectId; note_message : string }.

(** Modelled from the spec: the Repository of section 3.  The notes of a
    reference are the linear history of its note trees, newest first; a tree
    maps the annotated object to its note.  [repo_head] is the commit HEAD
    resolves to, absent while HEAD is unborn.  [repo_writable] is the
    filesystem provider accepting writes. *)
Record Repository : Type := {
  repo_bare : bool;
  repo_writable : bool;
  repo_objects : gmap ObjectId Object;
  repo_head : option ObjectId;
  repo_notes : gmap string (list (gmap ObjectId Note));
  repo_config : gmap string string;
  repo_remotes : gmap string string
}.

(** A directory is the list of its path components below the root. *)
Definition Path : Type := list string.

(** Modelled from the spec: the external collaborators of section 6 as far
    as the core consumes them: the directories holding a repository, the
    directories that start another filesystem device (mount points), the
    objects a remote endpoint serves, and the digest for new blobs. *)
Record World : Type := {
  repositories : gmap Path Repository;
  mounts : gset Path;
  network : gmap string (gmap ObjectId Object);
  digest : string -> ObjectId
}.

Definition slash : ascii := ascii_of_nat 47.

Fixpoint split_path (s : string) (component : string) : Path :=
  match s with
  | EmptyString => if String.eqb component "" then [] else [component]
  | String c rest =>
      if Ascii.eqb c slash then
        app (if String.eqb component "" then [] else [component]) (split_path rest "")
      else split_path rest (component ++ String c "")
  end.

Definition parse_path (s : string) : Path := split_path s "".

Fixpoint render_components (p : Path) : string :=
  match p with
  | [] => ""
  | c :: rest => "/" ++ c ++ render_components rest
  end.

Definition render_path (p : Path) : string :=
  match p with
  | [] => "/"
  | _ => render_components p
  end.

(** Modelled from the spec: the failure kinds of section 7 the modelled
    operations raise, with the libgit2 code each is reported under. *)
Inductive Failure : Type :=
| NotFound
| InvalidArgument
| AlreadyExists
| IOFailure.

Definition failure_code (f : Failure) : Z :=
  match f with
  | NotFound => GIT_ENOTFOUND
  | AlreadyExists => GIT_EEXISTS
  | InvalidArgument | IOFailure => -1
  end.

Definition failure_name (f : Failure) : string :=
  match f with
  | NotFound => "NotFound"
  | InvalidArgument => "InvalidArgument"
  | AlreadyExists => "AlreadyExists"
  | IOFailure => "IOFailure"
  end.

(** A failed call: the code, no result, and the error record with the kind
    and the id or name involved. *)
Definition fail {T} (f : Failure) (context : string) (dummy : T) : lib_ret T :=
  Lib (failure_code f) dummy
      (Some {| klass := - failure_code f; message := failure_name f ++ ": " ++ context |}).

Definition ok {T} (v : T) : lib_ret T := Lib 0 v None.

(** ** Repository context (section 4.5) *)

(** Modelled from the spec: [open(path)], failing with RepositoryNotFound;
    missing with libgit2's [git_repository_open].  The handle is the
    directory. *)
Definition repository_open (path : string) (w : World) : lib_ret (option Path) :=
  match repositories w !! parse_path path with
  | Some _ => ok (Some (parse_path path))
  | None => fail NotFound path None
  end.

Definition is_repository_at (w : World) (d : Path) : bool :=
  bool_decide (is_Some (repositories w !! d)).

(** Modelled from the spec: [discover(path)], missing with libgit2's
    [git_repository_discover]: walks parent directories looking for
    repository markers and stops at filesystem-device boundaries.  The
    directory is held with its last component first, so that the parent is
    the tail. *)
Fixpoint discover_up (w : World) (across_fs : bool) (rev_dir : list string) : option Path :=
  if is_repository_at w (rev rev_dir) then Some (rev rev_dir)
  else
    match rev_dir with
    | [] => None
    | _ :: parent =>
        if negb across_fs && bool_decide (rev rev_dir ∈ mounts w) then None
        else discover_up w across_fs parent
    end.

Definition discover (w : World) (across_fs : bool) (start : string) : option Path :=
  discover_up w across_fs (rev (parse_path start)).

(** Holds when [d] is the nearest directory at or above [dir] that holds a
    repository, with no mount point on the way up from [dir] to [d]. *)
Definition nearest_repository (w : World) (dir d : Path) : Prop :=
  exists below,
    dir = app d below /\ is_Some (repositories w !! d) /\
    forall mid rest, below = app mid rest -> mid <> [] ->
      repositories w !! (app d mid) = None /\ app d mid ∉ mounts w.

Definition repository_discover
    (start : string) (across_fs : Z) (ceiling_dirs : option string) (w : World)
  : lib_ret string :=
  match discover w (negb (across_fs =? 0)) start with
  | Some d => ok (render_path d)
  | None => fail NotFound start ""
  end.

(** Modelled from the spec: [is_bare], [is_empty] and [workdir()] (absent
    for bare repositories, the repository's directory otherwise). *)
Definition repository_is_bare (h : Path) (w : World) : Z :=
  match repositories w !! h with
  | Some r => if repo_bare r then 1 else 0
  | None => 0
  end.

Definition repository_is_empty (h : Path) (w : World) : lib_ret unit :=
  match repositories w !! h with
  | Some r => Lib (match repo_head r with Some _ => 0 | None => 1 end) tt None
  | None => fail NotFound (render_path h) tt
  end.

Definition repository_workdir (h : Path) (w : World) : option string :=
  match repositories w !! h with
  | Some r => if repo_bare r then None else Some (render_path h)
  | None => None
  end.

(** ** Commit graph walker (section 4.3) *)

Definition commit_parents (store : gmap ObjectId Object) (c : ObjectId)
  : option (list ObjectId) :=
  match store !! c with
  | Some (Commit _ parents _) => Some parents
  | _ => None
  end.

(** The parents of all commits of a frontier. *)
Definition parents_of (store : gmap ObjectId Object) (frontier : gset ObjectId)
  : gset ObjectId :=
  set_bind (fun c => list_to_set (default [] (commit_parents store c))) frontier.

(** Modelled from the spec: the search behind [is_descendant_of], a bounded
    breadth-first search over the parent links read from the object store,
    short-circuiting on the first match.  [visited] are the commits whose
    parents have been or are being read, [frontier] those being read now. *)
Fixpoint search (store : gmap ObjectId Object) (target : ObjectId) (fuel : nat)
    (visited frontier : gset ObjectId) : bool :=
  match fuel with
  | O => false
  | S fuel =>
      let next := parents_of store frontier in
      if decide (target ∈ next) then true
      else
        let fresh := (next ∩ dom store) ∖ visited in
        if decide (fresh = ∅) then false
        else search store target fuel (visited ∪ fresh) fresh
  end.

(** Modelled from the spec: [is_descendant_of(commit, ancestor)], missing
    with libgit2's [git_graph_descendant_of]: fails with InvalidObject if
    either id does not resolve to a commit; an exact match is not a
    descendant. *)
Definition is_descendant_of (store : gmap ObjectId Object) (commit ancestor : ObjectId)
  : option bool :=
  match commit_parents store commit, commit_parents store ancestor with
  | Some _, Some _ =>
      if decide (commit = ancestor) then Some false
      else Some (search store ancestor (size (dom store)) {[commit]} {[commit]})
  | _, _ => None
  end.

(** The commits reached from a commit by following the parent chain, through
    any parent, in one step or more. *)
Inductive parent_chain (store : gmap ObjectId Object) : ObjectId -> ObjectId -> Prop :=
| chain_parent c ps a :
    commit_parents store c = Some ps -> a ∈ ps -> parent_chain store c a
| chain_step c ps p a :
    commit_parents store c = Some ps -> p ∈ ps -> parent_chain store p a ->
    parent_chain store c a.

(** The invariant of the search from [c] for [target]: the visited commits
    are [c] and commits on a parent chain from [c]; the commits whose parents
    have been read had none equal to [target], and their parents held by the
    store are visited too. *)
Definition search_invariant (store : gmap ObjectId Object) (c target : ObjectId)
    (visited frontier : gset ObjectId) : Prop :=
  c ∈ visited /\ frontier ⊆ visited /\ visited ⊆ dom store /\
  (forall x, x ∈ visited -> x = c \/ parent_chain store c x) /\
  (forall x ps p, x ∈ visited -> x ∉ frontier ->
                  commit_parents store x = Some ps -> p ∈ ps ->
                  p <> target /\ (p ∈ dom store -> p ∈ visited)).

Definition graph_descendant_of (h : Path) (commit ancestor : ObjectId) (w : World)
  : lib_ret unit :=
  match repositories w !! h with
  | None => fail NotFound (render_path h) tt
  | Some r =>
      match is_descendant_of (repo_objects r) commit ancestor with
      | None => fail InvalidArgument (commit ++ " " ++ ancestor) tt
      | Some true => Lib 1 tt None
      | Some false => Lib 0 tt None
      end
  end.

(** Modelled from the spec: [walk] from HEAD in insertion order; a commit is
    yielded at most once.  [queue] holds the commits still to visit. *)
Fixpoint walk (store : gmap ObjectId Object) (fuel : nat)
    (visited : gset ObjectId) (queue : list ObjectId) : list ObjectId :=
  match fuel with
  | O => []
  | S fuel =>
      match queue with
      | [] => []
      | c :: rest =>
          if decide (c ∈ visited) then walk store fuel visited rest
          else
            match commit_parents store c with
            | Some parents => c :: walk store fuel ({[c]} ∪ visited) (app rest parents)
            | None => walk store fuel ({[c]} ∪ visited) rest
            end
      end
  end.

Definition parent_links (store : gmap ObjectId Object) : nat :=
  map_fold (fun c o n => (n + length (default [] (commit_parents store c)))%nat) 0%nat store.

(** A walker: the repository and the roots pushed so far. *)
Definition Walker : Type := Path * list ObjectId.

Definition revwalk_new (h : Path) (w : World) : lib_ret (option Walker) :=
  match repositories w !! h with
  | None => fail NotFound (render_path h) None
  | Some _ => ok (Some (h, []))
  end.

Definition revwalk_push_head (walker : Walker) (w : World) : lib_ret Walker :=
  match repositories w !! walker.1 with
  | None => fail NotFound (render_path walker.1) walker
  | Some r =>
      match repo_head r with
      | None => fail NotFound "HEAD" walker
      | Some c => ok (walker.1, app walker.2 [c])
      end
  end.

Definition revwalk_reset (walker : Walker) : Walker := (walker.1, []).

(** The walk from the roots pushed; it ends with [GIT_ITEROVER] and leaves
    a walker without roots. *)
Definition revwalk_walk (walker : Walker) (w : World) : git_walk ObjectId Walker :=
  match repositories w !! walker.1 with
  | None =>
      Walk [] 3 (Some {| klass := 3; message := "NotFound: " ++ render_path walker.1 |})
           walker
  | Some r =>
      Walk (walk (repo_objects r) (length walker.2 + parent_links (repo_objects r))
                 ∅ walker.2)
           31 None (walker.1, [])
  end.

Definition commit_lookup (h : Path) (c : ObjectId) (w : World)
  : lib_ret (option (ObjectId * Object)) :=
  match repositories w !! h with
  | None => fail NotFound (render_path h) None
  | Some r =>
      match repo_objects r !! c with
      | Some (Commit t ps m) => ok (Some (c, Commit t ps m))
      | _ => fail NotFound c None
      end
  end.

(** ** Notes subsystem (section 4.4) *)

(** The current note tree of a reference; absent when the reference does
    not exist. *)
Definition notes_tree (r : Repository) (notes_ref : string) : option (gmap ObjectId Note) :=
  match repo_notes r !! notes_ref with
  | Some (tree :: _) => Some tree
  | _ => None
  end.

Definition notes_history (r : Repository) (notes_ref : string) : list (gmap ObjectId Note) :=
  default [] (repo_notes r !! notes_ref).

(** Modelled from the spec: [create(target, message, author, committer,
    notes_ref, overwrite)], missing with libgit2's [git_note_create]: fails
    with NoteAlreadyExists unless [overwrite]; the note text is written as a
    blob, indexed under the target in the tree, and the reference advanced
    to the new tree with the previous one as its parent. *)
Definition note_create
    (h : Path) (author committer : Signature) (notes_ref : string) (target : ObjectId)
    (message : string) (overwrite : Z) (w : World) : lib_ret (option ObjectId) * World :=
  match repositories w !! h with
  | None => (fail NotFound (render_path h) None, w)
  | Some r =>
      let tree := default ∅ (notes_tree r notes_ref) in
      if bool_decide (is_Some (tree !! target)) && (overwrite =? 0)
      then (fail AlreadyExists target None, w)
      else if negb (repo_writable r) then (fail IOFailure notes_ref None, w)
      else
        let blob := digest w message in
        let note := {| note_blob := blob; note_message := message |} in
        let r' := {| repo_bare := repo_bare r;
                     repo_writable := repo_writable r;
                     repo_objects := <[blob := Blob message]> (repo_objects r);
                     repo_head := repo_head r;
                     repo_notes := <[notes_ref := <[target := note]> tree
                                                   :: notes_history r notes_ref]>
                                     (repo_notes r);
                     repo_config := repo_config r;
                     repo_remotes := repo_remotes r |} in
        (ok (Some blob),
         {| repositories := <[h := r']> (repositories w);
            mounts := mounts w; network := network w; digest := digest w |})
  end.

(** The repository after a note has been written. *)
Definition with_note (r : Repository) (notes_ref : string) (target blob : ObjectId)
    (message : string) : Repository :=
  {| repo_bare := repo_bare r;
     repo_writable := repo_writable r;
     repo_objects := <[blob := Blob message]> (repo_objects r);
     repo_head := repo_head r;
     repo_notes :=
       <[notes_ref := <[target := {| note_blob := blob; note_message := message |}]>
                        (default ∅ (notes_tree r notes_ref))
                      :: notes_history r notes_ref]> (repo_notes r);
     repo_config := repo_config r;
     repo_remotes := repo_remotes r |}.

(** Modelled from the spec: reading one note and listing the notes of a
    reference, missing with libgit2's [git_note_read] and
    [git_note_foreach]; both report a reference that does not exist as
    NotFound. *)
Definition note_read (h : Path) (notes_ref : string) (target : ObjectId) (w : World)
  : lib_ret (option Note) :=
  match repositories w !! h with
  | None => fail NotFound (render_path h) None
  | Some r =>
      match notes_tree r notes_ref with
      | None => fail NotFound notes_ref None
      | Some tree =>
          match tree !! target with
          | Some note => ok (Some note)
          | None => fail NotFound target None
          end
      end
  end.

Definition note_entries (h : Path) (notes_ref : string) (w : World)
  : lib_ret (list (ObjectId * ObjectId)) :=
  match repositories w !! h with
  | None => fail NotFound (render_path h) []
  | Some r =>
      match notes_tree r notes_ref with
      | None => fail NotFound notes_ref []
      | Some tree =>
          ok (map (fun e : ObjectId * Note => (note_blob e.2, e.1)) (map_to_list tree))
      end
  end.

(** Modelled from the spec: the repository's configured default notes
    reference, [refs/notes/commits] unless configured. *)
Definition note_default_ref (h : Path) (w : World) : lib_ret (option string) :=
  match repositories w !! h with
  | None => fail NotFound (render_path h) None
  | Some r => ok (Some (default "refs/notes/commits" (repo_config r !! "core.notesRef")))
  end.

(** ** Configuration and remotes (section 6) *)

Definition repository_config (h : Path) (w : World) : lib_ret (option Path) :=
  match repositories w !! h with
  | None => fail NotFound (render_path h) None
  | Some _ => ok (Some h)
  end.

Definition config_set_string (h : Path) (key value : string) (w : World)
  : lib_ret unit * World :=
  match repositories w !! h with
  | None => (fail NotFound (render_path h) tt, w)
  | Some r =>
      if negb (repo_writable r) then (fail IOFailure key tt, w)
      else
        let r' := {| repo_bare := repo_bare r;
                     repo_writable := repo_writable r;
                     repo_objects := repo_objects r;
                     repo_head := repo_head r;
                     repo_notes := repo_notes r;
                     repo_config := <[key := value]> (repo_config r);
                     repo_remotes := repo_remotes r |} in
        (ok tt,
         {| repositories := <[h := r']> (repositories w);
            mounts := mounts w; network := network w; digest := digest w |})
  end.

(** A loaded remote: the repository and the URL of the remote. *)
Definition remote_load (h : Path) (name : string) (w : World)
  : lib_ret (option (Path * string)) :=
  match repositories w !! h with
  | None => fail NotFound (render_path h) None
  | Some r =>
      match repo_remotes r !! name with
      | Some url => ok (Some (h, url))
      | None => fail NotFound name None
      end
  end.

(** Fetching adds the objects the endpoint serves to the object store. *)
Definition remote_fetch (remote : Path * string) (w : World) : lib_ret unit * World :=
  match repositories w !! remote.1, network w !! remote.2 with
  | Some r, Some served =>
      if negb (repo_writable r) then (fail IOFailure remote.2 tt, w)
      else
        let r' := {| repo_bare := repo_bare r;
                     repo_writable := repo_writable r;
                     repo_objects := repo_objects r ∪ served;
                     repo_head := repo_head r;
                     repo_notes := repo_notes r;
                     repo_config := repo_config r;
                     repo_remotes := repo_remotes r |} in
        (ok tt,
         {| repositories := <[remote.1 := r']> (repositories w);
            mounts := mounts w; network := network w; digest := digest w |})
  | _, _ => (fail IOFailure remote.2 tt, w)
  end.

(** The model as an instance of the interface the binding is written
    against. *)
#[export] Instance lib : LibGit2 := {|
  world := World;
  git_repository := Path;
  git_oid := ObjectId;
  git_signature := Signature;
  git_note := Note;
  git_config := Path;
  git_remote := Path * string;
  git_commit := ObjectId * Object;
  git_revwalk := Walker;
  git_repository_open := repository_open;
  git_repository_is_bare := repository_is_bare;
  git_repository_is_empty := repository_is_empty;
  git_repository_workdir := repository_workdir;
  git_repository_discover := repository_discover;
  git_oid_fromstr := fun s =>
    match oid_decode s with
    | Some o => ok (Some o)
    | None => fail InvalidArgument s None
    end;
  git_oid_fmt := fun o => o;
  git_graph_descendant_of := graph_descendant_of;
  git_note_create := note_create;
  git_note_read := note_read;
  git_note_message := note_message;
  git_note_default_ref := note_default_ref;
  git_note_entries := note_entries;
  git_note_foreach_abort := fun r => r;
  git_repository_config := repository_config;
  git_config_set_string := config_set_string;
  git_remote_load := remote_load;
  git_remote_fetch := remote_fetch;
  git_revwalk_new := revwalk_new;
  git_revwalk_push_head := revwalk_push_head;
  git_revwalk_reset := revwalk_reset;
  git_revwalk_walk := revwalk_walk;
  git_commit_lookup := commit_lookup
|}.

End Model.

(** * Running the binding

    One instance of [Helpers] over the model, and a small world, to run the
    routines on concrete inputs. *)

Module Example.
Import Model.

Definition check_string (x : SEXP) : Z :=
  match x with STRSXP [_] => 0 | _ => -1 end.

Definition check_hex (x : SEXP) : Z :=
  match x with
  | STRSXP [h] => match oid_decode h with Some _ => 0 | None => -1 end
  | _ => -1
  end.

Definition check_logical (x : SEXP) : Z :=
  match x with LGLSXP [_] => 0 | _ => -1 end.

Definition check_signature (x : SEXP) : Z :=
  match x with
  | S4SXP ["git_signature"] _ => 0
  | _ => -1
  end.

Definition signature_from_arg (x : SEXP) : lib_ret (option Signature) :=
  match x with
  | S4SXP _ slots =>
      match slot_lookup "name" slots, slot_lookup "email" slots with
      | Some (STRSXP [n]), Some (STRSXP [e]) =>
          ok (Some {| sig_name := n; sig_email := e; sig_time := 0; sig_offset := 0 |})
      | _, _ => fail InvalidArgument "signature" None
      end
  | _ => fail InvalidArgument "signature" None
  end.

Definition oid_from_hex_sexp (x : SEXP) : ObjectId :=
  match x with
  | STRSXP (h :: _) => default "" (oid_decode h)
  | _ => ""
  end.

Definition commit_to_sexp (c : ObjectId * Object) (dest : SEXP) : SEXP :=
  let dest := SET_SLOT dest "hex" (ScalarString c.1) in
  match c.2 with
  | Commit _ _ m => SET_SLOT dest "message" (ScalarString m)
  | _ => dest
  end.

Definition raise (format func : string) (arg : option string) : R unit :=
  error format (arg_s func :: match arg with Some a => [arg_s a] | None => [] end).

#[export] Instance helpers : Helpers := {|
  git2r_err_invalid_repository := "Invalid repository";
  git2r_err_string_arg := "Error in '%s': '%s' must be a character vector of length one";
  git2r_err_from_libgit2 := "Error in '%s': %s";
  git2r_err_invalid_checkout_args := "Invalid arguments to checkout";
  git2r_error := raise;
  git2r_arg_check_string := check_string;
  git2r_arg_check_hex := check_hex;
  git2r_error_check_string_arg := check_string;
  git2r_error_check_signature_arg := check_signature;
  git2r_error_check_logical_arg := check_logical;
  git2r_signature_from_arg := signature_from_arg;
  git2r_oid_from_hex_sexp := oid_from_hex_sexp;
  init_commit := commit_to_sexp
|}.

(** Forty times the same hex digit. *)
Definition oid_of (c : ascii) : ObjectId :=
  let four := String c (String c (String c (String c ""))) in
  let twenty := four ++ four ++ four ++ four ++ four in
  twenty ++ twenty.

Definition c1 : ObjectId := oid_of "1".
Definition c2 : ObjectId := oid_of "2".
Definition c3 : ObjectId := oid_of "3".
Definition c4 : ObjectId := oid_of "4".
Definition t0 : ObjectId := oid_of "0".

(** [c1] is a root commit, [c2] its child, [c3] a second root, and [c4] the
    merge of [c3] and [c2]. *)
Definition history : gmap ObjectId Object :=
  <[c4 := Commit t0 [c3; c2] "merge"]>
  (<[c3 := Commit t0 [] "other root"]>
  (<[c2 := Commit t0 [c1] "second"]>
  (<[c1 := Commit t0 [] "first"]>
  (<[t0 := Tree []]> ∅)))).

Definition project : Repository := {|
  repo_bare := false;
  repo_writable := true;
  repo_objects := history;
  repo_head := Some c4;
  repo_notes := {[ "refs/notes/commits" :=
                     [ {[ c1 := {| note_blob := oid_of "a"; note_message := "m1" |} ]} ] ]};
  repo_config := ∅;
  repo_remotes := {[ "origin" := "https://example.org/project.git" ]}
|}.

Definition bare_mirror : Repository := {|
  repo_bare := true;
  repo_writable := false;
  repo_objects := history;
  repo_head := Some c4;
  repo_notes := ∅;
  repo_config := ∅;
  repo_remotes := ∅
|}.

Definition fresh : Repository := {|
  repo_bare := false;
  repo_writable := true;
  repo_objects := ∅;
  repo_head := None;
  repo_notes := ∅;
  repo_config := ∅;
  repo_remotes := ∅
|}.

Definition disk : World := {|
  repositories := <[ ["home"; "u"; "project"] := project ]>
                  (<[ ["srv"; "mirror.git"] := bare_mirror ]>
                  (<[ ["home"; "u"; "fresh"] := fresh ]>
                  (<[ ["mnt"] := fresh ]> ∅)));
  mounts := {[ ["mnt"; "usb"] ]};
  network := ∅;
  digest := fun _ => oid_of "b"
|}.

Definition start : rstate := {| repos := disk; giterr := None |}.

Definition repo_at (path : string) : SEXP :=
  S4SXP ["git_repository"] [("path", STRSXP [path])].

Definition commit_at (path : string) (hex : ObjectId) : SEXP :=
  S4SXP ["git_commit"] [("hex", STRSXP [hex]); ("repo", repo_at path)].

Definition signature_of (name email : string) : SEXP :=
  S4SXP ["git_signature"] [("name", STRSXP [name]); ("email", STRSXP [email])].

End Example.

(** * The rest of the binding

    The routines of the four files that the sections above leave out, with
    the further libgit2 calls and helpers they need.  [branches] and
    [number_of_branches] of [src/git2r.c] are not embedded: what they do
    depends on [malloc] succeeding and on the buffer-size protocol of
    [git_branch_remote_name]. *)

Definition GIT_EUNBORNBRANCH : Z := -9.

(** [git_ref_t] *)
Definition GIT_REF_OID : Z := 1.
Definition GIT_REF_SYMBOLIC : Z := 2.

(** [git_branch_t] *)
Definition GIT_BRANCH_LOCAL : Z := 1.
Definition GIT_BRANCH_REMOTE : Z := 2.

Definition isLogical (x : SEXP) : bool :=
  match x with LGLSXP _ => true | _ => false end.

Definition ScalarInteger (x : Z) : SEXP := INTSXP [x].

(** [setAttrib(x, R_NamesSymbol, names)] on a generic vector. *)
Definition setAttrib_names (x : SEXP) (names : list string) : SEXP :=
  match x with
  | VECSXP v _ => VECSXP v (Some names)
  | other => other
  end.

(** The libgit2 calls of the remaining routines.  A [git_strarray] is the
    list of its strings; a call that fills one returns [None] when it comes
    back without having written the array. *)
Class LibGit2More `{LibGit2} : Type := {
  git_index : Type;
  git_reference : Type;
  git_tag : Type;

  git_repository_init : string -> Z -> world -> lib_ret (option git_repository) * world;
  git_repository_is_shallow : git_repository -> world -> lib_ret unit;
  git_repository_head_detached : git_repository -> world -> lib_ret unit;
  git_repository_head : git_repository -> world -> lib_ret (option git_reference);

  git_repository_index : git_repository -> world -> lib_ret (option git_index);
  git_index_add_bypath : git_index -> string -> world -> lib_ret unit * world;
  git_index_write : git_index -> world -> lib_ret unit * world;

  git_reference_list : git_repository -> world -> lib_ret (option (list string));
  git_reference_lookup : git_repository -> string -> world -> lib_ret (option git_reference);
  git_reference_dwim : git_repository -> string -> world -> lib_ret (option git_reference);
  git_reference_name : git_reference -> string;
  git_reference_shorthand : git_reference -> string;
  git_reference_type : git_reference -> Z;
  (* NULL unless the reference is direct *)
  git_reference_target : git_reference -> option git_oid;
  (* NULL unless the reference is symbolic *)
  git_reference_symbolic_target : git_reference -> option string;
  git_reference_is_branch : git_reference -> Z;
  git_reference_is_remote : git_reference -> Z;

  git_remote_list : git_repository -> world -> lib_ret (option (list string));
  git_remote_url : git_remote -> option string;

  git_tag_list : git_repository -> world -> lib_ret (option (list string));
  git_tag_lookup : git_repository -> git_oid -> world -> lib_ret (option git_tag);
  git_tag_message : git_tag -> option string;
  git_tag_name : git_tag -> option string;
  git_tag_tagger : git_tag -> option git_signature;
  git_tag_target_id : git_tag -> git_oid;

  git_note_remove :
    git_repository -> string -> git_signature -> git_signature -> git_oid ->
    world -> lib_ret unit * world
}.

(** The helpers of the remaining routines, defined in [git2r_arg.c],
    [git2r_error.c], [git2r_signature.c], [git2r_branch.c] and
    [git2r_commit.c]. *)
Class HelpersMore `{Helpers} `{!LibGit2More} : Type := {
  git2r_err_logical_arg : string;
  git2r_arg_check_logical : SEXP -> Z;
  git2r_error_check_note_arg : SEXP -> Z;
  (* fills the slots of an S4 [git_signature] *)
  init_signature : git_signature -> SEXP -> SEXP;
  (* fills the slots of an S4 [git_branch]: the error code, the object
     filled, and the error record a failing library call left *)
  git2r_branch_init : git_reference -> Z -> SEXP -> SEXP -> lib_ret SEXP;
  (* fills the slots of an S4 [git_commit] *)
  git2r_commit_init : git_commit -> SEXP -> SEXP -> SEXP
}.

(** ** The rest of [src/git2r_repository.c] *)

Section RepositoryMore.
Context `{HelpersMore}.

(** [git2r_repository_head] *)
Definition git2r_repository_head (repo : SEXP) : R SEXP :=
  repository <- git2r_repository_open repo ;;
  match repository with
  | None =>
      git2r_error git2r_err_invalid_repository "git2r_repository_head" None ;;
      undefined "git_repository_head(NULL)"
  | Some repository =>
      let* (err, reference) := query (git_repository_head repository) in
      let* (err, result) :=
        (if negb (err =? GIT_OK) then
           ret (if (err =? GIT_EUNBORNBRANCH) || (err =? GIT_ENOTFOUND) then GIT_OK
                else err,
                R_NilValue)
         else
           match reference with
           | None => undefined "git_reference_is_branch on a NULL reference"
           | Some reference =>
               if negb (git_reference_is_branch reference =? 0) then
                 let type :=
                   if negb (git_reference_is_remote reference =? 0)
                   then GIT_BRANCH_REMOTE else GIT_BRANCH_LOCAL in
                 query (fun _ => git2r_branch_init reference type repo
                                                   (NEW_OBJECT "git_branch"))
               else
                 match git_reference_target reference with
                 | None => undefined "git_commit_lookup on a NULL oid"
                 | Some oid =>
                     let* (err, commit) := query (git_commit_lookup repository oid) in
                     if negb (err =? GIT_OK) then ret (err, R_NilValue)
                     else
                       match commit with
                       | None => undefined "git2r_commit_init on a NULL commit"
                       | Some commit =>
                           ret (err, git2r_commit_init commit repo
                                                       (NEW_OBJECT "git_commit"))
                       end
                 end
           end) in
      (* cleanup: *)
      free reference ;;
      free repository ;;
      when (negb (err =? GIT_OK))
           (m <- giterr_last_message ;;
            git2r_error git2r_err_from_libgit2 "git2r_repository_head" (Some m)) ;;
      ret result
  end.

(** [git2r_repository_init] *)
Definition git2r_repository_init (path bare : SEXP) : R SEXP :=
  when (negb (git2r_arg_check_string path =? 0))
       (git2r_error git2r_err_string_arg "git2r_repository_init" (Some "path")) ;;
  when (negb (git2r_arg_check_logical bare =? 0))
       (git2r_error git2r_err_logical_arg "git2r_repository_init" (Some "bare")) ;;
  p <- STRING_ELT path 0 ;;
  b <- LOGICAL bare 0 ;;
  let* (err, repository) := update (git_repository_init p b) in
  when (negb (err =? GIT_OK))
       (git2r_error "Error in '%s': Unable to init repository"
                    "git2r_repository_init" None) ;;
  (match repository with Some r => free r | None => ret tt end) ;;
  ret R_NilValue.

(** [git2r_repository_is_bare] *)
Definition git2r_repository_is_bare (repo : SEXP) : R SEXP :=
  repository <- git2r_repository_open repo ;;
  match repository with
  | None =>
      git2r_error git2r_err_invalid_repository "git2r_repository_is_bare" None ;;
      undefined "git_repository_is_bare(NULL)"
  | Some repository =>
      is_bare <- read (git_repository_is_bare repository) ;;
      free repository ;;
      if 1 =? is_bare then ret (LGLSXP [1]) else ret (LGLSXP [0])
  end.

(** [git2r_repository_is_shallow] *)
Definition git2r_repository_is_shallow (repo : SEXP) : R SEXP :=
  repository <- git2r_repository_open repo ;;
  match repository with
  | None =>
      git2r_error git2r_err_invalid_repository "git2r_repository_is_shallow" None ;;
      undefined "git_repository_is_shallow(NULL)"
  | Some repository =>
      let* (is_shallow, _) := query (git_repository_is_shallow repository) in
      free repository ;;
      when (is_shallow <? 0)
           (m <- giterr_last_message ;;
            git2r_error git2r_err_from_libgit2 "git2r_repository_is_shallow" (Some m)) ;;
      if 1 =? is_shallow then ret (LGLSXP [1]) else ret (LGLSXP [0])
  end.

(** [git2r_repository_head_detached] *)
Definition git2r_repository_head_detached (repo : SEXP) : R SEXP :=
  repository <- git2r_repository_open repo ;;
  match repository with
  | None =>
      git2r_error git2r_err_invalid_repository "git2r_repository_head_detached" None ;;
      undefined "git_repository_head_detached(NULL)"
  | Some repository =>
      let* (head_detached, _) := query (git_repository_head_detached repository) in
      free repository ;;
      when (head_detached <? 0)
           (m <- giterr_last_message ;;
            git2r_error git2r_err_from_libgit2 "git2r_repository_head_detached"
                        (Some m)) ;;
      if 1 =? head_detached then ret (LGLSXP [1]) else ret (LGLSXP [0])
  end.

(** [git2r_repository_is_empty] *)
Definition git2r_repository_is_empty (repo : SEXP) : R SEXP :=
  repository <- git2r_repository_open repo ;;
  match repository with
  | None =>
      git2r_error git2r_err_invalid_repository "git2r_repository_is_empty" None ;;
      undefined "git_repository_is_empty(NULL)"
  | Some repository =>
      let* (is_empty, _) := query (git_repository_is_empty repository) in
      free repository ;;
      when (is_empty <? 0)
           (m <- giterr_last_message ;;
            git2r_error git2r_err_from_libgit2 "git2r_repository_is_empty" (Some m)) ;;
      if 1 =? is_empty then ret (LGLSXP [1]) else ret (LGLSXP [0])
  end.

End RepositoryMore.

(** ** The rest of [src/git2r_note.c] *)

Section NoteMore.
Context `{HelpersMore}.

(** [git2r_note_default_ref] *)
Definition git2r_note_default_ref (repo : SEXP) : R SEXP :=
  repository <- git2r_repository_open repo ;;
  match repository with
  | None => error git2r_err_invalid_repository []
  | Some repository =>
      let* (err, ref) := query (git_note_default_ref repository) in
      result <- (if err <? 0 then ret R_NilValue
                 else
                   c <- mkChar ref ;;
                   ret (STRSXP [c])) ;;
      (* cleanup: *)
      free repository ;;
      if err <? 0 then
        m <- giterr_last_message ;;
        error "Error: %s\n" [arg_s m]
      else ret result
  end.

(** [git2r_note_remove] *)
Definition git2r_note_remove (note author committer : SEXP) : R SEXP :=
  if negb (git2r_error_check_note_arg note =? 0)
     || negb (git2r_error_check_signature_arg author =? 0)
     || negb (git2r_error_check_signature_arg committer =? 0)
  then error "Invalid arguments to git2r_note_remove" []
  else
    repo <- GET_SLOT note "repo" ;;
    repository <- git2r_repository_open repo ;;
    match repository with
    | None => error git2r_err_invalid_repository []
    | Some repository =>
        err <-
          (let* (err, sig_author) := query (fun _ => git2r_signature_from_arg author) in
           if err <? 0 then ret err
           else
             let* (err, sig_committer) :=
               query (fun _ => git2r_signature_from_arg committer) in
             if err <? 0 then ret err
             else
               annotated <- GET_SLOT note "annotated" ;;
               a <- STRING_ELT annotated 0 ;;
               let* (err, note_oid) := query (fun _ => git_oid_fromstr a) in
               if err <? 0 then ret err
               else
                 refname <- GET_SLOT note "refname" ;;
                 r <- STRING_ELT refname 0 ;;
                 match sig_author, sig_committer, note_oid with
                 | Some sig_author, Some sig_committer, Some note_oid =>
                     let* (err, _) :=
                       update (git_note_remove repository r sig_author sig_committer
                                               note_oid) in
                     ret err
                 | _, _, _ => undefined "NULL signature or unset oid passed to git_note_remove"
                 end) ;;
        (* cleanup: *)
        free repository ;;
        if err <? 0 then
          m <- giterr_last_message ;;
          error "Error: %s\n" [arg_s m]
        else ret R_NilValue
    end.

End NoteMore.

(** ** The rest of [src/git2r.c] *)

Section Git2rMore.
Context `{HelpersMore}.

(** [SET_STRING_ELT(x, i, mkChar(s))] on the strings of a character
    vector. *)
Definition SET_STRING_ELT (v : list string) (i : nat) (s : string) : R (list string) :=
  if decide (i < length v)%nat then ret (<[i := s]> v)
  else undefined "SET_STRING_ELT: index out of range".

(** [error("Error %d/%d: %s\n", err, e->klass, e->message)] with
    [e = giterr_last()]. *)
Definition error_code_klass_message {A} (err : Z) : R A :=
  e <- giterr_last ;;
  match e with
  | Some e => error "Error %d/%d: %s\n" [arg_d err; arg_d (klass e); arg_s (message e)]
  | None => undefined "giterr_last() is NULL"
  end.

(** [add] *)
Definition add (repo path : SEXP) : R SEXP :=
  if is_nil path then error "'path' equals R_NilValue" []
  else if negb (isString path) then error "'path' must be a string" []
  else
    repository <- get_repository repo ;;
    match repository with
    | None => error git2r_err_invalid_repository []
    | Some repository =>
        let* (err, index) := query (git_repository_index repository) in
        err <- (if err <? 0 then ret err
                else
                  p <- STRING_ELT path 0 ;;
                  match index with
                  | None => undefined "git_index_add_bypath on a NULL index"
                  | Some index =>
                      let* (err, _) := update (git_index_add_bypath index p) in
                      if err <? 0 then ret err
                      else
                        let* (err, _) := update (git_index_write index) in
                        ret err
                  end) ;;
        (* cleanup: *)
        (match index with Some i => free i | None => ret tt end) ;;
        free repository ;;
        if err <? 0 then error_code_klass_message err
        else ret R_NilValue
    end.

(** [init] *)
Definition init (path bare : SEXP) : R SEXP :=
  if is_nil path then error "'path' equals R_NilValue" []
  else if negb (isString path) then error "'path' must be a string" []
  else if is_nil bare then error "'bare' equals R_NilValue" []
  else if negb (isLogical bare) then error "'bare' must be a logical" []
  else
    p <- STRING_ELT path 0 ;;
    b <- LOGICAL bare 0 ;;
    let* (err, repository) := update (git_repository_init p b) in
    if err <? 0 then error "Unable to init repository" []
    else
      free repository ;;
      ret R_NilValue.

(** [init_reference]: fills the slots of an S4 [git_reference]. *)
Definition init_reference (ref : git_reference) (reference : SEXP) : R SEXP :=
  let reference := SET_SLOT reference "name" (ScalarString (git_reference_name ref)) in
  let reference :=
    SET_SLOT reference "shorthand" (ScalarString (git_reference_shorthand ref)) in
  if git_reference_type ref =? GIT_REF_OID then
    let reference := SET_SLOT reference "type" (ScalarInteger GIT_REF_OID) in
    match git_reference_target ref with
    | Some oid => ret (SET_SLOT reference "hex" (ScalarString (git_oid_fmt oid)))
    | None => undefined "git_oid_fmt on a NULL oid"
    end
  else if git_reference_type ref =? GIT_REF_SYMBOLIC then
    let reference := SET_SLOT reference "type" (ScalarInteger GIT_REF_SYMBOLIC) in
    target <- mkChar (git_reference_symbolic_target ref) ;;
    ret (SET_SLOT reference "target" (ScalarString target))
  else error "Unexpected reference type" [].

(** [init_tag]: fills the slots of an S4 [git_tag].  [git_oid_tostr] into a
    buffer of [GIT_OID_HEXSZ + 1] bytes prints what [git_oid_fmt] prints. *)
Definition init_tag (source : git_tag) (dest : SEXP) : R SEXP :=
  m <- mkChar (git_tag_message source) ;;
  let dest := SET_SLOT dest "message" (ScalarString m) in
  n <- mkChar (git_tag_name source) ;;
  let dest := SET_SLOT dest "name" (ScalarString n) in
  let dest :=
    match git_tag_tagger source with
    | Some tagger =>
        SET_SLOT dest "tagger" (init_signature tagger (NEW_OBJECT "git_signature"))
    | None => dest
    end in
  ret (SET_SLOT dest "target" (ScalarString (git_oid_fmt (git_tag_target_id source)))).

(** [is_bare] *)
Definition is_bare (repo : SEXP) : R SEXP :=
  repository <- get_repository repo ;;
  match repository with
  | None => error git2r_err_invalid_repository []
  | Some repository =>
      b <- read (git_repository_is_bare repository) ;;
      let result := if negb (b =? 0) then ScalarLogical 1 else ScalarLogical 0 in
      free repository ;;
      ret result
  end.

(** [is_empty] *)
Definition is_empty (repo : SEXP) : R SEXP :=
  repository <- get_repository repo ;;
  match repository with
  | None => error git2r_err_invalid_repository []
  | Some repository =>
      let* (e, _) := query (git_repository_is_empty repository) in
      let result := if negb (e =? 0) then ScalarLogical 1 else ScalarLogical 0 in
      free repository ;;
      ret result
  end.

(** The loop of [references]: one turn per listed name; [i] is the index of
    the first of [strings]. *)
Fixpoint references_loop (repository : git_repository) (strings : list string)
    (i : nat) (err : Z) (names : list string) (vec : SEXP)
  : R (Z * SEXP * option (list string)) :=
  match strings with
  | [] => ret (err, vec, Some names)
  | name :: strings =>
      let* (err, ref) := query (git_reference_lookup repository name) in
      if err <? 0 then ret (err, vec, Some names)
      else
        match ref with
        | None => undefined "init_reference on a NULL reference"
        | Some ref =>
            reference <- init_reference ref (NEW_OBJECT "git_reference") ;;
            names <- SET_STRING_ELT names i name ;;
            vec <- SET_VECTOR_ELT vec i reference ;;
            references_loop repository strings (S i) err names vec
        end
  end.

(** [references].  The array [ref_list] has no initialiser: it holds what
    [git_reference_list] wrote, and nothing when the call wrote nothing. *)
Definition references (repo : SEXP) : R SEXP :=
  repository <- get_repository repo ;;
  match repository with
  | None => error git2r_err_invalid_repository []
  | Some repository =>
      let* (err, ref_list) := query (git_reference_list repository) in
      let* (result, names) :=
        (if err <? 0 then ret (err, R_NilValue, None)
         else
           match ref_list with
           | None => undefined "ref_list.count read from an array never written"
           | Some strings =>
               references_loop repository strings 0 err
                               (replicate (length strings) "")
                               (allocVector_VECSXP (length strings))
           end) in
      let (err, list) := result in
      (* cleanup: *)
      match ref_list with
      | None => undefined "git_strarray_free on an array never written"
      | Some strings => free strings
      end ;;
      free repository ;;
      let list :=
        match names with
        | Some names => if is_nil list then list else setAttrib_names list names
        | None => list
        end in
      if err <? 0 then error_code_klass_message err
      else ret list
  end.

(** The loop of [remotes]: copies the names. *)
Fixpoint remotes_loop (strings : list string) (i : nat) (names : list string)
  : R (list string) :=
  match strings with
  | [] => ret names
  | name :: strings =>
      names <- SET_STRING_ELT names i name ;;
      remotes_loop strings (S i) names
  end.

(** [remotes].  The array [rem_list] has no initialiser either; nor has
    [list], which is read on the successful path only. *)
Definition remotes (repo : SEXP) : R SEXP :=
  repository <- get_repository repo ;;
  match repository with
  | None => error git2r_err_invalid_repository []
  | Some repository =>
      let* (err, rem_list) := query (git_remote_list repository) in
      list <- (if err <? 0 then ret R_NilValue
               else
                 match rem_list with
                 | None => undefined "rem_list.count read from an array never written"
                 | Some strings =>
                     names <- remotes_loop strings 0 (replicate (length strings) "") ;;
                     ret (STRSXP names)
                 end) ;;
      (* cleanup: *)
      match rem_list with
      | None => undefined "git_strarray_free on an array never written"
      | Some strings => free strings
      end ;;
      free repository ;;
      if err <? 0 then error_code_klass_message err
      else ret list
  end.

(** The loop of [remote_url]: one turn per remote name, from index [i]. *)
Fixpoint remote_url_loop (repository : git_repository) (remote : SEXP)
    (i steps : nat) (err : Z) (url : list string) : R (Z * list string) :=
  match steps with
  | O => ret (err, url)
  | S steps =>
      name <- STRING_ELT remote i ;;
      let* (err, r) := query (git_remote_load repository name) in
      if err <? 0 then ret (err, url)
      else
        match r with
        | None => undefined "git_remote_url on a NULL remote"
        | Some r =>
            u <- mkChar (git_remote_url r) ;;
            url <- SET_STRING_ELT url i u ;;
            free r ;;
            remote_url_loop repository remote (S i) steps err url
        end
  end.

(** [remote_url].  The local [err] has no initialiser and is assigned only
    inside the loop; [err_uninit] is the value it holds before. *)
Definition remote_url (err_uninit : Z) (repo remote : SEXP) : R SEXP :=
  let err := err_uninit in
  let len := Z.to_nat (Rf_length remote) in
  repository <- get_repository repo ;;
  match repository with
  | None => error git2r_err_invalid_repository []
  | Some repository =>
      let url := replicate len "" in
      let* (err, url) := remote_url_loop repository remote 0 len err url in
      (* cleanup: *)
      free repository ;;
      if err <? 0 then error_code_klass_message err
      else ret (STRSXP url)
  end.

(** The loop of [tags]: one turn per tag name, from index [i]. *)
Fixpoint tags_loop (repository : git_repository) (strings : list string)
    (i : nat) (err : Z) (list : SEXP) : R (Z * SEXP) :=
  match strings with
  | [] => ret (err, list)
  | name :: strings =>
      let* (err, reference) := query (git_reference_dwim repository name) in
      if err <? 0 then ret (err, list)
      else
        match reference with
        | None => undefined "git_reference_target on a NULL reference"
        | Some reference =>
            match git_reference_target reference with
            | None => undefined "git_tag_lookup on a NULL oid"
            | Some oid =>
                let* (err, tag) := query (git_tag_lookup repository oid) in
                if err <? 0 then ret (err, list)
                else
                  match tag with
                  | None => undefined "init_tag on a NULL tag"
                  | Some tag =>
                      sexp_tag <- init_tag tag (NEW_OBJECT "git_tag") ;;
                      list <- SET_VECTOR_ELT list i sexp_tag ;;
                      free tag ;;
                      free reference ;;
                      tags_loop repository strings (S i) err list
                  end
            end
        end
  end.

(** [tags].  The array [tag_names] is initialised to [{0}]: it is empty
    when [git_tag_list] wrote nothing. *)
Definition tags (repo : SEXP) : R SEXP :=
  repository <- get_repository repo ;;
  match repository with
  | None => error git2r_err_invalid_repository []
  | Some repository =>
      let* (err, written) := query (git_tag_list repository) in
      let tag_names := default [] written in
      let* (err, list) :=
        (if err <? 0 then ret (err, R_NilValue)
         else tags_loop repository tag_names 0 err
                        (allocVector_VECSXP (length tag_names))) in
      (* cleanup: *)
      free tag_names ;;
      free repository ;;
      if err <? 0 then
        e <- giterr_last ;;
        match e with
        | Some e => error "Error %d: %s\n" [arg_d (klass e); arg_s (message e)]
        | None => undefined "giterr_last() is NULL"
        end
      else ret list
  end.

End Git2rMore.

(** What a run of [config_loop] over a list of settings leaves of the
    repositories: each setting is written in turn, up to and including the
    first whose write fails. *)
Fixpoint set_strings `{LibGit2} (cfg : git_config) (settings : list (string * string))
    (w : world) : world :=
  match settings with
  | [] => w
  | (key, value) :: settings =>
      let (r, w') := git_config_set_string cfg key value w in
      if rc r <? 0 then w' else set_strings cfg settings w'
  end.

(** * The further library calls over the model

    [Extension] answers the calls of [LibGit2More] from the same world as
    [Model], so that the remaining routines can be run as well.  What the
    world does not hold is fixed: no repository is a shallow clone, HEAD is
    never detached, a born HEAD is on [refs/heads/master], and the working
    tree is left out (the blob staged for a path holds the path). *)

Module Extension.
Import Model Example.

(** Modelled from the spec: the Reference of section 3, direct or symbolic,
    missing with libgit2's [git_reference]. *)
Inductive Reference : Type :=
| Direct (name : string) (target : ObjectId)
| Symbolic (name target : string).

Definition reference_name (r : Reference) : string :=
  match r with Direct n _ | Symbolic n _ => n end.

Definition has_prefix (p s : string) : bool := String.prefix p s.

Definition drop_prefix (p s : string) : string :=
  if has_prefix p s then String.substring (String.length p) (String.length s - String.length p) s
  else s.

Definition reference_shorthand (r : Reference) : string :=
  let n := reference_name r in
  if has_prefix "refs/heads/" n then drop_prefix "refs/heads/" n
  else if has_prefix "refs/tags/" n then drop_prefix "refs/tags/" n
  else if has_prefix "refs/remotes/" n then drop_prefix "refs/remotes/" n
  else n.

(** The tag objects of a store, with their ids. *)
Definition is_tag (o : Object) : bool :=
  match o with Tag _ _ _ => true | _ => false end.

Definition tag_objects (store : gmap ObjectId Object) : list (ObjectId * Object) :=
  List.filter (fun e : ObjectId * Object => is_tag e.2) (map_to_list store).

Definition tag_name (o : Object) : string :=
  match o with Tag _ n _ => n | _ => "" end.

(** The references of a repository: the branch of HEAD, then one reference
    per tag object. *)
Definition repository_references (r : Repository) : list Reference :=
  app (match repo_head r with
       | Some c => [Direct "refs/heads/master" c]
       | None => []
       end)
      (map (fun e : ObjectId * Object => Direct ("refs/tags/" ++ tag_name e.2) e.1)
           (tag_objects (repo_objects r))).

Fixpoint find_reference (name : string) (refs : list Reference) : option Reference :=
  match refs with
  | [] => None
  | r :: rest => if String.eqb (reference_name r) name then Some r else find_reference name rest
  end.

Definition reference_list (h : Path) (w : World) : lib_ret (option (list string)) :=
  match repositories w !! h with
  | None => fail NotFound (render_path h) None
  | Some r => ok (Some (map reference_name (repository_references r)))
  end.

Definition reference_lookup (h : Path) (name : string) (w : World)
  : lib_ret (option Reference) :=
  match repositories w !! h with
  | None => fail NotFound (render_path h) None
  | Some r =>
      match find_reference name (repository_references r) with
      | Some ref => ok (Some ref)
      | None => fail NotFound name None
      end
  end.

(** A short name is tried as it is, then as a tag, then as a branch. *)
Definition reference_dwim (h : Path) (name : string) (w : World)
  : lib_ret (option Reference) :=
  match repositories w !! h with
  | None => fail NotFound (render_path h) None
  | Some r =>
      let refs := repository_references r in
      match find_reference name refs, find_reference ("refs/tags/" ++ name) refs,
            find_reference ("refs/heads/" ++ name) refs with
      | Some ref, _, _ | None, Some ref, _ | None, None, Some ref => ok (Some ref)
      | None, None, None => fail NotFound name None
      end
  end.

(** Modelled from the spec: [head()] of section 4.5, Unborn or OnBranch. *)
Definition repository_head (h : Path) (w : World) : lib_ret (option Reference) :=
  match repositories w !! h with
  | None => fail NotFound (render_path h) None
  | Some r =>
      match repo_head r with
      | Some c => ok (Some (Direct "refs/heads/master" c))
      | None =>
          Lib GIT_EUNBORNBRANCH None
              (Some {| klass := 4; message := "reference 'refs/heads/master' not found" |})
      end
  end.

(** Modelled from the spec: [init(path, bare)] of section 4.5: a new, empty
    store; a repository already there is left as it is. *)
Definition repository_init (path : string) (bare : Z) (w : World)
  : lib_ret (option Path) * World :=
  let d := parse_path path in
  match d, repositories w !! d with
  | [], _ => (fail IOFailure path None, w)
  | _, Some _ => (ok (Some d), w)
  | _, None =>
      let r := {| repo_bare := negb (bare =? 0);
                  repo_writable := true;
                  repo_objects := ∅;
                  repo_head := None;
                  repo_notes := ∅;
                  repo_config := ∅;
                  repo_remotes := ∅ |} in
      (ok (Some d),
       {| repositories := <[d := r]> (repositories w);
          mounts := mounts w; network := network w; digest := digest w |})
  end.

(** The index of a repository is addressed by the repository's directory. *)
Definition repository_index (h : Path) (w : World) : lib_ret (option Path) :=
  match repositories w !! h with
  | None => fail NotFound (render_path h) None
  | Some _ => ok (Some h)
  end.

(** Staging a path writes its blob to the object store; a bare repository
    has no working tree to stage from. *)
Definition index_add_bypath (h : Path) (path : string) (w : World) : lib_ret unit * World :=
  match repositories w !! h with
  | None => (fail NotFound (render_path h) tt, w)
  | Some r =>
      if repo_bare r then (fail InvalidArgument path tt, w)
      else if negb (repo_writable r) then (fail IOFailure path tt, w)
      else
        let r' := {| repo_bare := repo_bare r;
                     repo_writable := repo_writable r;
                     repo_objects := <[digest w path := Blob path]> (repo_objects r);
                     repo_head := repo_head r;
                     repo_notes := repo_notes r;
                     repo_config := repo_config r;
                     repo_remotes := repo_remotes r |} in
        (ok tt,
         {| repositories := <[h := r']> (repositories w);
            mounts := mounts w; network := network w; digest := digest w |})
  end.

Definition index_write (h : Path) (w : World) : lib_ret unit * World :=
  match repositories w !! h with
  | None => (fail NotFound (render_path h) tt, w)
  | Some r => if repo_writable r then (ok tt, w) else (fail IOFailure (render_path h) tt, w)
  end.

Definition remote_list (h : Path) (w : World) : lib_ret (option (list string)) :=
  match repositories w !! h with
  | None => fail NotFound (render_path h) None
  | Some r => ok (Some (map fst (map_to_list (repo_remotes r))))
  end.

Definition tag_list (h : Path) (w : World) : lib_ret (option (list string)) :=
  match repositories w !! h with
  | None => fail NotFound (render_path h) None
  | Some r =>
      ok (Some (map (fun e : ObjectId * Object => tag_name e.2)
                    (tag_objects (repo_objects r))))
  end.

Definition tag_lookup (h : Path) (id : ObjectId) (w : World)
  : lib_ret (option (ObjectId * Object)) :=
  match repositories w !! h with
  | None => fail NotFound (render_path h) None
  | Some r =>
      match repo_objects r !! id with
      | Some (Tag t n m) => ok (Some (id, Tag t n m))
      | _ => fail NotFound id None
      end
  end.

(** Modelled from the spec: [remove(target, notes_ref, author, committer)]
    of section 4.4, failing with NoteNotFound if absent; missing with
    libgit2's [git_note_remove].  The reference advances to the tree without
    the note. *)
Definition note_remove
    (h : Path) (notes_ref : string) (author committer : Signature) (target : ObjectId)
    (w : World) : lib_ret unit * World :=
  match repositories w !! h with
  | None => (fail NotFound (render_path h) tt, w)
  | Some r =>
      match notes_tree r notes_ref with
      | None => (fail NotFound notes_ref tt, w)
      | Some tree =>
          match tree !! target with
          | None => (fail NotFound target tt, w)
          | Some _ =>
              if negb (repo_writable r) then (fail IOFailure notes_ref tt, w)
              else
                let r' := {| repo_bare := repo_bare r;
                             repo_writable := repo_writable r;
                             repo_objects := repo_objects r;
                             repo_head := repo_head r;
                             repo_notes := <[notes_ref := delete target tree
                                                          :: notes_history r notes_ref]>
                                             (repo_notes r);
                             repo_config := repo_config r;
                             repo_remotes := repo_remotes r |} in
                (ok tt,
                 {| repositories := <[h := r']> (repositories w);
                    mounts := mounts w; network := network w; digest := digest w |})
          end
      end
  end.

#[export] Instance more : LibGit2More := {|
  git_index := Path;
  git_reference := Reference;
  git_tag := ObjectId * Object;
  git_repository_init := repository_init;
  git_repository_is_shallow := fun _ _ => Lib 0 tt None;
  git_repository_head_detached := fun _ _ => Lib 0 tt None;
  git_repository_head := repository_head;
  git_repository_index := repository_index;
  git_index_add_bypath := index_add_bypath;
  git_index_write := index_write;
  git_reference_list := reference_list;
  git_reference_lookup := reference_lookup;
  git_reference_dwim := reference_dwim;
  git_reference_name := reference_name;
  git_reference_shorthand := reference_shorthand;
  git_reference_type := fun r =>
    match r with Direct _ _ => GIT_REF_OID | Symbolic _ _ => GIT_REF_SYMBOLIC end;
  git_reference_target := fun r =>
    match r with Direct _ t => Some t | Symbolic _ _ => None end;
  git_reference_symbolic_target := fun r =>
    match r with Direct _ _ => None | Symbolic _ t => Some t end;
  git_reference_is_branch := fun r =>
    if has_prefix "refs/heads/" (reference_name r) then 1 else 0;
  git_reference_is_remote := fun r =>
    if has_prefix "refs/remotes/" (reference_name r) then 1 else 0;
  git_remote_list := remote_list;
  git_remote_url := fun r : Path * string => Some r.2;
  git_tag_list := tag_list;
  git_tag_lookup := tag_lookup;
  git_tag_message := fun t : ObjectId * Object =>
    match t.2 with Tag _ _ m => Some m | _ => None end;
  git_tag_name := fun t : ObjectId * Object =>
    match t.2 with Tag _ n _ => Some n | _ => None end;
  git_tag_tagger := fun _ => None;
  git_tag_target_id := fun t : ObjectId * Object =>
    match t.2 with Tag target _ _ => target | _ => t.1 end;
  git_note_remove := note_remove
|}.

Definition check_note (x : SEXP) : Z :=
  match x with
  | S4SXP ["git_note"] _ => 0
  | _ => -1
  end.

Definition signature_to_sexp (sig : Signature) (dest : SEXP) : SEXP :=
  let dest := SET_SLOT dest "name" (ScalarString (sig_name sig)) in
  SET_SLOT dest "email" (ScalarString (sig_email sig)).

Definition branch_to_sexp (ref : Reference) (type : Z) (repo dest : SEXP) : lib_ret SEXP :=
  let dest := SET_SLOT dest "name" (ScalarString (reference_shorthand ref)) in
  let dest := SET_SLOT dest "type" (ScalarInteger type) in
  ok (SET_SLOT dest "repo" repo).

#[export] Instance helpers_more : HelpersMore := {|
  git2r_err_logical_arg := "Error in '%s': '%s' must be a logical vector of length one";
  git2r_arg_check_logical := check_logical;
  git2r_error_check_note_arg := check_note;
  init_signature := signature_to_sexp;
  git2r_branch_init := branch_to_sexp;
  git2r_commit_init := fun c repo dest => SET_SLOT (commit_to_sexp c dest) "repo" repo
|}.

Definition release : ObjectId := oid_of "5".

(** The project with an annotated tag on its head. *)
Definition tagged : Repository := {|
  repo_bare := false;
  repo_writable := true;
  repo_objects := <[release := Tag c4 "v1.0" "first release"]> history;
  repo_head := Some c4;
  repo_notes := {[ "refs/notes/commits" :=
                     [ {[ c1 := {| note_blob := oid_of "a"; note_message := "m1" |} ]} ] ]};
  repo_config := ∅;
  repo_remotes := {[ "origin" := "https://example.org/project.git" ]}
|}.

(** The project with a configured notes reference, and a note on that
    reference as well as on [refs/notes/commits]. *)
Definition reviewed : Repository := {|
  repo_bare := false;
  repo_writable := true;
  repo_objects := history;
  repo_head := Some c4;
  repo_notes :=
    <[ "refs/notes/review" :=
         [ {[ c2 := {| note_blob := oid_of "c"; note_message := "looks good" |} ]} ] ]>
    {[ "refs/notes/commits" :=
         [ {[ c1 := {| note_blob := oid_of "a"; note_message := "m1" |} ]} ] ]};
  repo_config := {[ "core.notesRef" := "refs/notes/review" ]};
  repo_remotes := ∅
|}.

Definition depot : World := {|
  repositories := <[ ["home"; "u"; "reviewed"] := reviewed ]>
                  (<[ ["home"; "u"; "tagged"] := tagged ]> (repositories disk));
  mounts := mounts disk;
  network := network disk;
  digest := digest disk
|}.

Definition opening : rstate := {| repos := depot; giterr := None |}.

Definition tagged_at : SEXP := repo_at "/home/u/tagged".
Definition tagged_dir : Path := ["home"; "u"; "tagged"].
Definition fresh_at : SEXP := repo_at "/home/u/fresh".
Definition fresh_dir : Path := ["home"; "u"; "fresh"].
Definition mirror_at : SEXP := repo_at "/srv/mirror.git".
Definition mirror_dir : Path := ["srv"; "mirror.git"].
Definition reviewed_at : SEXP := repo_at "/home/u/reviewed".
Definition reviewed_dir : Path := ["home"; "u"; "reviewed"].

(** The commit a walk of the example history finds under an id. *)
Definition commit_in_history (o : ObjectId) : ObjectId * Object :=
  (o, default (Blob "") (history !! o)).

End Extension.

(** * A library whose calls fail

    [Failing] opens every repository and fails every other call, leaving
    its out-parameters unwritten: the library on which the error paths of
    the routines are run. *)

Module Failing.

Definition refused : git_error := {| klass := 1; message := "refused" |}.

Definition failed {T} (unwritten : T) : lib_ret T := Lib (-1) unwritten (Some refused).

#[export] Instance failing_lib : LibGit2 := {|
  world := unit;
  git_repository := string;
  git_oid := unit;
  git_signature := unit;
  git_note := unit;
  git_config := unit;
  git_remote := unit;
  git_commit := unit;
  git_revwalk := unit;
  git_repository_open := fun path _ => Lib 0 (Some path) None;
  git_repository_is_bare := fun _ _ => -1;
  git_repository_is_empty := fun _ _ => failed tt;
  git_repository_workdir := fun _ _ => None;
  git_repository_discover := fun _ _ _ _ => failed "";
  git_oid_fromstr := fun _ => failed None;
  git_oid_fmt := fun _ => "";
  git_graph_descendant_of := fun _ _ _ _ => failed tt;
  git_note_create := fun _ _ _ _ _ _ _ w => (failed None, w);
  git_note_read := fun _ _ _ _ => failed None;
  git_note_message := fun _ => "";
  git_note_default_ref := fun _ _ => failed None;
  git_note_entries := fun _ _ _ => failed [];
  git_note_foreach_abort := fun r => r;
  git_repository_config := fun _ _ => failed None;
  git_config_set_string := fun _ _ _ w => (failed tt, w);
  git_remote_load := fun _ _ _ => failed None;
  git_remote_fetch := fun _ w => (failed tt, w);
  git_revwalk_new := fun _ _ => failed None;
  git_revwalk_push_head := fun walker _ => failed walker;
  git_revwalk_reset := fun walker => walker;
  git_revwalk_walk := fun walker _ => Walk [] 1 (Some refused) walker;
  git_commit_lookup := fun _ _ _ => failed None
|}.

Definition raise_error (format func : string) (arg : option string) : R unit :=
  error format (arg_s func :: match arg with Some a => [arg_s a] | None => [] end).

#[export] Instance failing_helpers : Helpers := {|
  git2r_err_invalid_repository := "Invalid repository";
  git2r_err_string_arg := "Error in '%s': '%s' must be a character vector of length one";
  git2r_err_from_libgit2 := "Error in '%s': %s";
  git2r_err_invalid_checkout_args := "Invalid arguments to checkout";
  git2r_error := raise_error;
  git2r_arg_check_string := Example.check_string;
  git2r_arg_check_hex := Example.check_hex;
  git2r_error_check_string_arg := Example.check_string;
  git2r_error_check_signature_arg := Example.check_signature;
  git2r_error_check_logical_arg := Example.check_logical;
  git2r_signature_from_arg := fun _ => failed None;
  git2r_oid_from_hex_sexp := fun _ => tt;
  init_commit := fun _ dest => dest
|}.

#[export] Instance failing_more : LibGit2More := {|
  git_index := unit;
  git_reference := unit;
  git_tag := unit;
  git_repository_init := fun _ _ w => (failed None, w);
  git_repository_is_shallow := fun _ _ => failed tt;
  git_repository_head_detached := fun _ _ => failed tt;
  git_repository_head := fun _ _ => failed None;
  git_repository_index := fun _ _ => failed None;
  git_index_add_bypath := fun _ _ w => (failed tt, w);
  git_index_write := fun _ w => (failed tt, w);
  git_reference_list := fun _ _ => failed None;
  git_reference_lookup := fun _ _ _ => failed None;
  git_reference_dwim := fun _ _ _ => failed None;
  git_reference_name := fun _ => "";
  git_reference_shorthand := fun _ => "";
  git_reference_type := fun _ => 0;
  git_reference_target := fun _ => None;
  git_reference_symbolic_target := fun _ => None;
  git_reference_is_branch := fun _ => 0;
  git_reference_is_remote := fun _ => 0;
  git_remote_list := fun _ _ => failed None;
  git_remote_url := fun _ => None;
  git_tag_list := fun _ _ => failed None;
  git_tag_lookup := fun _ _ _ => failed None;
  git_tag_message := fun _ => None;
  git_tag_name := fun _ => None;
  git_tag_tagger := fun _ => None;
  git_tag_target_id := fun _ => tt;
  git_note_remove := fun _ _ _ _ _ w => (failed tt, w)
|}.

#[export] Instance failing_helpers_more : HelpersMore := {|
  git2r_err_logical_arg := "Error in '%s': '%s' must be a logical vector of length one";
  git2r_arg_check_logical := Example.check_logical;
  git2r_error_check_note_arg := Extension.check_note;
  init_signature := fun _ dest => dest;
  git2r_branch_init := fun _ _ _ dest => failed dest;
  git2r_commit_init := fun _ _ dest => dest
|}.

Definition blank : rstate := {| repos := tt; giterr := None |}.

Definition anywhere : SEXP := Example.repo_at "/anywhere".

End Failing.

(** * Facts about the monad and the accessors *)

Section Frame.
Context `{LibGit2}.

Lemma bind_value {A B} (m : R A) (k : A -> R B) (s s' : rstate) (a : A) :
  m s = (Value a, s') -> bind m k s = k a s'.
Proof. intros E. unfold bind. now rewrite E. Qed.

Lemma reads_only_ret {A} (a : A) : reads_only (ret a).
Proof. intros s. reflexivity. Qed.

Lemma reads_only_error {A} f args : reads_only (@error _ A f args).
Proof. intros s. reflexivity. Qed.

Lemma reads_only_undefined {A} w : reads_only (@undefined _ A w).
Proof. intros s. reflexivity. Qed.

Lemma reads_only_query {T} (f : world -> lib_ret T) : reads_only (query f).
Proof. intros s. reflexivity. Qed.

Lemma reads_only_read {T} (f : world -> T) : reads_only (read f).
Proof. intros s. reflexivity. Qed.

Lemma reads_only_giterr_last : reads_only giterr_last.
Proof. intros s. reflexivity. Qed.

Lemma reads_only_free {T} (x : T) : reads_only (free x).
Proof. intros s. reflexivity. Qed.

Lemma reads_only_bind {A B} (m : R A) (k : A -> R B) :
  reads_only m -> (forall a, reads_only (k a)) -> reads_only (bind m k).
Proof.
  intros Hm Hk s. unfold bind. specialize (Hm s).
  destruct (m s) as [[a | f args | w] s1]; simpl in *; try assumption.
  rewrite (Hk a s1). assumption.
Qed.

Lemma reads_only_STRING_ELT x i : reads_only (STRING_ELT x i).
Proof.
  unfold STRING_ELT, accessor_error. destruct x; try apply reads_only_error.
  destruct (nth_error v i); [apply reads_only_ret | apply reads_only_undefined].
Qed.

Lemma reads_only_GET_SLOT x name : reads_only (GET_SLOT x name).
Proof.
  unfold GET_SLOT. destruct x; try apply reads_only_error.
  destruct (slot_lookup name slots); [apply reads_only_ret | apply reads_only_error].
Qed.

Lemma stateless_ret {A} (a : A) : stateless (ret a).
Proof. intros s. reflexivity. Qed.

Lemma stateless_error {A} f args : stateless (@error _ A f args).
Proof. intros s. reflexivity. Qed.

Lemma stateless_undefined {A} w : stateless (@undefined _ A w).
Proof. intros s. reflexivity. Qed.

Lemma stateless_bind {A B} (m : R A) (k : A -> R B) :
  stateless m -> (forall a, stateless (k a)) -> stateless (bind m k).
Proof.
  intros Hm Hk s. unfold bind. specialize (Hm s).
  destruct (m s) as [[a | f args | w] s1]; simpl in *; try assumption.
  subst s1. apply Hk.
Qed.

Lemma stateless_STRING_ELT x i : stateless (STRING_ELT x i).
Proof.
  unfold STRING_ELT, accessor_error. destruct x; try apply stateless_error.
  destruct (nth_error v i); [apply stateless_ret | apply stateless_undefined].
Qed.

End Frame.

Create HintDb frame.

#[local] Hint Resolve reads_only_ret reads_only_error reads_only_undefined
  reads_only_query reads_only_read reads_only_giterr_last reads_only_free
  reads_only_STRING_ELT reads_only_GET_SLOT
  stateless_ret stateless_error stateless_undefined stateless_STRING_ELT : frame.

(** Walks through a routine built from [bind], [if] and [match]. *)
Ltac frame :=
  repeat first
    [ apply reads_only_bind; [ | intros ? ]
    | apply stateless_bind; [ | intros ? ]
    | progress eauto with frame
    | match goal with
      | |- reads_only (if ?c then _ else _) => destruct c
      | |- reads_only (match ?x with _ => _ end) => destruct x
      | |- stateless (if ?c then _ else _) => destruct c
      | |- stateless (match ?x with _ => _ end) => destruct x
      end ].

Section RepositoryFacts.
Context `{Helpers}.

Lemma reads_only_git2r_repository_open repo : reads_only (git2r_repository_open repo).
Proof. unfold git2r_repository_open. frame. Qed.

Lemma reads_only_get_repository repo : reads_only (get_repository repo).
Proof. unfold get_repository. frame. Qed.

Lemma reads_only_checkout_strategy treeish : reads_only (checkout_strategy treeish).
Proof. unfold checkout_strategy. frame. Qed.

Lemma reads_only_checkout err repo treeish : reads_only (checkout err repo treeish).
Proof.
  unfold checkout.
  pose proof (reads_only_get_repository repo).
  pose proof (reads_only_checkout_strategy treeish).
  frame.
Qed.

(** [checkout_strategy] does not touch the state at all. *)
Lemma stateless_checkout_strategy treeish : stateless (checkout_strategy treeish).
Proof. unfold checkout_strategy. frame. Qed.

End RepositoryFacts.

(** Runs a routine as far as its calls are known. *)
Ltac run :=
  repeat (progress
    (cbv beta iota zeta delta
       [bind when ret free query read update error undefined giterr_last
        giterr_last_message STRING_ELT VECTOR_ELT LOGICAL GET_SLOT mkChar
        accessor_error];
     cbn [Z.ltb Z.eqb Z.compare negb orb andb fst snd rc out seterr nth_error])).


(** * The binding against any libgit2 *)

Section Checkout.
Context `{Helpers}.

Lemma get_repository_not_nil repo s r :
  fst (get_repository repo s) = Value (Some r) -> is_nil repo = false.
Proof. destruct repo; simpl; intros E; try reflexivity. discriminate. Qed.

Lemma checkout_strategy_not_nil treeish s a :
  fst (checkout_strategy treeish s) = Value a -> is_nil treeish = false.
Proof. destruct treeish; simpl; intros E; try reflexivity. discriminate. Qed.

(** What [checkout] comes to once its arguments are accepted: nothing but
    the test of [err]. *)
Lemma checkout_accepted err repo treeish s action repository :
  fst (checkout_strategy treeish s) = Value action ->
  fst (get_repository repo s) = Value (Some repository) ->
  checkout err repo treeish s =
    let s1 := snd (get_repository repo s) in
    if err <? 0 then
      match giterr s1 with
      | Some e => (Rf_error "Error %d: %s\n" [arg_d (klass e); arg_s (message e)], s1)
      | None => (Undefined "giterr_last() is NULL", s1)
      end
    else (Value R_NilValue, s1).
Proof.
  intros Ha Hr. unfold checkout.
  rewrite (get_repository_not_nil _ _ _ Hr), (checkout_strategy_not_nil _ _ _ Ha).
  cbn [orb].
  pose proof (stateless_checkout_strategy treeish s) as Hs.
  destruct (checkout_strategy treeish s) as [oa sa] eqn:Ea. simpl in Ha, Hs. subst oa sa.
  rewrite (bind_value _ _ _ _ _ Ea).
  destruct (get_repository repo s) as [orp s1] eqn:Er. simpl in Hr. subst orp.
  rewrite (bind_value _ _ _ _ _ Er). simpl snd.
  destruct action;
    cbv beta iota delta [bind giterr_last ret free error undefined];
    destruct (err <? 0); try reflexivity; destruct (giterr s1); reflexivity.
Qed.

(** C9: for a valid repository and a valid treeish ([git_commit], [git_tag],
    [git_tree] object or the string [HEAD]) every branch of the action
    switch of [checkout] is empty: the repositories are left as they were,
    and the state the routine ends in is the one reached by opening the
    repository. *)
Theorem checkout_is_a_stub err repo treeish s action repository :
  fst (checkout_strategy treeish s) = Value action ->
  fst (get_repository repo s) = Value (Some repository) ->
  repos (snd (checkout err repo treeish s)) = repos s /\
  snd (checkout err repo treeish s) = snd (get_repository repo s).
Proof.
  intros Ha Hr. split.
  - apply reads_only_checkout.
  - rewrite (checkout_accepted _ _ _ _ _ _ Ha Hr). cbv zeta.
    destruct (err <? 0); [destruct (giterr _)|]; reflexivity.
Qed.

(** C10: once the arguments of [checkout] are accepted, the final test reads
    the local [err] that no statement has assigned.  Whether the call raises
    is decided by the value [err] happens to hold: a non-negative value
    returns [R_NilValue], a negative one takes the error branch although no
    call has failed. *)
Theorem checkout_reads_unassigned_err repo treeish s action repository :
  fst (checkout_strategy treeish s) = Value action ->
  fst (get_repository repo s) = Value (Some repository) ->
  (forall err, 0 <= err -> fst (checkout err repo treeish s) = Value R_NilValue) /\
  (forall err, err < 0 ->
     fst (checkout err repo treeish s) =
       match giterr (snd (get_repository repo s)) with
       | Some e => Rf_error "Error %d: %s\n" [arg_d (klass e); arg_s (message e)]
       | None => Undefined "giterr_last() is NULL"
       end).
Proof.
  intros Ha Hr. split; intros err Herr;
    rewrite (checkout_accepted _ _ _ _ _ _ Ha Hr); cbv zeta.
  - destruct (Z.ltb_spec err 0); [lia | reflexivity].
  - destruct (Z.ltb_spec err 0); [| lia]. destruct (giterr _); reflexivity.
Qed.

(** C8: for an empty repository [revisions] returns the empty list and
    raises no error. *)
Theorem revisions_of_empty_repository repo s repository :
  fst (get_repository repo s) = Value (Some repository) ->
  rc (git_repository_is_empty repository (repos s)) = 1 ->
  fst (revisions repo s) = Value (VECSXP [] None).
Proof.
  intros Hr He. unfold revisions.
  pose proof (reads_only_get_repository repo s) as Hs.
  destruct (get_repository repo s) as [orp s1] eqn:Er. simpl in Hr, Hs. subst orp.
  rewrite (bind_value _ _ _ _ _ Er).
  unfold bind at 1. unfold query at 1. rewrite Hs, He. reflexivity.
Qed.

End Checkout.

Section Probing.
Context `{Helpers}.

(** C5, as the code has it: on a character vector that the string check of
    the binding accepts, [git2r_repository_can_open] and [is_repository] do
    not raise; they report whether [git_repository_open] succeeded.  An
    argument that is not a character vector makes [is_repository] raise. *)
Theorem can_open_probes_strings p rest s :
  git2r_arg_check_string (STRSXP (p :: rest)) = 0 ->
  fst (git2r_repository_can_open (STRSXP (p :: rest)) s) =
    Value (LGLSXP [if rc (git_repository_open p (repos s)) =? 0 then 1 else 0]) /\
  fst (is_repository (STRSXP (p :: rest)) s) =
    Value (LGLSXP [if rc (git_repository_open p (repos s)) <? 0 then 0 else 1]) /\
  (forall x, isString x = false -> exists f args, fst (is_repository x s) = Rf_error f args).
Proof.
  intros Hcheck. repeat split.
  - unfold git2r_repository_can_open. rewrite Hcheck.
    change (negb (0 =? 0)) with false. run.
    destruct (git_repository_open p (repos s)) as [c [g|] e]; simpl;
      destruct (c =? 0); reflexivity.
  - unfold is_repository. cbn [is_nil isString negb].
    run.
    destruct (git_repository_open p (repos s)) as [c g e]; simpl;
      destruct (c <? 0); reflexivity.
  - intros x Hx. unfold is_repository.
    destruct x; simpl in *; try discriminate; eauto.
Qed.

End Probing.

Section Listing.
Context `{Helpers}.

Lemma record_error_None (s : rstate) : record_error None s = s.
Proof. destruct s. reflexivity. Qed.

(** The listing of a notes reference whose iteration fails with
    [GIT_ENOTFOUND], once the repository is open and the name resolved. *)
Lemma note_list_missing_reference repo ref s s1 h r :
  (if negb (is_nil ref) then
     if negb (git2r_error_check_string_arg ref =? 0)
     then error "Invalid arguments to git2r_note_list" []
     else r <- STRING_ELT ref 0 ;; ret (Some r)
   else ret None) s = (Value (Some r), s) ->
  git2r_repository_open repo s = (Value (Some h), s1) ->
  rc (git_note_entries h r (repos s1)) = GIT_ENOTFOUND ->
  fst (git2r_note_list repo ref s) = Value (VECSXP [] None).
Proof.
  intros Href Hopen Hnf. unfold git2r_note_list. cbv zeta.
  rewrite (bind_value _ _ _ _ _ Href), (bind_value _ _ _ _ _ Hopen).
  unfold git_note_foreach. run.
  rewrite Hnf. reflexivity.
Qed.

End Listing.

Section Workdir.
Context `{Helpers}.

(** [git2r_repository_workdir] asks [git_repository_is_bare] first. *)
Lemma git2r_repository_workdir_result repo s h :
  fst (git2r_repository_open repo s) = Value (Some h) ->
  fst (git2r_repository_workdir repo s) =
    if git_repository_is_bare h (repos s) =? 0 then
      match git_repository_workdir h (repos s) with
      | Some wd => Value (STRSXP [wd])
      | None => Undefined "mkChar(NULL)"
      end
    else Value R_NilValue.
Proof.
  intros Hopen. unfold git2r_repository_workdir.
  pose proof (reads_only_git2r_repository_open repo s) as Hs.
  destruct (git2r_repository_open repo s) as [orp s1] eqn:Er. simpl in Hopen, Hs. subst orp.
  rewrite (bind_value _ _ _ _ _ Er). run. rewrite Hs.
  destruct (git_repository_is_bare h (repos s) =? 0); [| reflexivity].
  run. rewrite Hs. destruct (git_repository_workdir h (repos s)); reflexivity.
Qed.

(** [workdir] hands whatever [git_repository_workdir] returns to [mkChar]. *)
Lemma workdir_result repo s h :
  fst (get_repository repo s) = Value (Some h) ->
  fst (workdir repo s) =
    match git_repository_workdir h (repos s) with
    | Some wd => Value (STRSXP [wd])
    | None => Undefined "mkChar(NULL)"
    end.
Proof.
  intros Hopen. unfold workdir.
  pose proof (reads_only_get_repository repo s) as Hs.
  destruct (get_repository repo s) as [orp s1] eqn:Er. simpl in Hopen, Hs. subst orp.
  rewrite (bind_value _ _ _ _ _ Er). run. rewrite Hs.
  destruct (git_repository_workdir h (repos s)); reflexivity.
Qed.

End Workdir.

Section Swallowed.
Context `{Helpers}.

(** [fetch] returns [R_NilValue] when loading the remote fails. *)
Lemma fetch_discards_load_error repo n s h :
  fst (get_repository repo s) = Value (Some h) ->
  rc (git_remote_load h n (repos s)) < 0 ->
  fst (fetch repo (STRSXP [n]) s) = Value R_NilValue.
Proof.
  intros Hopen Hload. unfold fetch. cbn [is_nil isString Rf_length length negb orb].
  change (Z.of_nat 1 =? 1) with true. cbn [negb].
  pose proof (reads_only_get_repository repo s) as Hs.
  destruct (get_repository repo s) as [orp s1] eqn:Er. simpl in Hopen, Hs. subst orp.
  rewrite (bind_value _ _ _ _ _ Er). run. rewrite Hs.
  apply Z.ltb_lt in Hload. rewrite Hload. run.
  destruct (out (git_remote_load h n (repos s))); reflexivity.
Qed.

(** [fetch] returns [R_NilValue] when the transfer itself fails. *)
Lemma fetch_discards_transfer_error repo n s h remote :
  fst (get_repository repo s) = Value (Some h) ->
  0 <= rc (git_remote_load h n (repos s)) ->
  out (git_remote_load h n (repos s)) = Some remote ->
  rc (fst (git_remote_fetch remote (repos s))) < 0 ->
  fst (fetch repo (STRSXP [n]) s) = Value R_NilValue.
Proof.
  intros Hopen Hload Hremote Hfetch. unfold fetch.
  cbn [is_nil isString Rf_length length negb orb].
  change (Z.of_nat 1 =? 1) with true. cbn [negb].
  pose proof (reads_only_get_repository repo s) as Hs.
  destruct (get_repository repo s) as [orp s1] eqn:Er. simpl in Hopen, Hs. subst orp.
  rewrite (bind_value _ _ _ _ _ Er). run. rewrite Hs.
  apply Z.ltb_ge in Hload. rewrite Hload, Hremote. run.
  cbn [repos record_error]. rewrite Hs.
  destruct (git_remote_fetch remote (repos s)) as [r w]. reflexivity.
Qed.

(** [config] returns [R_NilValue] when setting a variable fails. *)
Lemma config_discards_set_error repo key value s h cfg :
  fst (get_repository repo s) = Value (Some h) ->
  0 <= rc (git_repository_config h (repos s)) ->
  out (git_repository_config h (repos s)) = Some cfg ->
  rc (fst (git_config_set_string cfg key value (repos s))) < 0 ->
  fst (config repo (VECSXP [STRSXP [value]] (Some [key])) s) = Value R_NilValue.
Proof.
  intros Hopen Hcfg Hout Hset. unfold config. cbn [is_nil isNewList negb].
  pose proof (reads_only_get_repository repo s) as Hs.
  destruct (get_repository repo s) as [orp s1] eqn:Er. simpl in Hopen, Hs. subst orp.
  rewrite (bind_value _ _ _ _ _ Er). run. rewrite Hs.
  apply Z.ltb_ge in Hcfg. rewrite Hcfg, Hout.
  cbn [Rf_length length getAttrib_names].
  change (Z.to_nat (Z.of_nat 1)) with 1%nat. cbn [config_loop].
  run. cbn [repos record_error]. rewrite Hs.
  destruct (git_config_set_string cfg key value (repos s)) as [r w].
  cbn [fst] in Hset. apply Z.ltb_lt in Hset. run. rewrite Hset. reflexivity.
Qed.

End Swallowed.

Section NoteObjects.
Context `{Helpers}.

Lemma git2r_note_init_read blob annotated h notes_ref repo s n :
  git_note_read h notes_ref annotated (repos s) = Lib 0 (Some n) None ->
  git2r_note_init blob annotated h notes_ref repo (NEW_OBJECT "git_note") s =
    (Value (0, note_object repo notes_ref blob annotated (git_note_message n)), s).
Proof.
  intros Hread. unfold git2r_note_init. run. rewrite Hread. run.
  rewrite record_error_None. reflexivity.
Qed.

(** The counting pass of [git2r_note_list]. *)
Lemma note_list_count entries : forall n repo repository notes_ref s,
  note_foreach_loop git2r_note_list_cb entries
    {| cb_n := n; cb_list := R_NilValue; cb_repo := repo;
       cb_repository := repository; cb_notes_ref := notes_ref |} s =
  (Value (0, {| cb_n := n + length entries; cb_list := R_NilValue; cb_repo := repo;
                cb_repository := repository; cb_notes_ref := notes_ref |}), s).
Proof.
  induction entries as [| [b a] entries IH]; intros n repo repository notes_ref s.
  - simpl. unfold ret. now rewrite Nat.add_0_r.
  - cbn [note_foreach_loop]. unfold git2r_note_list_cb at 1.
    cbn [cb_list cb_n cb_repo cb_repository cb_notes_ref is_nil negb]. run.
    rewrite IH. cbn [length].
    replace (S n + length entries)%nat with (n + S (length entries))%nat by lia.
    reflexivity.
Qed.

(** The filling pass: every entry can be read, so every slot of the list is
    filled, in the order of the entries. *)
Lemma note_list_fill h notes_ref repo s (message_of : git_oid -> string) entries :
  (forall b a, In (b, a) entries ->
     exists n, git_note_read h notes_ref a (repos s) = Lib 0 (Some n) None /\
               git_note_message n = message_of a) ->
  forall filled,
  note_foreach_loop git2r_note_list_cb entries
    {| cb_n := length filled;
       cb_list := VECSXP (app filled (replicate (length entries) R_NilValue)) None;
       cb_repo := repo; cb_repository := Some h; cb_notes_ref := Some notes_ref |} s =
  (Value (0, {| cb_n := length filled + length entries;
                cb_list := VECSXP (app filled
                                       (map (fun e : git_oid * git_oid =>
                                               note_object repo notes_ref e.1 e.2
                                                           (message_of e.2)) entries)) None;
                cb_repo := repo; cb_repository := Some h;
                cb_notes_ref := Some notes_ref |}), s).
Proof.
  induction entries as [| [b a] entries IH]; intros Hread filled.
  - simpl. unfold ret. now rewrite Nat.add_0_r.
  - destruct (Hread b a (or_introl eq_refl)) as (n & Hn & Hmsg).
    cbn [note_foreach_loop]. unfold bind at 1. unfold git2r_note_list_cb at 1.
    cbn [cb_list cb_n cb_repo cb_repository cb_notes_ref is_nil negb].
    unfold bind at 1. rewrite (git2r_note_init_read _ _ _ _ _ _ _ Hn).
    cbn [Z.ltb Z.compare]. unfold bind at 1. unfold SET_VECTOR_ELT.
    destruct (decide _) as [_ | Hout].
    2:{ exfalso. apply Hout. rewrite length_app. simpl. lia. }
    unfold ret at 1. unfold ret at 1. cbn [Z.eqb].
    rewrite insert_app_r_alt by lia. rewrite Nat.sub_diag. cbn [length replicate].
    change (<[0%nat:=?x]> (R_NilValue :: ?l)) with (x :: l).
    rewrite Hmsg.
    specialize (IH (fun b' a' Hin => Hread b' a' (or_intror Hin))
                   (app filled [note_object repo notes_ref b a (message_of a)])).
    rewrite length_app in IH. simpl length in IH.
    rewrite <- app_assoc in IH. simpl app in IH.
    replace (length filled + 1)%nat with (S (length filled)) in IH by lia.
    rewrite IH. rewrite <- app_assoc. cbn [length map app fst snd].
    replace (S (length filled) + length entries)%nat
      with (length filled + S (length entries))%nat by lia.
    reflexivity.
Qed.

End NoteObjects.

Section DefaultListing.
Context `{Helpers}.

(** The listing of a notes reference whose notes can all be read: one
    [git_note] object per entry [git_note_foreach] visits, in its order. *)
Lemma note_list_reads_entries repo r s s1 h entries (message_of : git_oid -> string) :
  git2r_error_check_string_arg (STRSXP [r]) = 0 ->
  git2r_repository_open repo s = (Value (Some h), s1) ->
  git_note_entries h r (repos s) = Lib 0 entries None ->
  (forall b a, In (b, a) entries ->
     exists n, git_note_read h r a (repos s) = Lib 0 (Some n) None /\
               git_note_message n = message_of a) ->
  fst (git2r_note_list repo (STRSXP [r]) s)
  = Value (VECSXP (map (fun e : git_oid * git_oid =>
                          note_object repo r e.1 e.2 (message_of e.2)) entries) None).
Proof.
  intros Hcheck Hopen Hentries Hread.
  pose proof (reads_only_git2r_repository_open repo s) as Hs.
  rewrite Hopen in Hs. simpl in Hs. rewrite <- Hs in Hentries, Hread.
  unfold git2r_note_list. cbv zeta. cbn [is_nil negb]. rewrite Hcheck.
  change (negb (0 =? 0)) with false. cbv iota.
  rewrite (bind_value _ (fun notes_ref => _) s s (Some r) eq_refl).
  rewrite (bind_value _ _ _ _ _ Hopen).
  unfold git_note_foreach. run. rewrite Hentries. run. rewrite !record_error_None.
  rewrite note_list_count. run. rewrite Hentries. run. rewrite !record_error_None.
  pose proof (note_list_fill h r repo s1 message_of entries Hread []) as Hfill.
  cbn [length app] in Hfill. unfold allocVector_VECSXP. cbn [Nat.add cb_n].
  rewrite Hfill. reflexivity.
Qed.

(** C3: without a reference argument [git2r_note_list] lists the
    repository's default notes reference: the run is the run on the name
    [git_note_default_ref] returns, and the list it returns holds one note
    object per note of that reference, in the order of the iteration, each
    with the reference as its [refname].  A notes reference that does not
    exist (the iteration reports [GIT_ENOTFOUND]) gives the empty list, not
    an error. *)
Theorem note_list_default_and_missing repo s h r :
  fst (git2r_repository_open repo s) = Value (Some h) ->
  git2r_error_check_string_arg (STRSXP [r]) = 0 ->
  git_note_default_ref h (repos s) = Lib 0 (Some r) None ->
  git2r_note_list repo R_NilValue s = git2r_note_list repo (STRSXP [r]) s /\
  (forall entries (message_of : git_oid -> string),
     git_note_entries h r (repos s) = Lib 0 entries None ->
     (forall b a, In (b, a) entries ->
        exists n, git_note_read h r a (repos s) = Lib 0 (Some n) None /\
                  git_note_message n = message_of a) ->
     fst (git2r_note_list repo R_NilValue s)
     = Value (VECSXP (map (fun e : git_oid * git_oid =>
                             note_object repo r e.1 e.2 (message_of e.2)) entries) None)) /\
  (rc (git_note_entries h r (repos s)) = GIT_ENOTFOUND ->
   fst (git2r_note_list repo R_NilValue s) = Value (VECSXP [] None) /\
   fst (git2r_note_list repo (STRSXP [r]) s) = Value (VECSXP [] None)).
Proof.
  intros Hopen Hcheck Hdef.
  pose proof (reads_only_git2r_repository_open repo s) as Hs.
  destruct (git2r_repository_open repo s) as [orp s1] eqn:Er. simpl in Hopen, Hs. subst orp.
  assert (Heq : git2r_note_list repo R_NilValue s = git2r_note_list repo (STRSXP [r]) s).
  { unfold git2r_note_list. cbv zeta. simpl is_nil. rewrite Hcheck.
    change (negb (0 =? 0)) with false. cbv beta iota delta [negb].
    change (r0 <- STRING_ELT (STRSXP [r]) 0 ;; ret (Some r0))
      with (@ret _ (option string) (Some r)).
    unfold bind at 1. unfold ret at 1. unfold bind at 1. rewrite Er.
    symmetry. unfold bind at 1. unfold ret at 1. unfold bind at 1. rewrite Er.
    unfold bind at 1. unfold bind at 1. unfold ret at 1.
    symmetry. unfold bind at 1. unfold bind at 1. unfold query at 1.
    rewrite Hs, Hdef. cbn [rc out seterr]. rewrite record_error_None. reflexivity. }
  split; [exact Heq |]. split.
  - intros entries message_of Hentries Hread. rewrite Heq.
    exact (note_list_reads_entries repo r s s1 h entries message_of Hcheck Er
             Hentries Hread).
  - intros Hnf.
    assert (Hl : fst (git2r_note_list repo (STRSXP [r]) s) = Value (VECSXP [] None)).
    { eapply note_list_missing_reference with (r := r); eauto.
      - simpl. rewrite Hcheck. reflexivity.
      - rewrite Hs. exact Hnf. }
    split; [rewrite Heq |]; exact Hl.
Qed.

End DefaultListing.

(** * The rest of the binding against any libgit2 *)

Section Openers.
Context `{Helpers}.

(** Whatever [git2r_repository_open] opens, [get_repository] opens as
    well. *)
Lemma get_repository_of_open repo s r s' :
  git2r_repository_open repo s = (Value (Some r), s') ->
  get_repository repo s = (Value (Some r), s').
Proof.
  unfold git2r_repository_open, get_repository.
  destruct repo as [| | | | | c slots]; try discriminate.
  cbn [is_nil is_S4 negb orb getAttrib_class].
  destruct c as [| c0 cs]; [run; discriminate |]. run.
  destruct (String.eqb c0 "git_repository"); cbn [negb]; [| discriminate].
  destruct (slot_lookup "path" slots) as [path |]; [| discriminate].
  destruct (git2r_arg_check_string path =? 0); cbn [negb]; [| discriminate].
  destruct path as [| | | v | |]; try discriminate.
  cbn [is_nil]. intros E. exact E.
Qed.

(** X1: the two openers differ in the test of the path slot only.
    [git2r_repository_open] opens a repository exactly when
    [get_repository] opens it and [git2r_arg_check_string] accepts the path
    slot; the handle and the state reached are then the same. *)
Theorem openers_differ_in_path_check repo s r s' :
  git2r_repository_open repo s = (Value (Some r), s') <->
  get_repository repo s = (Value (Some r), s') /\
  exists path, GET_SLOT repo "path" s = (Value path, s) /\
               git2r_arg_check_string path = 0.
Proof.
  split.
  - intros E. split; [apply get_repository_of_open; exact E |].
    revert E. unfold git2r_repository_open.
    destruct repo as [| | | | | c slots]; try discriminate.
    cbn [is_nil is_S4 negb orb getAttrib_class].
    destruct c as [| c0 cs]; [run; discriminate |]. run.
    destruct (String.eqb c0 "git_repository"); cbn [negb]; [| discriminate].
    destruct (slot_lookup "path" slots) as [path |]; [| discriminate].
    destruct (Z.eqb_spec (git2r_arg_check_string path) 0) as [Hc |];
      cbn [negb]; [| discriminate].
    intros _. exists path. split; [reflexivity | exact Hc].
  - intros (E & path & Hslot & Hcheck). revert E Hslot.
    unfold git2r_repository_open, get_repository.
    destruct repo as [| | | | | c slots]; try discriminate.
    cbn [is_nil is_S4 negb orb getAttrib_class].
    destruct c as [| c0 cs]; [run; discriminate |]. run.
    destruct (String.eqb c0 "git_repository"); cbn [negb]; [| discriminate].
    destruct (slot_lookup "path" slots) as [p |]; [| discriminate].
    intros E Hslot. injection Hslot as ->. rewrite Hcheck. cbn [Z.eqb negb].
    destruct path as [| | | v | |]; try discriminate.
    exact E.
Qed.

(** X2: [checkout_strategy] accepts exactly the S4 objects whose class is
    [git_commit], [git_tag] or [git_tree], and the character vector of
    length one holding [HEAD]; the action it returns is the one of the
    class. *)
Theorem checkout_strategy_accepts treeish s a :
  fst (checkout_strategy treeish s) = Value a <->
  match a with
  | CHECKOUT_COMMIT => exists rest slots, treeish = S4SXP ("git_commit" :: rest) slots
  | CHECKOUT_TAG => exists rest slots, treeish = S4SXP ("git_tag" :: rest) slots
  | CHECKOUT_TREE => exists rest slots, treeish = S4SXP ("git_tree" :: rest) slots
  | CHECKOUT_HEAD => treeish = STRSXP ["HEAD"]
  end.
Proof.
  unfold checkout_strategy. split.
  - destruct treeish as [| | | v | | c slots]; cbn [is_S4 isString andb Rf_length];
      try discriminate.
    + destruct v as [| x [| y l]].
      * cbn. discriminate.
      * cbn [length]. change (Z.of_nat 1 =? 1) with true. run.
        destruct (String.eqb_spec x "HEAD") as [-> |]; [| discriminate].
        intros E. injection E as <-. reflexivity.
      * destruct (Z.eqb_spec (Z.of_nat (length (x :: y :: l))) 1) as [E |].
        { cbn [length] in E. lia. }
        discriminate.
    + cbn [getAttrib_class]. destruct c as [| c0 cs]; [run; discriminate |]. run.
      destruct (String.eqb_spec c0 "git_commit") as [-> |].
      { intros E. injection E as <-. eauto. }
      destruct (String.eqb_spec c0 "git_tag") as [-> |].
      { intros E. injection E as <-. eauto. }
      destruct (String.eqb_spec c0 "git_tree") as [-> |].
      { intros E. injection E as <-. eauto. }
      discriminate.
  - destruct a.
    + intros (rest & slots & ->). reflexivity.
    + intros (rest & slots & ->). reflexivity.
    + intros (rest & slots & ->). reflexivity.
    + intros ->. reflexivity.
Qed.

End Openers.

Section Refusal.
Context `{HelpersMore}.

(** X3: a repository object that [get_repository] cannot open makes every
    routine of [git2r.c] that starts by opening it raise the invalid
    repository error, in the state the attempt left: no further library
    call is made. *)
Theorem routines_refuse_unopened_repository repo s s' :
  get_repository repo s = (Value None, s') ->
  is_bare repo s = (Rf_error git2r_err_invalid_repository [], s') /\
  is_empty repo s = (Rf_error git2r_err_invalid_repository [], s') /\
  references repo s = (Rf_error git2r_err_invalid_repository [], s') /\
  remotes repo s = (Rf_error git2r_err_invalid_repository [], s') /\
  tags repo s = (Rf_error git2r_err_invalid_repository [], s') /\
  revisions repo s = (Rf_error git2r_err_invalid_repository [], s') /\
  workdir repo s = (Rf_error git2r_err_invalid_repository [], s') /\
  (forall err remote,
     remote_url err repo remote s = (Rf_error git2r_err_invalid_repository [], s')) /\
  (forall path, isString path = true ->
     add repo path s = (Rf_error git2r_err_invalid_repository [], s')).
Proof.
  intros E.
  repeat split;
    try (unfold is_bare, is_empty, references, remotes, tags, revisions, workdir;
         rewrite (bind_value _ _ _ _ _ E); reflexivity).
  - intros err remote. unfold remote_url. cbv zeta.
    rewrite (bind_value _ _ _ _ _ E). reflexivity.
  - intros path Hp. unfold add. destruct path; try discriminate.
    cbn [is_nil isString negb]. rewrite (bind_value _ _ _ _ _ E). reflexivity.
Qed.

End Refusal.

Section RemoteUrl.
Context `{HelpersMore}.

(** X4: for an empty vector of remote names the loop of [remote_url] is not
    entered and the final test reads the local [err] that no statement has
    assigned: a non-negative value returns the empty character vector, a
    negative one takes the error branch although no call has failed. *)
Theorem remote_url_reads_unassigned_err repo remote s r s1 :
  get_repository repo s = (Value (Some r), s1) ->
  Rf_length remote = 0 ->
  (forall err, 0 <= err -> remote_url err repo remote s = (Value (STRSXP []), s1)) /\
  (forall err, err < 0 ->
     remote_url err repo remote s =
       (match giterr s1 with
        | Some e => Rf_error "Error %d/%d: %s\n"
                             [arg_d err; arg_d (klass e); arg_s (message e)]
        | None => Undefined "giterr_last() is NULL"
        end, s1)).
Proof.
  intros E Hlen. split; intros err Herr; unfold remote_url; cbv zeta;
    rewrite (bind_value _ _ _ _ _ E), Hlen; change (Z.to_nat 0) with 0%nat;
    cbn [remote_url_loop replicate]; unfold error_code_klass_message; run.
  - destruct (Z.ltb_spec err 0); [lia | reflexivity].
  - destruct (Z.ltb_spec err 0); [| lia]. destruct (giterr s1); reflexivity.
Qed.

(** X5: with at least one remote name the first turn of the loop assigns
    [err] before anything reads it: the outcome does not depend on the value
    [err] held on entry. *)
Theorem remote_url_assigns_err_in_loop repo remote s err err' :
  0 < Rf_length remote ->
  remote_url err repo remote s = remote_url err' repo remote s.
Proof.
  intros Hlen. unfold remote_url. cbv zeta.
  destruct (Z.to_nat (Rf_length remote)) as [| n] eqn:En; [lia |].
  cbn [remote_url_loop]. reflexivity.
Qed.

End RemoteUrl.

Section Vectors.
Context `{LibGit2}.

Lemma SET_STRING_ELT_next (filled : list string) x rest v s :
  SET_STRING_ELT (app filled (x :: rest)) (length filled) v s
  = (Value (app filled (v :: rest)), s).
Proof.
  unfold SET_STRING_ELT. destruct (decide _) as [_ | Hout].
  2:{ exfalso. apply Hout. rewrite length_app. simpl. lia. }
  unfold ret. rewrite insert_app_r_alt by lia. rewrite Nat.sub_diag. reflexivity.
Qed.

Lemma SET_VECTOR_ELT_next (filled : list SEXP) x rest names v s :
  SET_VECTOR_ELT (VECSXP (app filled (x :: rest)) names) (length filled) v s
  = (Value (VECSXP (app filled (v :: rest)) names), s).
Proof.
  unfold SET_VECTOR_ELT. destruct (decide _) as [_ | Hout].
  2:{ exfalso. apply Hout. rewrite length_app. simpl. lia. }
  unfold ret. rewrite insert_app_r_alt by lia. rewrite Nat.sub_diag. reflexivity.
Qed.

Lemma nth_error_next {A} (filled : list A) x rest :
  nth_error (app filled (x :: rest)) (length filled) = Some x.
Proof. rewrite nth_error_app2 by lia. rewrite Nat.sub_diag. reflexivity. Qed.

Lemma repos_record_error e (s : rstate) : repos (record_error e s) = repos s.
Proof. reflexivity. Qed.

End Vectors.

Section RemoteLists.
Context `{HelpersMore}.

(** The loop of [remote_url] when every name loads a remote with a URL. *)
Lemma remote_url_loop_fill r (url_of : string -> string) w rest :
  forall filled err s,
  repos s = w ->
  (forall n, In n rest ->
     exists rm, 0 <= rc (git_remote_load r n w) /\
                out (git_remote_load r n w) = Some rm /\
                git_remote_url rm = Some (url_of n)) ->
  exists err' s',
    remote_url_loop r (STRSXP (app filled rest)) (length filled) (length rest) err
                    (app (map url_of filled) (replicate (length rest) "")) s
    = (Value (err', app (map url_of filled) (map url_of rest)), s') /\
    (rest <> [] -> 0 <= err') /\ (rest = [] -> err' = err).
Proof.
  induction rest as [| n rest IH]; intros filled err s Hs Hload.
  - exists err, s. split; [reflexivity |]. split; [congruence | reflexivity].
  - destruct (Hload n (or_introl eq_refl)) as (rm & Hrc & Hout & Hurl).
    specialize (IH (app filled [n]) (rc (git_remote_load r n w))
                   (record_error (seterr (git_remote_load r n w)) s)).
    destruct IH as (err' & s' & Hloop & Hne & He).
    { rewrite repos_record_error. exact Hs. }
    { intros m Hm. apply Hload. right. exact Hm. }
    rewrite length_app, map_app, <- !app_assoc in Hloop. cbn [length map app] in Hloop.
    replace (length filled + 1)%nat with (S (length filled)) in Hloop by lia.
    exists err', s'. split; [| split; [| discriminate]].
    { cbn [remote_url_loop length replicate map]. run.
      rewrite nth_error_next, Hs. apply Z.ltb_ge in Hrc. rewrite Hrc, Hout, Hurl.
      rewrite <- (length_map url_of filled) at 1.
      rewrite SET_STRING_ELT_next. exact Hloop. }
    intros _. destruct rest as [| m rest].
    + rewrite He by reflexivity. exact Hrc.
    + apply Hne. discriminate.
Qed.

(** X6: when every name of the vector loads a remote that has a URL,
    [remote_url] returns the URLs, one per name and in the order of the
    names. *)
Theorem remote_url_lists_urls repo names (url_of : string -> string) s r s1 err :
  get_repository repo s = (Value (Some r), s1) ->
  names <> [] ->
  (forall n, In n names ->
     exists rm, 0 <= rc (git_remote_load r n (repos s)) /\
                out (git_remote_load r n (repos s)) = Some rm /\
                git_remote_url rm = Some (url_of n)) ->
  fst (remote_url err repo (STRSXP names) s) = Value (STRSXP (map url_of names)).
Proof.
  intros E Hne Hload. unfold remote_url. cbv zeta.
  rewrite (bind_value _ _ _ _ _ E). cbn [Rf_length]. rewrite Nat2Z.id.
  pose proof (reads_only_get_repository repo s) as Hs. rewrite E in Hs. simpl in Hs.
  destruct (remote_url_loop_fill r url_of (repos s) names [] err s1 Hs Hload)
    as (err' & s' & Hloop & Hpos & _).
  cbn [app map length] in Hloop. unfold bind at 1. rewrite Hloop.
  specialize (Hpos Hne). apply Z.ltb_ge in Hpos. run. rewrite Hpos. reflexivity.
Qed.

(** The loop of [remotes] copies the names into the vector. *)
Lemma remotes_loop_copy rest : forall (filled : list string) s,
  remotes_loop rest (length filled) (app filled (replicate (length rest) "")) s
  = (Value (app filled rest), s).
Proof.
  induction rest as [| n rest IH]; intros filled s.
  - reflexivity.
  - cbn [remotes_loop length replicate]. unfold bind. rewrite SET_STRING_ELT_next.
    specialize (IH (app filled [n]) s).
    rewrite length_app, <- !app_assoc in IH. cbn [length app] in IH.
    replace (length filled + 1)%nat with (S (length filled)) in IH by lia.
    exact IH.
Qed.

(** X7: when the listing succeeds, [remotes] returns the names
    [git_remote_list] wrote, all of them and in the library's order. *)
Theorem remotes_returns_listed_names repo s r s1 names :
  get_repository repo s = (Value (Some r), s1) ->
  0 <= rc (git_remote_list r (repos s)) ->
  out (git_remote_list r (repos s)) = Some names ->
  fst (remotes repo s) = Value (STRSXP names).
Proof.
  intros E Hrc Hout. unfold remotes. rewrite (bind_value _ _ _ _ _ E).
  pose proof (reads_only_get_repository repo s) as Hs. rewrite E in Hs. simpl in Hs.
  run. rewrite Hs. apply Z.ltb_ge in Hrc. rewrite Hrc, Hout.
  pose proof (fun s' => remotes_loop_copy names [] s') as Hloop.
  cbn [length app] in Hloop. rewrite Hloop. reflexivity.
Qed.

End RemoteLists.

Section References.
Context `{HelpersMore}.

(** [init_reference] on an S4 object returns the object with slots set, in
    the state it started from. *)
Lemma init_reference_value ref c slots s o s' :
  init_reference ref (S4SXP c slots) s = (Value o, s') ->
  s' = s /\ exists slots', o = S4SXP c slots'.
Proof.
  unfold init_reference. cbv zeta. cbn [SET_SLOT].
  destruct (git_reference_type ref =? GIT_REF_OID).
  - destruct (git_reference_target ref); run; intros E; [| discriminate].
    injection E as <- <-. eauto.
  - destruct (git_reference_type ref =? GIT_REF_SYMBOLIC); [| discriminate].
    destruct (git_reference_symbolic_target ref); run; intros E; [| discriminate].
    injection E as <- <-. eauto.
Qed.

(** The loop of [references], when it comes back without an error code: it
    has filled one slot per name, and set the names. *)
Lemma references_loop_value r strings :
  forall (filled_names : list string) (filled : list SEXP) err s err' vec' names' s',
  length filled = length filled_names ->
  references_loop r strings (length filled_names) err
                  (app filled_names (replicate (length strings) ""))
                  (VECSXP (app filled (replicate (length strings) R_NilValue)) None) s
  = (Value (err', vec', names'), s') ->
  (err' <? 0) = false ->
  exists new,
    vec' = VECSXP (app filled new) None /\
    names' = Some (app filled_names strings) /\
    length new = length strings /\
    Forall (fun o => exists slots, o = S4SXP ["git_reference"] slots) new.
Proof.
  induction strings as [| name strings IH];
    intros filled_names filled err s err' vec' names' s' Hlen Hloop Herr.
  - cbn in Hloop. injection Hloop as <- <- <- <-. exists [].
    rewrite !app_nil_r. repeat split. constructor.
  - cbn [references_loop length replicate] in Hloop.
    unfold bind at 1 in Hloop. unfold query at 1 in Hloop.
    destruct (git_reference_lookup r name (repos s)) as [c ref e]. cbn [rc out seterr] in Hloop.
    destruct (c <? 0) eqn:Ec.
    { injection Hloop as <- _ _ _. congruence. }
    destruct ref as [ref |]; [| discriminate].
    unfold bind at 1 in Hloop.
    destruct (init_reference ref (NEW_OBJECT "git_reference") (record_error e s))
      as [[o | |] s2] eqn:Ei; try discriminate.
    destruct (init_reference_value _ _ _ _ _ _ Ei) as (-> & slots & ->).
    unfold bind at 1 in Hloop. rewrite SET_STRING_ELT_next in Hloop.
    unfold bind at 1 in Hloop. rewrite <- Hlen in Hloop.
    rewrite SET_VECTOR_ELT_next in Hloop.
    specialize (IH (app filled_names [name]) (app filled [S4SXP ["git_reference"] slots])
                   c (record_error e s) err' vec' names' s').
    rewrite !length_app, <- !app_assoc in IH. cbn [length app] in IH.
    replace (length filled_names + 1)%nat with (S (length filled_names)) in IH by lia.
    rewrite <- Hlen in IH.
    assert (Hnext : (length filled + 1)%nat = S (length filled)) by lia.
    destruct (IH Hnext Hloop Herr) as (new & -> & -> & Hnew & Hall).
    exists (S4SXP ["git_reference"] slots :: new). rewrite <- app_assoc.
    repeat split.
    + cbn [length]. lia.
    + constructor; eauto.
Qed.

(** X8: whenever [references] returns, it returns a list with one S4
    [git_reference] object per name [git_reference_list] wrote, and the
    names attribute of the list is the vector of these names, in the
    library's order: no slot is left unfilled. *)
Theorem references_names_every_reference repo s r s1 v s' :
  get_repository repo s = (Value (Some r), s1) ->
  references repo s = (Value v, s') ->
  exists names objs,
    out (git_reference_list r (repos s)) = Some names /\
    v = VECSXP objs (Some names) /\
    length objs = length names /\
    Forall (fun o => exists slots, o = S4SXP ["git_reference"] slots) objs.
Proof.
  intros E. unfold references. rewrite (bind_value _ _ _ _ _ E).
  pose proof (reads_only_get_repository repo s) as Hs. rewrite E in Hs. simpl in Hs.
  unfold bind at 1. unfold query at 1. rewrite Hs.
  destruct (git_reference_list r (repos s)) as [c written e]. cbn [rc out seterr].
  unfold bind at 1. destruct (c <? 0) eqn:Ec.
  - unfold error_code_klass_message. run. rewrite Ec.
    destruct written; [| discriminate].
    destruct (giterr (record_error e s1)); discriminate.
  - destruct written as [names |]; [| discriminate].
    pose proof (references_loop_value r names [] [] c (record_error e s1)) as Hloop.
    cbn [length app] in Hloop. unfold allocVector_VECSXP.
    destruct (references_loop r names 0 c _ _ _) as [[[[err' vec'] names'] | |] s2];
      try discriminate.
    unfold error_code_klass_message. run.
    destruct (err' <? 0) eqn:Eerr.
    { destruct (giterr s2); discriminate. }
    destruct (Hloop err' vec' names' s2 eq_refl eq_refl Eerr)
      as (new & -> & -> & Hnew & Hall).
    cbn [is_nil setAttrib_names]. intros Hv. injection Hv as <- <-.
    exists names, new. repeat split; assumption.
Qed.

End References.

Section Tags.
Context `{HelpersMore}.

(** [init_tag] does not look at the state. *)
Lemma init_tag_value tag dest s o s' :
  init_tag tag dest s = (Value o, s') ->
  s' = s /\ forall s0, init_tag tag dest s0 = (Value o, s0).
Proof.
  unfold init_tag.
  destruct (git_tag_message tag); run; [| discriminate].
  destruct (git_tag_name tag); run; [| discriminate].
  intros E. injection E as <- <-. split; reflexivity.
Qed.

(** The loop of [tags], when it comes back without an error code: every
    slot holds the object [init_tag] makes of the tag its name resolves
    to. *)
Lemma tags_loop_value r w strings :
  forall (filled : list SEXP) err s err' vec' s',
  repos s = w ->
  tags_loop r strings (length filled) err
            (VECSXP (app filled (replicate (length strings) R_NilValue)) None) s
  = (Value (err', vec'), s') ->
  (err' <? 0) = false ->
  exists new,
    vec' = VECSXP (app filled new) None /\
    Forall2 (fun name o =>
               exists ref oid tag,
                 out (git_reference_dwim r name w) = Some ref /\
                 git_reference_target ref = Some oid /\
                 out (git_tag_lookup r oid w) = Some tag /\
                 forall s0, init_tag tag (NEW_OBJECT "git_tag") s0 = (Value o, s0))
            strings new.
Proof.
  induction strings as [| name strings IH];
    intros filled err s err' vec' s' Hs Hloop Herr.
  - cbn in Hloop. injection Hloop as <- <- <-. exists [].
    rewrite !app_nil_r. split; [reflexivity | constructor].
  - cbn [tags_loop length replicate] in Hloop.
    unfold bind at 1 in Hloop. unfold query at 1 in Hloop. rewrite Hs in Hloop.
    destruct (git_reference_dwim r name w) as [c ref e] eqn:Edwim.
    cbn [rc out seterr] in Hloop.
    destruct (c <? 0) eqn:Ec.
    { injection Hloop as <- _ _. congruence. }
    destruct ref as [ref |]; [| discriminate].
    destruct (git_reference_target ref) as [oid |] eqn:Etarget; [| discriminate].
    unfold bind at 1 in Hloop. unfold query at 1 in Hloop.
    rewrite repos_record_error, Hs in Hloop.
    destruct (git_tag_lookup r oid w) as [c' tag e'] eqn:Elookup.
    cbn [rc out seterr] in Hloop.
    destruct (c' <? 0) eqn:Ec'.
    { injection Hloop as <- _ _. congruence. }
    destruct tag as [tag |]; [| discriminate].
    unfold bind at 1 in Hloop.
    destruct (init_tag tag (NEW_OBJECT "git_tag") _) as [[o | |] s2] eqn:Ei;
      try discriminate.
    destruct (init_tag_value _ _ _ _ _ Ei) as (-> & Hinit).
    unfold bind at 1 in Hloop. rewrite SET_VECTOR_ELT_next in Hloop.
    unfold bind at 1, free at 1, ret at 1 in Hloop.
    unfold bind at 1, free at 1, ret at 1 in Hloop.
    specialize (IH (app filled [o]) c' (record_error e' (record_error e s)) err' vec' s').
    rewrite !length_app, <- !app_assoc in IH. cbn [length app] in IH.
    replace (length filled + 1)%nat with (S (length filled)) in IH by lia.
    assert (Hs' : repos (record_error e' (record_error e s)) = w) by exact Hs.
    destruct (IH Hs' Hloop Herr) as (new & -> & Hall).
    exists (o :: new). rewrite <- app_assoc. split; [reflexivity |].
    constructor; [| exact Hall].
    exists ref, oid, tag. rewrite Edwim, Elookup. auto.
Qed.

(** X9: whenever [tags] returns, it returns a list with one object per name
    [git_tag_list] wrote, in the library's order, and the object at the
    place of a name is the one [init_tag] makes of the tag object the name
    resolves to: a name that does not resolve, or that resolves to
    something that is no tag object, leaves no list at all. *)
Theorem tags_lists_every_tag repo s r s1 v s' :
  get_repository repo s = (Value (Some r), s1) ->
  tags repo s = (Value v, s') ->
  exists objs,
    v = VECSXP objs None /\
    Forall2 (fun name o =>
               exists ref oid tag,
                 out (git_reference_dwim r name (repos s)) = Some ref /\
                 git_reference_target ref = Some oid /\
                 out (git_tag_lookup r oid (repos s)) = Some tag /\
                 forall s0, init_tag tag (NEW_OBJECT "git_tag") s0 = (Value o, s0))
            (default [] (out (git_tag_list r (repos s)))) objs.
Proof.
  intros E. unfold tags. rewrite (bind_value _ _ _ _ _ E).
  pose proof (reads_only_get_repository repo s) as Hs. rewrite E in Hs. simpl in Hs.
  unfold bind at 1. unfold query at 1. rewrite Hs.
  destruct (git_tag_list r (repos s)) as [c written e]. cbn [rc out seterr]. cbv zeta.
  set (names := default [] written).
  unfold bind at 1. destruct (c <? 0) eqn:Ec.
  - run. rewrite Ec. destruct (giterr (record_error e s1)); discriminate.
  - pose proof (tags_loop_value r (repos s) names [] c (record_error e s1)) as Hloop.
    cbn [length app] in Hloop. unfold allocVector_VECSXP.
    destruct (tags_loop r names 0 c _ _) as [[[err' vec'] | |] s2]; try discriminate.
    run. destruct (err' <? 0) eqn:Eerr.
    { destruct (giterr s2); discriminate. }
    destruct (Hloop err' vec' s2 Hs eq_refl Eerr) as (new & -> & Hall).
    intros Hv. injection Hv as <- <-. exists new. split; [reflexivity | exact Hall].
Qed.

End Tags.

Section Revisions.
Context `{Helpers}.

Lemma count_revisions_length yields : forall n,
  count_revisions yields n = (n + length yields)%nat.
Proof.
  induction yields as [| o yields IH]; intros n; cbn [count_revisions length].
  - lia.
  - rewrite IH. lia.
Qed.

(** The turns of the loop of [revisions] over commits that can be looked
    up: each fills the next slot of the list. *)
Lemma revisions_loop_prefix r w (commit_of : git_oid -> git_commit) last more yields :
  forall (filled rest : list SEXP) s,
  repos s = w ->
  (forall o, In o yields ->
     0 <= rc (git_commit_lookup r o w) /\
     out (git_commit_lookup r o w) = Some (commit_of o)) ->
  exists s',
    repos s' = w /\
    revisions_loop r (app yields more) last
                   (VECSXP (app filled (app (replicate (length yields) R_NilValue) rest)) None)
                   (length filled) s
    = revisions_loop r more last
                     (VECSXP (app filled
                                  (app (map (fun o => init_commit (commit_of o)
                                                                  (NEW_OBJECT "git_commit"))
                                            yields) rest)) None)
                     (length filled + length yields) s'.
Proof.
  induction yields as [| o yields IH]; intros filled rest s Hs Hlookup.
  - exists s. split; [exact Hs |]. cbn [app length replicate map].
    rewrite Nat.add_0_r. reflexivity.
  - destruct (Hlookup o (or_introl eq_refl)) as (Hrc & Hout).
    specialize (IH (app filled [init_commit (commit_of o) (NEW_OBJECT "git_commit")]) rest
                   (record_error (seterr (git_commit_lookup r o w)) s)).
    destruct IH as (s' & Hs' & Hloop).
    { rewrite repos_record_error. exact Hs. }
    { intros o' Ho'. apply Hlookup. right. exact Ho'. }
    rewrite length_app, <- !app_assoc in Hloop. cbn [length app] in Hloop.
    replace (length filled + 1)%nat with (S (length filled)) in Hloop by lia.
    replace (S (length filled) + length yields)%nat
      with (length filled + S (length yields))%nat in Hloop by lia.
    exists s'. split; [exact Hs' |].
    cbn [app revisions_loop length replicate map].
    unfold bind at 1. unfold query at 1. rewrite Hs.
    apply Z.ltb_ge in Hrc. cbn [rc out]. rewrite Hrc, Hout. cbv zeta.
    unfold bind at 1. rewrite SET_VECTOR_ELT_next.
    unfold bind at 1, free at 1, ret at 1. exact Hloop.
Qed.

(** What [revisions] comes to once the repository is open, not empty, and
    the walker has been made and HEAD pushed on it twice. *)
Lemma revisions_walks_twice repo s r s1 w0 :
  get_repository repo s = (Value (Some r), s1) ->
  rc (git_repository_is_empty r (repos s)) = 0 ->
  0 <= rc (git_revwalk_new r (repos s)) ->
  out (git_revwalk_new r (repos s)) = Some w0 ->
  0 <= rc (git_revwalk_push_head w0 (repos s)) ->
  let first := git_revwalk_walk (out (git_revwalk_push_head w0 (repos s))) (repos s) in
  let again := git_revwalk_push_head (git_revwalk_reset (walk_left first)) (repos s) in
  0 <= rc again ->
  let second := git_revwalk_walk (out again) (repos s) in
  exists s2,
    repos s2 = repos s /\
    revisions repo s =
      (let* (err, list) :=
         revisions_loop r (walk_yields second) (walk_last second)
                        (allocVector_VECSXP (length (walk_yields first))) 0 in
       if err <? 0 then
         e <- giterr_last ;;
         match e with
         | Some e => error "Error %d/%d: %s\n"
                           [arg_d err; arg_d (klass e); arg_s (message e)]
         | None => undefined "giterr_last() is NULL"
         end
       else ret list) s2.
Proof.
  intros E Hempty Hnew Hw0 Hpush. cbv zeta. intros Hagain.
  pose proof (reads_only_get_repository repo s) as Hs. rewrite E in Hs. simpl in Hs.
  apply Z.ltb_ge in Hnew, Hpush, Hagain.
  eexists. split; [| unfold revisions; rewrite (bind_value _ _ _ _ _ E)].
  2:{ unfold bind at 1. unfold query at 1. rewrite Hs, Hempty. cbn [Z.eqb negb].
      unfold bind at 1. unfold bind at 1. unfold query at 1.
      rewrite repos_record_error, Hs, Hnew, Hw0.
      unfold bind at 1. unfold query at 1. rewrite !repos_record_error, Hs, Hpush.
      unfold number_of_revisions.
      unfold bind at 1. unfold bind at 1. unfold read at 1.
      rewrite !repos_record_error, Hs. cbv zeta.
      unfold bind at 1. unfold query at 1. cbn [out walk_last]. unfold ret at 1.
      rewrite count_revisions_length. cbn [Nat.add].
      unfold bind at 1. unfold query at 1. rewrite !repos_record_error, Hs, Hagain.
      unfold bind at 1. unfold read at 1. rewrite !repos_record_error, Hs.
      unfold bind at 2. unfold free, ret. reflexivity. }
  rewrite !repos_record_error. exact Hs.
Qed.


(** X11: [revisions] takes every non-zero answer of
    [git_repository_is_empty] for an empty repository, a negative one too:
    when the emptiness test itself fails, the routine returns the empty
    list and raises nothing, and the error record the failing test left
    stays in the state, unread. *)
Theorem revisions_takes_failed_test_for_empty repo s r s1 :
  get_repository repo s = (Value (Some r), s1) ->
  rc (git_repository_is_empty r (repos s)) <> 0 ->
  revisions repo s
  = (Value (VECSXP [] None),
     record_error (seterr (git_repository_is_empty r (repos s))) s1).
Proof.
  intros E Hempty. unfold revisions. rewrite (bind_value _ _ _ _ _ E).
  pose proof (reads_only_get_repository repo s) as Hs. rewrite E in Hs. simpl in Hs.
  run. rewrite Hs. apply Z.eqb_neq in Hempty. rewrite Hempty. reflexivity.
Qed.

End Revisions.

Section Index.
Context `{HelpersMore}.

(** X12: [add] stages the path and then writes the index, and stops at the
    first of the two that fails: the repositories it leaves are those
    after the last call made, the index is not written when staging failed,
    and [R_NilValue] is returned exactly when both calls succeeded. *)
Theorem add_stages_then_writes repo p rest s r s1 idx :
  get_repository repo s = (Value (Some r), s1) ->
  0 <= rc (git_repository_index r (repos s)) ->
  out (git_repository_index r (repos s)) = Some idx ->
  let staged := git_index_add_bypath idx p (repos s) in
  let written := git_index_write idx (snd staged) in
  repos (snd (add repo (STRSXP (p :: rest)) s)) =
    (if rc (fst staged) <? 0 then snd staged else snd written) /\
  (fst (add repo (STRSXP (p :: rest)) s) = Value R_NilValue <->
   0 <= rc (fst staged) /\ 0 <= rc (fst written)).
Proof.
  intros E Hrc Hout. cbv zeta. unfold add. cbn [is_nil isString negb].
  rewrite (bind_value _ _ _ _ _ E).
  pose proof (reads_only_get_repository repo s) as Hs. rewrite E in Hs. simpl in Hs.
  apply Z.ltb_ge in Hrc. unfold error_code_klass_message.
  run. rewrite Hs, Hrc, Hout. run. cbn [repos record_error]. rewrite Hs.
  destruct (git_index_add_bypath idx p (repos s)) as [[c1 [] e1] w1].
  run. cbn [repos record_error].
  destruct (Z.ltb_spec c1 0) as [Hc1 | Hc1].
  - run. destruct (Z.ltb_spec c1 0); [| lia]. split.
    + destruct (giterr _); reflexivity.
    + split; [| lia]. destruct (giterr _); discriminate.
  - run. cbn [repos record_error].
    destruct (git_index_write idx w1) as [[c2 [] e2] w2]. run.
    destruct (Z.ltb_spec c2 0) as [Hc2 | Hc2].
    + split.
      * destruct (giterr _); reflexivity.
      * split; [| lia]. destruct (giterr _); discriminate.
    + split; [reflexivity |]. split; [lia | reflexivity].
Qed.

End Index.

Section Settings.
Context `{Helpers}.

(** X13: [config] reads the keys from the names attribute of the list; a
    non-empty list without names has none, and the first turn of the loop
    applies [STRING_ELT] to [R_NilValue]: R's accessor raises its type
    error, before any variable is set. *)
Theorem config_reads_names_of_unnamed_list repo v vs s r s1 :
  get_repository repo s = (Value (Some r), s1) ->
  0 <= rc (git_repository_config r (repos s)) ->
  fst (config repo (VECSXP (v :: vs) None) s)
    = Rf_error "%s() can only be applied to a '%s', not a '%s'"
               [arg_s "STRING_ELT"; arg_s "character vector"; arg_s "NULL"] /\
  repos (snd (config repo (VECSXP (v :: vs) None) s)) = repos s.
Proof.
  intros E Hrc. unfold config. cbn [is_nil isNewList negb].
  rewrite (bind_value _ _ _ _ _ E).
  pose proof (reads_only_get_repository repo s) as Hs. rewrite E in Hs. simpl in Hs.
  apply Z.ltb_ge in Hrc. run. rewrite Hs, Hrc.
  cbn [Rf_length length getAttrib_names]. rewrite Nat2Z.id. cbn [config_loop].
  run. split; [reflexivity | exact Hs].
Qed.

End Settings.

Section SettingsInOrder.
Context `{Helpers}.

Lemma config_loop_sets cfg names :
  forall values (done_names done_values : list string) attr err s,
  length names = length values ->
  length done_names = length done_values ->
  exists err',
    config_loop (Some cfg) (STRSXP (app done_names names))
                (VECSXP (map (fun v => STRSXP [v]) (app done_values values)) attr)
                (length done_names) (length names) err s
    = (Value err',
       {| repos := set_strings cfg (combine names values) (repos s);
          giterr := giterr (snd (config_loop (Some cfg) (STRSXP (app done_names names))
                       (VECSXP (map (fun v => STRSXP [v]) (app done_values values)) attr)
                       (length done_names) (length names) err s)) |}).
Proof.
  induction names as [| key names IH];
    intros values done_names done_values attr err s Hlen Hdone.
  - exists err. cbn [config_loop length combine set_strings]. unfold ret.
    cbn [snd]. destruct s; reflexivity.
  - destruct values as [| value values]; [discriminate |].
    cbn [length] in Hlen.
    specialize (IH values (app done_names [key]) (app done_values [value]) attr).
    rewrite !length_app, <- !app_assoc in IH. cbn [length app] in IH.
    replace (length done_names + 1)%nat with (S (length done_names)) in IH by lia.
    cbn [config_loop length combine set_strings]. run.
    rewrite nth_error_next. rewrite map_app. cbn [map].
    rewrite <- (length_map (fun v => STRSXP [v]) done_values) in Hdone.
    rewrite Hdone, nth_error_next. cbn [nth_error].
    destruct (git_config_set_string cfg key value (repos s)) as [[c [] e] w].
    cbn [rc out seterr fst snd]. destruct (c <? 0).
    + exists c. reflexivity.
    + rewrite <- Hdone.
      destruct (IH c (record_error e {| repos := w; giterr := giterr s |}))
        as (err' & Hloop); [lia | rewrite length_map in Hdone; lia |].
      rewrite map_app in Hloop. cbn [map] in Hloop.
      exists err'. rewrite Hloop at 1. cbn [repos record_error snd].
      rewrite Hloop. reflexivity.
Qed.

(** X14: on a named list of strings [config] writes the settings in the
    order of the list, the key of a value being the name at its index, up
    to and including the first write that fails, and returns [R_NilValue]
    whatever the writes returned. *)
Theorem config_sets_in_order repo names values s r s1 cfg :
  get_repository repo s = (Value (Some r), s1) ->
  0 <= rc (git_repository_config r (repos s)) ->
  out (git_repository_config r (repos s)) = Some cfg ->
  length names = length values ->
  let variables := VECSXP (map (fun v => STRSXP [v]) values) (Some names) in
  fst (config repo variables s) = Value R_NilValue /\
  repos (snd (config repo variables s)) = set_strings cfg (combine names values) (repos s).
Proof.
  intros E Hrc Hout Hlen. cbv zeta.
  pose proof (reads_only_get_repository repo s) as Hs. rewrite E in Hs. simpl in Hs.
  apply Z.ltb_ge in Hrc.
  destruct (config_loop_sets cfg names values [] [] (Some names)
              (rc (git_repository_config r (repos s)))
              (record_error (seterr (git_repository_config r (repos s))) s1)
              Hlen eq_refl) as (err' & Hloop).
  cbn [app length] in Hloop.
  assert (Hrun : exists g,
            config repo (VECSXP (map (fun v => STRSXP [v]) values) (Some names)) s
            = (Value R_NilValue,
               {| repos := set_strings cfg (combine names values) (repos s);
                  giterr := g |})).
  { eexists. unfold config. cbn [is_nil isNewList negb].
    rewrite (bind_value _ _ _ _ _ E). unfold bind at 1. unfold query at 1.
    rewrite Hs, Hout. cbn [rc out]. rewrite Hrc.
    cbn [Rf_length getAttrib_names]. rewrite length_map, <- Hlen, Nat2Z.id.
    unfold bind at 1. rewrite Hloop. cbn [repos record_error]. rewrite Hs.
    reflexivity. }
  destruct Hrun as (g & ->). split; reflexivity.
Qed.

End SettingsInOrder.

Section Predicates.
Context `{HelpersMore}.

(** X15: the two emptiness tests part on a failing library call.  On a
    negative answer of [git_repository_is_empty] the test of [git2r.c]
    answers TRUE; the test of [git2r_repository.c] answers TRUE for the
    answer 1 only, and on a negative answer, with a [git2r_error] that
    raises, it returns no value at all: it raises what [git2r_error] makes
    of the message the failing test left. *)
Theorem emptiness_tests_part_on_failure repo s r s1 :
  (forall format func arg s0,
     exists f args, git2r_error format func arg s0 = (Rf_error f args, s0)) ->
  git2r_repository_open repo s = (Value (Some r), s1) ->
  let answer := git_repository_is_empty r (repos s) in
  let code := rc answer in
  let s2 := record_error (seterr answer) s1 in
  (code <> 0 -> is_empty repo s = (Value (ScalarLogical 1), s2)) /\
  (0 <= code ->
   git2r_repository_is_empty repo s = (Value (LGLSXP [if code =? 1 then 1 else 0]), s2)) /\
  (code < 0 -> forall v, fst (git2r_repository_is_empty repo s) <> Value v) /\
  (code < 0 -> forall e, seterr answer = Some e ->
   git2r_repository_is_empty repo s
   = (match fst (git2r_error git2r_err_from_libgit2 "git2r_repository_is_empty"
                             (Some (message e)) s2) with
      | Rf_error f args => Rf_error f args
      | _ => Undefined "git2r_error returned"
      end, s2)).
Proof.
  intros Hraise E. cbv zeta.
  pose proof (get_repository_of_open _ _ _ _ E) as E'.
  pose proof (reads_only_git2r_repository_open repo s) as Hs. rewrite E in Hs. simpl in Hs.
  split; [| split; [| split]].
  - intros Hcode. unfold is_empty. rewrite (bind_value _ _ _ _ _ E'). run. rewrite Hs.
    apply Z.eqb_neq in Hcode. rewrite Hcode. reflexivity.
  - intros Hcode. unfold git2r_repository_is_empty. rewrite (bind_value _ _ _ _ _ E).
    run. rewrite Hs. apply Z.ltb_ge in Hcode. rewrite Hcode. run.
    destruct (rc (git_repository_is_empty r (repos s))) as [| q | q]; try reflexivity.
    destruct q; reflexivity.
  - intros Hcode v. unfold git2r_repository_is_empty. rewrite (bind_value _ _ _ _ _ E).
    run. rewrite Hs. apply Z.ltb_lt in Hcode. rewrite Hcode. run.
    destruct (giterr _) as [e |]; [| discriminate].
    match goal with
    | |- context [git2r_error ?f ?n ?a ?st] =>
        destruct (Hraise f n a st) as (fmt & args & ->)
    end.
    discriminate.
  - intros Hcode e He. unfold git2r_repository_is_empty.
    rewrite (bind_value _ _ _ _ _ E).
    run. rewrite Hs. apply Z.ltb_lt in Hcode. rewrite Hcode, He. run.
    cbn [record_error giterr].
    match goal with
    | |- context [git2r_error ?f ?n ?a ?st] =>
        destruct (Hraise f n a st) as (fmt & args & ->)
    end.
    reflexivity.
Qed.

(** X16: once the repository is open and the library call has not failed,
    each predicate of [git2r_repository.c] answers TRUE exactly when the
    library answered 1, and FALSE for every other answer. *)
Theorem repository_predicates_answer_true_for_one repo s r s1 :
  git2r_repository_open repo s = (Value (Some r), s1) ->
  fst (git2r_repository_is_bare repo s)
    = Value (LGLSXP [if git_repository_is_bare r (repos s) =? 1 then 1 else 0]) /\
  (0 <= rc (git_repository_is_shallow r (repos s)) ->
   fst (git2r_repository_is_shallow repo s)
     = Value (LGLSXP [if rc (git_repository_is_shallow r (repos s)) =? 1 then 1 else 0])) /\
  (0 <= rc (git_repository_head_detached r (repos s)) ->
   fst (git2r_repository_head_detached repo s)
     = Value (LGLSXP [if rc (git_repository_head_detached r (repos s)) =? 1
                      then 1 else 0])).
Proof.
  intros E.
  pose proof (reads_only_git2r_repository_open repo s) as Hs. rewrite E in Hs. simpl in Hs.
  repeat split.
  - unfold git2r_repository_is_bare. rewrite (bind_value _ _ _ _ _ E). run. rewrite Hs.
    destruct (git_repository_is_bare r (repos s)) as [| q | q]; try reflexivity.
    destruct q; reflexivity.
  - intros Hcode. unfold git2r_repository_is_shallow. rewrite (bind_value _ _ _ _ _ E).
    run. rewrite Hs. apply Z.ltb_ge in Hcode. rewrite Hcode. run.
    destruct (rc (git_repository_is_shallow r (repos s))) as [| q | q]; try reflexivity.
    destruct q; reflexivity.
  - intros Hcode. unfold git2r_repository_head_detached.
    rewrite (bind_value _ _ _ _ _ E).
    run. rewrite Hs. apply Z.ltb_ge in Hcode. rewrite Hcode. run.
    destruct (rc (git_repository_head_detached r (repos s))) as [| q | q];
      try reflexivity.
    destruct q; reflexivity.
Qed.

End Predicates.

Section Head.
Context `{HelpersMore}.

(** X17: [git2r_repository_head] takes an unborn branch and a HEAD that is
    not found for no head, not for an error: it returns [R_NilValue]. *)
Theorem head_of_unborn_branch_is_null repo s r s1 :
  git2r_repository_open repo s = (Value (Some r), s1) ->
  rc (git_repository_head r (repos s)) = GIT_EUNBORNBRANCH \/
  rc (git_repository_head r (repos s)) = GIT_ENOTFOUND ->
  fst (git2r_repository_head repo s) = Value R_NilValue.
Proof.
  intros E Hcode. unfold git2r_repository_head. rewrite (bind_value _ _ _ _ _ E).
  pose proof (reads_only_git2r_repository_open repo s) as Hs. rewrite E in Hs. simpl in Hs.
  unfold bind at 1. unfold query at 1. rewrite Hs.
  destruct Hcode as [-> | ->]; reflexivity.
Qed.

(** X18: when HEAD is a branch, [git2r_repository_head] returns the S4
    [git_branch] object [git2r_branch_init] fills, told that the branch is
    remote exactly when [git_reference_is_remote] says so. *)
Theorem head_on_branch_is_the_branch repo s r s1 ref :
  git2r_repository_open repo s = (Value (Some r), s1) ->
  rc (git_repository_head r (repos s)) = GIT_OK ->
  out (git_repository_head r (repos s)) = Some ref ->
  git_reference_is_branch ref <> 0 ->
  let type := if git_reference_is_remote ref =? 0 then GIT_BRANCH_LOCAL
              else GIT_BRANCH_REMOTE in
  let filled := git2r_branch_init ref type repo (NEW_OBJECT "git_branch") in
  rc filled = GIT_OK ->
  fst (git2r_repository_head repo s) = Value (out filled).
Proof.
  intros E Hcode Hout Hbranch. cbv zeta. intros Hfilled.
  unfold git2r_repository_head. rewrite (bind_value _ _ _ _ _ E).
  pose proof (reads_only_git2r_repository_open repo s) as Hs. rewrite E in Hs. simpl in Hs.
  run. rewrite Hs, Hcode, Hout. cbn [GIT_OK Z.eqb negb]. run.
  apply Z.eqb_neq in Hbranch. rewrite Hbranch. cbn [negb].
  destruct (git_reference_is_remote ref =? 0); cbn [negb] in *;
    rewrite Hfilled; reflexivity.
Qed.

End Head.

Section Creation.
Context `{HelpersMore}.

(** X19: on arguments the checks accept and a library call that returns
    [GIT_OK], the two routines that create a repository do the same: they
    hand the first string and the first logical to [git_repository_init],
    leave the repositories as the library left them, and return
    [R_NilValue]. *)
Theorem init_routines_agree p ps b bs s :
  git2r_arg_check_string (STRSXP (p :: ps)) = 0 ->
  git2r_arg_check_logical (LGLSXP (b :: bs)) = 0 ->
  rc (fst (git_repository_init p b (repos s))) = GIT_OK ->
  git2r_repository_init (STRSXP (p :: ps)) (LGLSXP (b :: bs)) s
    = init (STRSXP (p :: ps)) (LGLSXP (b :: bs)) s /\
  fst (init (STRSXP (p :: ps)) (LGLSXP (b :: bs)) s) = Value R_NilValue /\
  repos (snd (init (STRSXP (p :: ps)) (LGLSXP (b :: bs)) s))
    = snd (git_repository_init p b (repos s)).
Proof.
  intros Hp Hb Hcode. unfold git2r_repository_init, init.
  rewrite Hp, Hb. cbn [is_nil isString isLogical negb Z.eqb]. run.
  destruct (git_repository_init p b (repos s)) as [[c o e] w]. cbn [fst rc] in Hcode.
  subst c. cbn [GIT_OK Z.eqb Z.ltb Z.compare negb rc out seterr fst snd]. run.
  destruct o; repeat split.
Qed.

(** X20: the routines of [git2r.c] that take a path test its type and not
    its length: an empty character vector passes the tests and the read of
    its first string is undefined; nothing has been done by then. *)
Theorem empty_path_is_read_past_its_end bare s :
  isLogical bare = true ->
  init (STRSXP []) bare s = (Undefined "STRING_ELT: index out of range", s) /\
  is_repository (STRSXP []) s = (Undefined "STRING_ELT: index out of range", s) /\
  (forall repo r s1,
     get_repository repo s = (Value (Some r), s1) ->
     0 <= rc (git_repository_index r (repos s)) ->
     fst (add repo (STRSXP []) s) = Undefined "STRING_ELT: index out of range" /\
     repos (snd (add repo (STRSXP []) s)) = repos s).
Proof.
  intros Hbare. split; [| split].
  - unfold init. destruct bare; try discriminate. reflexivity.
  - reflexivity.
  - intros repo r s1 E Hrc. unfold add. cbn [is_nil isString negb].
    rewrite (bind_value _ _ _ _ _ E).
    pose proof (reads_only_get_repository repo s) as Hs. rewrite E in Hs. simpl in Hs.
    apply Z.ltb_ge in Hrc. run. rewrite Hs, Hrc. split; [reflexivity | exact Hs].
Qed.

End Creation.

Section NotesMore.
Context `{HelpersMore}.

(** X21: the reference [git2r_note_default_ref] returns, passed to
    [git2r_note_list], lists what [git2r_note_list] lists without a
    reference, outcome and state alike, when the library reports the
    default reference without touching its error record. *)
Theorem note_list_of_default_ref repo s r s1 ref s2 :
  git2r_repository_open repo s = (Value (Some r), s1) ->
  seterr (git_note_default_ref r (repos s)) = None ->
  git2r_note_default_ref repo s = (Value ref, s2) ->
  git2r_error_check_string_arg ref = 0 ->
  git2r_note_list repo ref s = git2r_note_list repo R_NilValue s.
Proof.
  intros E Hquiet Hdef Hcheck.
  pose proof (reads_only_git2r_repository_open repo s) as Hs. rewrite E in Hs. simpl in Hs.
  revert Hdef. unfold git2r_note_default_ref. rewrite (bind_value _ _ _ _ _ E).
  unfold bind at 1. unfold query at 1. rewrite Hs.
  destruct (git_note_default_ref r (repos s)) as [c name e] eqn:Edef.
  cbn [seterr] in Hquiet. subst e. cbn [rc out seterr]. rewrite record_error_None.
  destruct (c <? 0) eqn:Ec.
  { run. destruct (giterr s1); discriminate. }
  destruct name as [name |]; [| discriminate]. run.
  intros Hdef. injection Hdef as <- <-.
  unfold git2r_note_list. cbv zeta. cbn [is_nil negb]. rewrite Hcheck.
  change (negb (0 =? 0)) with false. cbv iota.
  change (r0 <- STRING_ELT (STRSXP [name]) 0 ;; ret (Some r0))
    with (@ret _ (option string) (Some name)).
  unfold bind at 1. unfold ret at 1. rewrite (bind_value _ _ _ _ _ E).
  symmetry. unfold bind at 1. unfold ret at 1. rewrite (bind_value _ _ _ _ _ E).
  unfold bind at 1. unfold bind at 1. unfold query at 1.
  rewrite Hs, Edef. cbn [rc out seterr]. rewrite record_error_None, Ec.
  reflexivity.
Qed.

Lemma note_object_repo repo notes_ref blob annotated msg s :
  GET_SLOT (note_object repo notes_ref blob annotated msg) "repo" s = (Value repo, s).
Proof. reflexivity. Qed.

Lemma note_object_annotated repo notes_ref blob annotated msg s :
  GET_SLOT (note_object repo notes_ref blob annotated msg) "annotated" s
  = (Value (STRSXP [git_oid_fmt annotated]), s).
Proof. reflexivity. Qed.

Lemma note_object_refname repo notes_ref blob annotated msg s :
  GET_SLOT (note_object repo notes_ref blob annotated msg) "refname" s
  = (Value (STRSXP [notes_ref]), s).
Proof. reflexivity. Qed.

(** X22: [git2r_note_remove] on a note object as [git2r_note_init] builds
    it removes, in the repository of the object's [repo] slot and on the
    reference of its [refname] slot, the note of the object its [annotated]
    slot names, provided the hex id reads back as the id it was printed
    from.  The call returns [R_NilValue] when the library call succeeds and
    raises the library's message when it fails. *)
Theorem note_remove_targets_annotated_object
    repo notes_ref blob annotated msg author committer s r s1 sa sc :
  let note := note_object repo notes_ref blob annotated msg in
  git2r_error_check_note_arg note = 0 ->
  git2r_error_check_signature_arg author = 0 ->
  git2r_error_check_signature_arg committer = 0 ->
  git2r_repository_open repo s = (Value (Some r), s1) ->
  0 <= rc (git2r_signature_from_arg author) ->
  out (git2r_signature_from_arg author) = Some sa ->
  0 <= rc (git2r_signature_from_arg committer) ->
  out (git2r_signature_from_arg committer) = Some sc ->
  0 <= rc (git_oid_fromstr (git_oid_fmt annotated)) ->
  out (git_oid_fromstr (git_oid_fmt annotated)) = Some annotated ->
  let removed := git_note_remove r notes_ref sa sc annotated (repos s) in
  repos (snd (git2r_note_remove note author committer s)) = snd removed /\
  (0 <= rc (fst removed) ->
   fst (git2r_note_remove note author committer s) = Value R_NilValue) /\
  (rc (fst removed) < 0 -> forall e, seterr (fst removed) = Some e ->
   fst (git2r_note_remove note author committer s)
     = Rf_error "Error: %s\n" [arg_s (message e)]).
Proof.
  cbv zeta. intros Hnote Hauthor Hcommitter E Hra Hsa Hrc Hsc Hro Hoid.
  pose proof (reads_only_git2r_repository_open repo s) as Hs. rewrite E in Hs. simpl in Hs.
  apply Z.ltb_ge in Hra, Hrc, Hro.
  destruct (git_note_remove r notes_ref sa sc annotated (repos s)) as [[c [] e] w] eqn:Erm.
  cbn [fst snd rc seterr].
  set (s3 := record_error (seterr (git_oid_fromstr (git_oid_fmt annotated)))
               (record_error (seterr (git2r_signature_from_arg committer))
                  (record_error (seterr (git2r_signature_from_arg author)) s1))).
  set (g := match e with Some e => Some e | None => giterr s3 end).
  assert (Hrun :
    git2r_note_remove (note_object repo notes_ref blob annotated msg) author committer s
    = (if c <? 0 then
         match g with
         | Some e0 => Rf_error "Error: %s\n" [arg_s (message e0)]
         | None => Undefined "giterr_last() is NULL"
         end
       else Value R_NilValue,
       {| repos := w; giterr := g |})).
  { unfold git2r_note_remove. rewrite Hnote, Hauthor, Hcommitter.
    cbn [Z.eqb negb orb].
    rewrite (bind_value _ _ _ _ _ (note_object_repo _ _ _ _ _ _)).
    rewrite (bind_value _ _ _ _ _ E).
    unfold bind at 1. unfold bind at 1. unfold query at 1. cbn [rc out seterr].
    rewrite Hra, Hsa.
    unfold bind at 1. unfold query at 1. cbn [rc out seterr]. rewrite Hrc, Hsc.
    rewrite (bind_value _ _ _ _ _ (note_object_annotated _ _ _ _ _ _)).
    unfold bind at 1. unfold STRING_ELT at 1. cbn [nth_error]. unfold ret at 1.
    unfold bind at 1. unfold query at 1. cbn [rc out seterr]. rewrite Hro, Hoid.
    rewrite (bind_value _ _ _ _ _ (note_object_refname _ _ _ _ _ _)).
    unfold bind at 1. unfold STRING_ELT at 1. cbn [nth_error]. unfold ret at 1.
    fold s3. unfold bind at 1. unfold update at 1.
    change (repos s3) with (repos s1). rewrite Hs, Erm.
    cbn [rc out seterr]. run.
    change (record_error e {| repos := w; giterr := giterr s3 |})
      with {| repos := w; giterr := g |}.
    cbn [giterr]. clearbody g. destruct (c <? 0); [destruct g |]; reflexivity. }
  rewrite Hrun. cbn [fst snd repos].
  destruct (Z.ltb_spec c 0) as [Hc | Hc].
  - split; [reflexivity | split].
    + intros Hc'. lia.
    + intros _ e' ->. reflexivity.
  - split; [reflexivity | split].
    + reflexivity.
    + intros Hc'. lia.
Qed.

End NotesMore.

Section UnwrittenArrays.
Context `{HelpersMore}.

(** X23: [references] and [remotes] hand to [git_strarray_free] an array
    they have not initialised: when the listing fails without having
    written it, the call is undefined.  [tags] initialises its array, and
    raises the library's error in the same situation. *)
Theorem failed_listing_frees_unwritten_array repo s r s1 :
  get_repository repo s = (Value (Some r), s1) ->
  (rc (git_reference_list r (repos s)) < 0 ->
   out (git_reference_list r (repos s)) = None ->
   fst (references repo s) = Undefined "git_strarray_free on an array never written") /\
  (rc (git_remote_list r (repos s)) < 0 ->
   out (git_remote_list r (repos s)) = None ->
   fst (remotes repo s) = Undefined "git_strarray_free on an array never written") /\
  (rc (git_tag_list r (repos s)) < 0 ->
   out (git_tag_list r (repos s)) = None ->
   forall e, seterr (git_tag_list r (repos s)) = Some e ->
   fst (tags repo s) = Rf_error "Error %d: %s\n" [arg_d (klass e); arg_s (message e)]).
Proof.
  intros E.
  pose proof (reads_only_get_repository repo s) as Hs. rewrite E in Hs. simpl in Hs.
  split; [| split].
  - intros Hrc Hout. unfold references. rewrite (bind_value _ _ _ _ _ E).
    run. rewrite Hs. apply Z.ltb_lt in Hrc. rewrite Hrc, Hout. reflexivity.
  - intros Hrc Hout. unfold remotes. rewrite (bind_value _ _ _ _ _ E).
    run. rewrite Hs. apply Z.ltb_lt in Hrc. rewrite Hrc, Hout. reflexivity.
  - intros Hrc Hout e He. unfold tags. rewrite (bind_value _ _ _ _ _ E).
    run. rewrite Hs. apply Z.ltb_lt in Hrc. rewrite Hrc. run. rewrite Hrc.
    cbn [giterr record_error]. rewrite He. reflexivity.
Qed.

End UnwrittenArrays.

(** * The error paths on a library whose calls fail *)

Section FailingCalls.
Import Failing.

Lemma anywhere_gets : get_repository anywhere blank = (Value (Some "/anywhere"), blank).
Proof. reflexivity. Qed.

Lemma anywhere_opens :
  git2r_repository_open anywhere blank = (Value (Some "/anywhere"), blank).
Proof. reflexivity. Qed.

Lemma revisions_takes_failed_test_for_empty_witness :
  rc (git_repository_is_empty "/anywhere" (repos blank)) = -1 /\
  revisions anywhere blank
  = (Value (VECSXP [] None), {| repos := tt; giterr := Some refused |}).
Proof.
  assert (Hcode : rc (git_repository_is_empty "/anywhere" (repos blank)) <> 0)
    by discriminate.
  split; [reflexivity |].
  exact (revisions_takes_failed_test_for_empty anywhere blank "/anywhere" blank
           anywhere_gets Hcode).
Defined.

Lemma emptiness_tests_part_on_failure_witness :
  rc (git_repository_is_empty "/anywhere" (repos blank)) < 0 /\
  is_empty anywhere blank
  = (Value (ScalarLogical 1), {| repos := tt; giterr := Some refused |}) /\
  (forall v, fst (git2r_repository_is_empty anywhere blank) <> Value v) /\
  fst (git2r_repository_is_empty anywhere blank)
  = Rf_error "Error in '%s': %s" [arg_s "git2r_repository_is_empty"; arg_s "refused"].
Proof.
  assert (Hraise : forall format func arg (s0 : rstate),
            exists f args, git2r_error format func arg s0 = (Rf_error f args, s0)).
  { intros format func arg s0. eexists _, _. reflexivity. }
  assert (Hcode : rc (git_repository_is_empty "/anywhere" (repos blank)) < 0)
    by reflexivity.
  destruct (emptiness_tests_part_on_failure anywhere blank "/anywhere" blank
              Hraise anywhere_opens) as (Hold & _ & Hnew & Hmsg).
  split; [exact Hcode |]. split; [| split].
  - apply Hold. discriminate.
  - exact (Hnew Hcode).
  - exact (f_equal fst (Hmsg Hcode refused eq_refl)).
Defined.

Lemma failed_listing_frees_unwritten_array_witness :
  fst (references anywhere blank) = Undefined "git_strarray_free on an array never written" /\
  fst (remotes anywhere blank) = Undefined "git_strarray_free on an array never written" /\
  fst (tags anywhere blank) = Rf_error "Error %d: %s\n" [arg_d 1; arg_s "refused"].
Proof.
  destruct (failed_listing_frees_unwritten_array anywhere blank "/anywhere" blank
              anywhere_gets) as (Hrefs & Hrems & Htags).
  split; [| split].
  - apply Hrefs; reflexivity.
  - apply Hrems; reflexivity.
  - exact (Htags eq_refl eq_refl refused eq_refl).
Defined.

End FailingCalls.

(** * The binding against the modelled library *)

Import Model.

(** ** The search behind [is_descendant_of] *)

Section Search.
Variable store : gmap ObjectId Object.
#[local] Set Warnings "-clear-no-such-hyp".

Lemma elem_of_parents_of (frontier : gset ObjectId) (p : ObjectId) :
  p ∈ parents_of store frontier <->
  exists c ps, c ∈ frontier /\ commit_parents store c = Some ps /\ p ∈ ps.
Proof.
  unfold parents_of. rewrite elem_of_set_bind. split.
  - intros (c & Hc & Hp). destruct (commit_parents store c) as [ps|] eqn:E; simpl in Hp.
    + rewrite elem_of_list_to_set in Hp. eauto.
    + set_solver.
  - intros (c & ps & Hc & E & Hp). exists c. split; [assumption|].
    rewrite E. simpl. now rewrite elem_of_list_to_set.
Qed.

Lemma commit_parents_dom (c : ObjectId) ps :
  commit_parents store c = Some ps -> c ∈ dom store.
Proof.
  unfold commit_parents. intros E. apply elem_of_dom.
  destruct (store !! c); [eauto | discriminate].
Qed.

Lemma parent_chain_source c a :
  parent_chain store c a -> exists ps, commit_parents store c = Some ps.
Proof. intros [? ps ? E _ | ? ps ? ? E _ _]; eauto. Qed.

Lemma parent_chain_snoc c x ps a :
  parent_chain store c x -> commit_parents store x = Some ps -> a ∈ ps ->
  parent_chain store c a.
Proof.
  intros Hc Hx Ha. induction Hc as [c qs x Hq Hin | c qs p x Hq Hin _ IH].
  - eapply chain_step; eauto. eapply chain_parent; eauto.
  - eapply chain_step; eauto.
Qed.

(** A set of commits closed under parents that meets [target] in no parent
    list has no chain to [target]. *)
Lemma closed_set_no_chain (visited : gset ObjectId) (target : ObjectId) :
  (forall x ps p, x ∈ visited -> commit_parents store x = Some ps -> p ∈ ps ->
                  p <> target /\ (p ∈ dom store -> p ∈ visited)) ->
  forall x, x ∈ visited -> ~ parent_chain store x target.
Proof.
  intros Hclosed x Hx Hchain.
  remember target as a eqn:Ea.
  induction Hchain as [c ps a E Hin | c ps p a E Hin Hrest IH].
  - destruct (Hclosed c ps a Hx E Hin) as [Hne _]. congruence.
  - destruct (Hclosed c ps p Hx E Hin) as [_ Hv].
    assert (p ∈ visited) as Hp.
    { apply Hv. destruct (parent_chain_source _ _ Hrest) as [qs Hq].
      eapply commit_parents_dom; eauto. }
    auto.
Qed.

Section Invariant.
Variables (c target : ObjectId).

Lemma search_invariant_step visited frontier :
  search_invariant store c target visited frontier ->
  target ∉ parents_of store frontier ->
  let fresh := (parents_of store frontier ∩ dom store) ∖ visited in
  search_invariant store c target (visited ∪ fresh) fresh.
Proof.
  intros (Hc & Hfv & Hvd & Hsound & Hclosed) Hnot fresh.
  split; [set_solver|]. split; [set_solver|]. split; [subst fresh; set_solver|]. split.
  - intros x [Hx | Hx]%elem_of_union; [auto|].
    subst fresh. apply elem_of_difference in Hx as [Hx _].
    apply elem_of_intersection in Hx as [Hx _].
    apply elem_of_parents_of in Hx as (y & ps & Hy & E & Hin).
    right. destruct (Hsound y (Hfv y Hy)) as [-> | Hch].
    + eapply chain_parent; eauto.
    + eapply parent_chain_snoc; eauto.
  - intros x ps p Hx Hnew E Hin.
    assert (x ∈ visited) as Hv.
    { apply elem_of_union in Hx as [Hx | Hx]; [assumption | contradiction]. }
    destruct (decide (x ∈ frontier)) as [Hf | Hf].
    + split.
      * intros ->. apply Hnot. apply elem_of_parents_of. eauto.
      * intros Hd. destruct (decide (p ∈ visited)) as [Hp | Hp]; [set_solver|].
        apply elem_of_union. right. subst fresh.
        apply elem_of_difference. split; [| assumption].
        apply elem_of_intersection. split; [| assumption].
        apply elem_of_parents_of. eauto.
    + destruct (Hclosed x ps p Hv Hf E Hin) as [Hne Hin'].
      split; [assumption|]. intros Hd. apply elem_of_union. left. auto.
Qed.

Lemma search_sound fuel visited frontier :
  search_invariant store c target visited frontier ->
  search store target fuel visited frontier = true ->
  parent_chain store c target.
Proof.
  revert visited frontier. induction fuel as [| fuel IH]; intros visited frontier Hinv; simpl.
  - discriminate.
  - destruct (decide (target ∈ parents_of store frontier)) as [Hin | Hnot].
    + intros _. destruct Hinv as (_ & Hfv & _ & Hsound & _).
      apply elem_of_parents_of in Hin as (y & ps & Hy & E & Hin).
      destruct (Hsound y (Hfv y Hy)) as [-> | Hch].
      * eapply chain_parent; eauto.
      * eapply parent_chain_snoc; eauto.
    + destruct (decide (_ = ∅)) as [_ | _]; [discriminate|].
      apply IH. now apply search_invariant_step.
Qed.

Lemma search_complete fuel visited frontier :
  search_invariant store c target visited frontier ->
  (size (dom store ∖ visited) < fuel)%nat ->
  parent_chain store c target ->
  search store target fuel visited frontier = true.
Proof.
  revert visited frontier. induction fuel as [| fuel IH];
    intros visited frontier Hinv Hfuel Hchain; simpl.
  - lia.
  - destruct (decide (target ∈ parents_of store frontier)) as [Hin | Hnot]; [reflexivity|].
    destruct (decide (_ = ∅)) as [Hempty | Hfresh].
    + exfalso. destruct Hinv as (Hc & Hfv & Hvd & Hsound & Hclosed).
      apply (closed_set_no_chain visited target) with (x := c); [| assumption | assumption].
      intros x ps p Hx E Hin.
      destruct (decide (x ∈ frontier)) as [Hf | Hf].
      * split.
        -- intros ->. apply Hnot. apply elem_of_parents_of. eauto.
        -- intros Hd. destruct (decide (p ∈ visited)) as [Hv | Hv]; [assumption|].
           exfalso. assert (p ∈ (parents_of store frontier ∩ dom store) ∖ visited) as Hp.
           { apply elem_of_difference. split; [| assumption].
             apply elem_of_intersection. split; [| assumption].
             apply elem_of_parents_of. eauto. }
           rewrite Hempty in Hp. set_solver.
      * eapply Hclosed; eauto.
    + apply IH; [now apply search_invariant_step | | assumption].
      set (fresh := (parents_of store frontier ∩ dom store) ∖ visited) in *.
      assert (Hsub : dom store ∖ (visited ∪ fresh) ⊂ dom store ∖ visited).
      { apply set_choose_L in Hfresh as [y Hy].
        split; [set_solver|]. intros Hsub.
        assert (y ∈ dom store ∖ visited) as Hy' by (subst fresh; set_solver).
        apply Hsub in Hy'. set_solver. }
      apply subset_size in Hsub. lia.
Qed.

End Invariant.

Lemma search_invariant_start c target :
  c ∈ dom store -> search_invariant store c target {[c]} {[c]}.
Proof.
  intros Hc. unfold search_invariant.
  split; [set_solver|]. split; [set_solver|]. split; [set_solver|].
  split; [set_solver|]. intros x ps p Hx Hnf. contradiction.
Qed.

(** The modelled [is_descendant_of] decides the parent chain. *)
Lemma is_descendant_of_spec c a ps qs :
  commit_parents store c = Some ps -> commit_parents store a = Some qs ->
  (c = a -> is_descendant_of store c a = Some false) /\
  (c <> a -> parent_chain store c a -> is_descendant_of store c a = Some true) /\
  (~ parent_chain store c a -> is_descendant_of store c a = Some false).
Proof.
  intros Hc Ha. unfold is_descendant_of. rewrite Hc, Ha.
  pose proof (commit_parents_dom _ _ Hc) as Hd.
  pose proof (search_invariant_start c a Hd) as Hinv.
  repeat split.
  - intros ->. now destruct (decide (a = a)).
  - intros Hne Hchain. destruct (decide (c = a)); [contradiction|].
    f_equal. eapply search_complete; eauto.
    assert (dom store ∖ {[c]} ⊂ dom store) as Hsub by set_solver.
    apply subset_size in Hsub. lia.
  - intros Hno. destruct (decide (c = a)); [reflexivity|].
    f_equal. destruct (search store a _ _ _) eqn:E; [| reflexivity].
    exfalso. apply Hno. eapply search_sound; eauto.
Qed.

End Search.

(** ** Discovery *)

Section Discover.
Variable w : World.

Lemma discover_up_unfold across_fs rev_dir :
  discover_up w across_fs rev_dir =
    if is_repository_at w (rev rev_dir) then Some (rev rev_dir)
    else
      match rev_dir with
      | [] => None
      | _ :: parent =>
          if negb across_fs && bool_decide (rev rev_dir ∈ mounts w) then None
          else discover_up w across_fs parent
      end.
Proof. destruct rev_dir; reflexivity. Qed.

Lemma is_repository_at_true d :
  is_repository_at w d = true <-> is_Some (repositories w !! d).
Proof. unfold is_repository_at. apply bool_decide_eq_true. Qed.

Lemma is_repository_at_false d :
  is_repository_at w d = false <-> repositories w !! d = None.
Proof.
  unfold is_repository_at. rewrite bool_decide_eq_false. symmetry. apply eq_None_not_Some.
Qed.

Lemma app_snoc_split {A} (mid rest l : list A) (x : A) :
  app mid rest = app l [x] ->
  (rest = [] /\ mid = app l [x]) \/ (exists rest', rest = app rest' [x] /\ app mid rest' = l).
Proof.
  intros E. destruct rest as [| y rest _] using rev_ind.
  - left. rewrite app_nil_r in E. auto.
  - right. rewrite app_assoc in E. apply app_inj_tail in E as [E ->]. eauto.
Qed.

Lemma discover_up_found d below :
  is_Some (repositories w !! d) ->
  (forall mid rest, below = app mid rest -> mid <> [] ->
     repositories w !! (app d mid) = None /\ app d mid ∉ mounts w) ->
  discover_up w false (rev (app d below)) = Some d.
Proof.
  intros Hd. induction below as [| x below IH] using rev_ind; intros Hway.
  - rewrite app_nil_r, discover_up_unfold, rev_involutive.
    apply is_repository_at_true in Hd. now rewrite Hd.
  - destruct (Hway (app below [x]) []) as [Hnone Hmount].
    { now rewrite app_nil_r. }
    { intros E. now apply app_eq_nil in E as [_ E]. }
    rewrite discover_up_unfold, rev_involutive.
    apply is_repository_at_false in Hnone. rewrite Hnone.
    rewrite app_assoc, rev_unit. simpl negb. rewrite andb_true_l.
    rewrite <- app_assoc. rewrite bool_decide_eq_false_2 by assumption.
    apply IH.
    intros mid rest E Hmid. apply (Hway mid (app rest [x])); [| assumption].
    rewrite E. now rewrite app_assoc.
Qed.

Lemma discover_up_nearest rev_dir d :
  discover_up w false rev_dir = Some d -> nearest_repository w (rev rev_dir) d.
Proof.
  revert d. induction rev_dir as [| x parent IH]; intros d; rewrite discover_up_unfold.
  - destruct (is_repository_at w (rev [])) eqn:E; [| discriminate].
    intros [= <-]. exists []. split; [reflexivity|]. split.
    + now apply is_repository_at_true.
    + intros mid rest Hnil Hmid. symmetry in Hnil. apply app_eq_nil in Hnil as [? _]. contradiction.
  - destruct (is_repository_at w (rev (x :: parent))) eqn:E.
    + intros [= <-]. exists []. split; [now rewrite app_nil_r|]. split.
      * now apply is_repository_at_true.
      * intros mid rest Hnil Hmid. symmetry in Hnil. apply app_eq_nil in Hnil as [? _].
        contradiction.
    + simpl negb. rewrite andb_true_l.
      destruct (bool_decide (rev (x :: parent) ∈ mounts w)) eqn:Em; [discriminate|].
      intros Hup. destruct (IH d Hup) as (below & Hdir & Hrepo & Hway).
      exists (app below [x]). split; [| split; [assumption|]].
      * simpl. rewrite Hdir. now rewrite app_assoc.
      * intros mid rest Hsplit Hmid. symmetry in Hsplit.
        apply app_snoc_split in Hsplit as [[-> ->] | (rest' & -> & Hl)].
        -- rewrite app_assoc, <- Hdir. change (app (rev parent) [x]) with (rev (x :: parent)).
           split; [now apply is_repository_at_false|].
           now apply bool_decide_eq_false in Em.
        -- apply (Hway mid rest'); [now symmetry | assumption].
Qed.

Lemma discover_nearest start d :
  discover w false start = Some d <-> nearest_repository w (parse_path start) d.
Proof.
  unfold discover. split.
  - intros Hup. apply discover_up_nearest in Hup. now rewrite rev_involutive in Hup.
  - intros (below & -> & Hrepo & Hway). now apply discover_up_found.
Qed.

End Discover.

Section DiscoverBinding.
Context (Hp : @Helpers Model.lib).

(** C6: [git2r_repository_discover] walks up from the start path through the
    parent directories, stops where the filesystem device changes, returns
    the location of the nearest repository found on the way, and returns
    [R_NilValue], not an error, when there is none. *)
Theorem discover_walks_up_to_nearest_repository (p : string) (rest : list string) (s : rstate) :
  git2r_arg_check_string (STRSXP (p :: rest)) = 0 ->
  (forall d, nearest_repository (repos s) (parse_path p) d ->
     fst (git2r_repository_discover (STRSXP (p :: rest)) s) = Value (STRSXP [render_path d])) /\
  ((forall d, ~ nearest_repository (repos s) (parse_path p) d) ->
     fst (git2r_repository_discover (STRSXP (p :: rest)) s) = Value R_NilValue).
Proof.
  intros Hcheck.
  assert (Hrun : fst (git2r_repository_discover (STRSXP (p :: rest)) s) =
                 match discover (repos s) false p with
                 | Some d => Value (STRSXP [render_path d])
                 | None => Value R_NilValue
                 end).
  { unfold git2r_repository_discover. rewrite Hcheck.
    change (negb (0 =? 0)) with false. run.
    change (@git_repository_discover lib) with repository_discover.
    unfold repository_discover. change (negb (0 =? 0)) with false.
    destruct (discover (repos s) false p) as [d|]; reflexivity. }
  split.
  - intros d Hd. apply discover_nearest in Hd. now rewrite Hrun, Hd.
  - intros Hnone. rewrite Hrun.
    destruct (discover (repos s) false p) as [d|] eqn:E; [| reflexivity].
    exfalso. apply (Hnone d). now apply discover_nearest.
Qed.

End DiscoverBinding.

(** ** Descendants *)

Section DescendantBinding.
Context (Hp : @Helpers Model.lib).

(** C1: on two commits of an open repository [git2r_graph_descendant_of]
    answers [FALSE] when both ids are the same commit, and [TRUE] when the
    ancestor is reached from the commit by following parent links (any
    parent); it answers [FALSE] when there is no such chain. *)
Theorem descendant_of_follows_parent_chain
    (s : rstate) (cls cls' : list string) (slots slots' : list (string * SEXP))
    (repo hexc hexa : SEXP) (h : Path) (r : Repository) (ps qs : list ObjectId) :
  slot_lookup "repo" slots = Some repo ->
  slot_lookup "hex" slots = Some hexc ->
  slot_lookup "hex" slots' = Some hexa ->
  fst (git2r_repository_open repo s) = Value (Some h) ->
  repositories (repos s) !! h = Some r ->
  commit_parents (repo_objects r) (git2r_oid_from_hex_sexp hexc) = Some ps ->
  commit_parents (repo_objects r) (git2r_oid_from_hex_sexp hexa) = Some qs ->
  let c := git2r_oid_from_hex_sexp hexc in
  let a := git2r_oid_from_hex_sexp hexa in
  let answer := fst (git2r_graph_descendant_of (S4SXP cls slots) (S4SXP cls' slots') s) in
  (c = a -> answer = Value (ScalarLogical 0)) /\
  (c <> a -> parent_chain (repo_objects r) c a -> answer = Value (ScalarLogical 1)) /\
  (~ parent_chain (repo_objects r) c a -> answer = Value (ScalarLogical 0)).
Proof.
  intros Hrepo Hhexc Hhexa Hopen Hr Hc Ha. cbv zeta.
  remember (git2r_oid_from_hex_sexp hexc) as c eqn:Ec.
  remember (git2r_oid_from_hex_sexp hexa) as a eqn:Ea.
  set (answer := fst (git2r_graph_descendant_of _ _ s)).
  pose proof (reads_only_git2r_repository_open repo s) as Hs.
  destruct (git2r_repository_open repo s) as [orp s1] eqn:Er. simpl in Hopen, Hs. subst orp.
  assert (Hrun : answer =
                 match is_descendant_of (repo_objects r) c a with
                 | Some true => Value (ScalarLogical 1)
                 | Some false => Value (ScalarLogical 0)
                 | None => Rf_error "Error: %s\n" [arg_s ("InvalidArgument: " ++ c ++ " " ++ a)]
                 end).
  { subst answer. unfold git2r_graph_descendant_of, GET_SLOT.
    rewrite Hrepo. rewrite (bind_value (ret repo) _ s s repo eq_refl).
    rewrite (bind_value _ _ _ _ _ Er). rewrite Hhexc, Hhexa. run.
    rewrite <- Ec, <- Ea.
    change (@git_graph_descendant_of lib) with graph_descendant_of.
    unfold graph_descendant_of. rewrite Hs, Hr.
    destruct (is_descendant_of (repo_objects r) c a) as [[|]|]; reflexivity. }
  destruct (is_descendant_of_spec (repo_objects r) c a ps qs Hc Ha) as (Hsame & Hchain & Hnone).
  rewrite Hrun. repeat split.
  - intros E. now rewrite (Hsame E).
  - intros Hne Hch. now rewrite (Hchain Hne Hch).
  - intros Hno. now rewrite (Hnone Hno).
Qed.

End DescendantBinding.

(** ** Notes *)

Section OpenAgain.
Context (Hp : @Helpers Model.lib).

(** Against the model [git2r_repository_open] either ends without looking at
    the state, or comes down to one lookup of the path it read from the
    object. *)
Lemma git2r_repository_open_plan (repo : SEXP) :
  exists plan : outcome (option Path) + string,
    forall s : rstate,
      git2r_repository_open repo s =
        match plan with
        | inl o => (o, s)
        | inr p =>
            match repositories (repos s) !! parse_path p with
            | Some _ => (Value (Some (parse_path p)), s)
            | None =>
                (Value None,
                 record_error (seterr (fail NotFound p (@None Path))) s)
            end
        end.
Proof.
  unfold git2r_repository_open.
  destruct repo as [| | | | | class slots];
    try (exists (inl (Value None)); reflexivity).
  cbn [is_nil is_S4 negb orb getAttrib_class].
  destruct class as [| c0 class].
  { exists (inl (Undefined "STRING_ELT: index out of range")). reflexivity. }
  run. destruct (String.eqb c0 "git_repository"); cbn [negb];
    [| exists (inl (Value None)); reflexivity].
  destruct (slot_lookup "path" slots) as [path |];
    [| eexists (inl _); reflexivity].
  destruct (git2r_arg_check_string path =? 0); cbn [negb];
    [| exists (inl (Value None)); reflexivity].
  destruct path as [| | | v | |]; try (eexists (inl _); reflexivity).
  destruct v as [| p v]; [eexists (inl _); reflexivity |].
  exists (inr p). intros s.
  change (@git_repository_open lib) with repository_open. unfold repository_open.
  destruct (repositories (repos s) !! parse_path p); [| reflexivity].
  unfold ok. cbn [rc out seterr Z.ltb Z.compare]. now rewrite record_error_None.
Qed.

Lemma git2r_repository_open_again (repo : SEXP) (s s' : rstate) (h : Path) :
  fst (git2r_repository_open repo s) = Value (Some h) ->
  is_Some (repositories (repos s') !! h) ->
  git2r_repository_open repo s' = (Value (Some h), s').
Proof.
  destruct (git2r_repository_open_plan repo) as [[o | p] Hplan];
    rewrite !Hplan; simpl.
  - now intros ->.
  - destruct (repositories (repos s) !! parse_path p); simpl; [| discriminate].
    intros [= <-] [r' ->]. reflexivity.
Qed.

End OpenAgain.

Section NoteTree.
Context (Hp : @Helpers Model.lib).

(** The entries of a note tree, as [git_note_foreach] visits them. *)
Lemma filter_unique_key (tree : gmap ObjectId Note) (x : ObjectId) (note : Note)
    (mk : ObjectId * Note -> SEXP) (keep : SEXP -> bool) :
  tree !! x = Some note ->
  (forall a n, keep (mk (a, n)) = String.eqb a x) ->
  List.filter keep (map mk (map_to_list tree)) = [mk (x, note)].
Proof.
  intros Hx Hkeep.
  pose proof (NoDup_fst_map_to_list tree) as Hnd.
  assert (Hin : (x, note) ∈ map_to_list tree) by now apply elem_of_map_to_list.
  induction (map_to_list tree) as [| [a n] l IH]; [inversion Hin|].
  simpl in Hnd. apply NoDup_cons in Hnd as [Hnotin Hnd].
  simpl. rewrite Hkeep.
  apply elem_of_cons in Hin as [[= <- <-] | Hin].
  - rewrite String.eqb_refl. f_equal.
    clear IH. induction l as [| [a' n'] l IHl]; [reflexivity|].
    simpl. rewrite Hkeep.
    destruct (String.eqb_spec a' x) as [-> | _].
    + exfalso. apply Hnotin. simpl. left.
    + apply IHl. { intros Hc. apply Hnotin. simpl. now right. }
      now apply NoDup_cons in Hnd as [_ Hnd].
  - destruct (String.eqb_spec a x) as [-> | _].
    + exfalso. apply Hnotin. apply list_elem_of_fmap. now exists (x, note).
    + now apply IH.
Qed.

End NoteTree.

Section NoteCreate.
Context (Hp : @Helpers Model.lib).

Lemma note_read_in_tree (w : World) (h : Path) (r : Repository) (rf : string)
    (x : ObjectId) (n : Note) (tree : gmap ObjectId Note) :
  repositories w !! h = Some r ->
  notes_tree r rf = Some tree ->
  tree !! x = Some n ->
  note_read h rf x w = ok (Some n).
Proof. intros Hr Ht Hx. unfold note_read. now rewrite Hr, Ht, Hx. Qed.

Lemma notes_tree_with_note (r : Repository) (rf : string) (x blob : ObjectId) (m : string) :
  notes_tree (with_note r rf x blob m) rf =
    Some (<[x := {| note_blob := blob; note_message := m |}]>
            (default ∅ (notes_tree r rf))).
Proof. unfold notes_tree at 1, with_note. cbn [repo_notes]. now rewrite lookup_insert_eq. Qed.

Lemma note_create_run
    (s : rstate) (repo author committer : SEXP) (h : Path) (r : Repository)
    (hx m rf : string) (f : Z) (x : ObjectId) (sa sc : Signature)
    (tree : gmap ObjectId Note) (old : Note) :
  git2r_arg_check_hex (STRSXP [hx]) = 0 ->
  git2r_error_check_string_arg (STRSXP [m]) = 0 ->
  git2r_error_check_string_arg (STRSXP [rf]) = 0 ->
  git2r_error_check_signature_arg author = 0 ->
  git2r_error_check_signature_arg committer = 0 ->
  git2r_error_check_logical_arg (LGLSXP [f]) = 0 ->
  0 <= rc (git2r_signature_from_arg author) ->
  out (git2r_signature_from_arg author) = Some sa ->
  0 <= rc (git2r_signature_from_arg committer) ->
  out (git2r_signature_from_arg committer) = Some sc ->
  oid_decode hx = Some x ->
  fst (git2r_repository_open repo s) = Value (Some h) ->
  repositories (repos s) !! h = Some r ->
  repo_writable r = true ->
  notes_tree r rf = Some tree ->
  tree !! x = Some old ->
  exists e,
    git2r_note_create repo (STRSXP [hx]) (STRSXP [m]) (STRSXP [rf]) author committer
                      (LGLSXP [f]) s =
      if f =? 0 then
        (Rf_error "Error: %s\n" [arg_s ("AlreadyExists: " ++ x)],
         {| repos := repos s;
            giterr := Some {| klass := 4; message := "AlreadyExists: " ++ x |} |})
      else
        (Value (note_object repo rf (digest (repos s) m) x m),
         {| repos := {| repositories :=
                          <[h := with_note r rf x (digest (repos s) m) m]>
                            (repositories (repos s));
                        mounts := mounts (repos s);
                        network := network (repos s);
                        digest := digest (repos s) |};
            giterr := e |}).
Proof.
  intros Hhex Hmsg Href Hauthor Hcommitter Hforce Hrca Hsa Hrcc Hsc Hx Hopen Hr Hw Htree Hold.
  pose proof (reads_only_git2r_repository_open repo s) as Hs.
  destruct (git2r_repository_open repo s) as [orp s1] eqn:Er. simpl in Hopen, Hs. subst orp.
  unfold git2r_note_create.
  rewrite Hhex, Hmsg, Href, Hauthor, Hcommitter, Hforce.
  change (negb (0 =? 0)) with false. cbn [orb].
  rewrite (bind_value _ _ _ _ _ Er).
  destruct (git2r_signature_from_arg author) as [rca oa ea].
  destruct (git2r_signature_from_arg committer) as [rcc oc ec].
  cbn [rc out] in Hrca, Hsa, Hrcc, Hsc. subst oa oc.
  run.
  rewrite (proj2 (Z.ltb_ge rca 0) Hrca), (proj2 (Z.ltb_ge rcc 0) Hrcc).
  change (@git_oid_fromstr lib hx) with
    (match oid_decode hx with
     | Some o => ok (Some o)
     | None => fail InvalidArgument hx None
     end).
  rewrite Hx. unfold ok. run.
  change (@git_note_create lib) with note_create. unfold note_create.
  cbn [repos record_error]. rewrite Hs, Hr, Htree.
  change (default ∅ (Some tree)) with tree. rewrite Hold.
  rewrite bool_decide_eq_true_2 by eauto. cbn [andb].
  eexists. destruct (f =? 0).
  - cbn [Z.eqb]. unfold fail. cbn [failure_code failure_name].
    cbv beta iota zeta. cbn [rc out seterr record_error repos giterr].
    reflexivity.
  - cbn [Z.eqb]. rewrite Hw. cbn [negb]. unfold ok.
    cbv beta iota zeta. cbn [rc out seterr Z.ltb Z.compare].
    rewrite git2r_note_init_read
      with (n := {| note_blob := digest (repos s) m; note_message := m |}).
    + cbn [Z.ltb Z.compare]. unfold with_note, notes_history.
      rewrite Htree, Hw. reflexivity.
    + cbn [repos record_error].
      eapply note_read_in_tree
        with (r := with_note r rf x (digest (repos s) m) m).
      * cbn [repositories]. rewrite lookup_insert_eq. unfold with_note, notes_history.
        now rewrite Htree, Hw.
      * apply notes_tree_with_note.
      * apply lookup_insert_eq.
Qed.

End NoteCreate.

Section NoteListing.
Context (Hp : @Helpers Model.lib).

(** Against the model [git2r_note_list] returns one [git_note] object per
    entry of the current note tree of the reference. *)
Lemma note_list_of_tree (repo : SEXP) (rf : string) (s : rstate) (h : Path)
    (r : Repository) (tree : gmap ObjectId Note) :
  git2r_error_check_string_arg (STRSXP [rf]) = 0 ->
  git2r_repository_open repo s = (Value (Some h), s) ->
  repositories (repos s) !! h = Some r ->
  notes_tree r rf = Some tree ->
  fst (git2r_note_list repo (STRSXP [rf]) s) =
    Value (VECSXP (map (fun e : ObjectId * Note =>
                          note_object repo rf (note_blob e.2) e.1 (note_message e.2))
                       (map_to_list tree)) None).
Proof.
  intros Hcheck Hopen Hr Htree.
  set (message_of := fun a : ObjectId =>
                       match tree !! a with Some n => note_message n | None => "" end).
  set (entries := map (fun e : ObjectId * Note => (note_blob e.2, e.1)) (map_to_list tree)).
  assert (Hread : forall b a, In (b, a) entries ->
            exists n, @git_note_read lib h rf a (repos s) = Lib 0 (Some n) None /\
                      @git_note_message lib n = message_of a).
  { intros b a Hin. subst entries. apply in_map_iff in Hin as ([a' n] & [= <- <-] & Hin).
    apply list_elem_of_In, elem_of_map_to_list in Hin. exists n. split.
    - eapply note_read_in_tree; eauto.
    - subst message_of. cbn [snd fst]. now rewrite Hin. }
  unfold git2r_note_list. cbv zeta. cbn [is_nil negb]. rewrite Hcheck.
  change (negb (0 =? 0)) with false. cbv iota.
  rewrite (bind_value _ (fun notes_ref => _) s s (Some rf) eq_refl).
  rewrite (bind_value _ _ _ _ _ Hopen).
  unfold git_note_foreach. run.
  change (@git_note_entries lib) with note_entries. unfold note_entries.
  rewrite Hr, Htree. unfold ok. run. fold entries. rewrite !record_error_None.
  rewrite note_list_count. run. rewrite Hr, Htree. run. fold entries.
  rewrite !record_error_None.
  pose proof (note_list_fill h rf repo s message_of entries Hread []) as Hfill.
  cbn [length app] in Hfill. unfold allocVector_VECSXP. cbn [Nat.add cb_n].
  rewrite Hfill. run. cbn [cb_list].
  f_equal. f_equal. subst entries. rewrite map_map.
  apply map_ext_in. intros [a n] Hin. cbn [fst snd].
  apply list_elem_of_In, elem_of_map_to_list in Hin. subst message_of. cbn beta.
  now rewrite Hin.
Qed.

(** C2: when the target already has a note on the notes reference,
    [git2r_note_create] without [force] raises the already-exists error of
    the library and leaves the repositories as they were; with [force] it
    returns the new note, and a listing of the reference afterwards holds
    exactly one note for the target, with the new message. *)
Theorem note_create_respects_overwrite
    (s : rstate) (repo author committer : SEXP) (h : Path) (r : Repository)
    (hx m rf : string) (f : Z) (x : ObjectId) (sa sc : Signature)
    (tree : gmap ObjectId Note) (old : Note) :
  git2r_arg_check_hex (STRSXP [hx]) = 0 ->
  git2r_error_check_string_arg (STRSXP [m]) = 0 ->
  git2r_error_check_string_arg (STRSXP [rf]) = 0 ->
  git2r_error_check_signature_arg author = 0 ->
  git2r_error_check_signature_arg committer = 0 ->
  git2r_error_check_logical_arg (LGLSXP [f]) = 0 ->
  0 <= rc (git2r_signature_from_arg author) ->
  out (git2r_signature_from_arg author) = Some sa ->
  0 <= rc (git2r_signature_from_arg committer) ->
  out (git2r_signature_from_arg committer) = Some sc ->
  oid_decode hx = Some x ->
  fst (git2r_repository_open repo s) = Value (Some h) ->
  repositories (repos s) !! h = Some r ->
  repo_writable r = true ->
  notes_tree r rf = Some tree ->
  tree !! x = Some old ->
  let create :=
    git2r_note_create repo (STRSXP [hx]) (STRSXP [m]) (STRSXP [rf]) author committer
                      (LGLSXP [f]) s in
  let note := note_object repo rf (digest (repos s) m) x m in
  (f = 0 ->
     fst create = Rf_error "Error: %s\n" [arg_s ("AlreadyExists: " ++ x)] /\
     repos (snd create) = repos s) /\
  (f <> 0 ->
     fst create = Value note /\
     exists l, fst (git2r_note_list repo (STRSXP [rf]) (snd create)) = Value (VECSXP l None) /\
               List.filter (annotates x) l = [note]).
Proof.
  intros Hhex Hmsg Href Hauthor Hcommitter Hforce Hrca Hsa Hrcc Hsc Hx Hopen Hr Hw Htree Hold.
  cbv zeta.
  destruct (note_create_run Hp s repo author committer h r hx m rf f x sa sc tree old
              Hhex Hmsg Href Hauthor Hcommitter Hforce Hrca Hsa Hrcc Hsc Hx Hopen Hr Hw
              Htree Hold) as [e Hrun].
  rewrite Hrun. split.
  - intros ->. cbn [Z.eqb]. split; reflexivity.
  - intros Hf. apply Z.eqb_neq in Hf. rewrite Hf. cbn [fst snd]. split; [reflexivity|].
    eexists. split.
    + eapply note_list_of_tree with (r := with_note r rf x (digest (repos s) m) m).
      * exact Href.
      * apply (git2r_repository_open_again Hp repo s _ h Hopen).
        cbn [repos repositories]. rewrite lookup_insert_eq. eauto.
      * cbn [repos repositories]. apply lookup_insert_eq.
      * apply notes_tree_with_note.
    + apply (filter_unique_key _ x {| note_blob := digest (repos s) m; note_message := m |}).
      * apply lookup_insert_eq.
      * intros a n. reflexivity.
Qed.

End NoteListing.

(** * The binding on the example world *)

Import Example.

(** The scenarios of the specification, run through the binding. *)

Example descendant_scenario :
  fst (git2r_graph_descendant_of (commit_at "/home/u/project" c2)
                                 (commit_at "/home/u/project" c1) start)
    = Value (ScalarLogical 1) /\
  fst (git2r_graph_descendant_of (commit_at "/home/u/project" c1)
                                 (commit_at "/home/u/project" c2) start)
    = Value (ScalarLogical 0) /\
  fst (git2r_graph_descendant_of (commit_at "/home/u/project" c4)
                                 (commit_at "/home/u/project" c1) start)
    = Value (ScalarLogical 1) /\
  fst (git2r_graph_descendant_of (commit_at "/home/u/project" c3)
                                 (commit_at "/home/u/project" c1) start)
    = Value (ScalarLogical 0).
Proof. repeat split; vm_compute; reflexivity. Qed.

Example discover_scenario :
  fst (git2r_repository_discover (STRSXP ["/home/u/project/src/deep"]) start)
    = Value (STRSXP ["/home/u/project"]) /\
  fst (git2r_repository_discover (STRSXP ["/tmp/unrelated"]) start) = Value R_NilValue /\
  fst (git2r_repository_discover (STRSXP ["/mnt/data"]) start) = Value (STRSXP ["/mnt"]) /\
  fst (git2r_repository_discover (STRSXP ["/mnt/usb/photos"]) start) = Value R_NilValue.
Proof. repeat split; vm_compute; reflexivity. Qed.

Example workdir_scenario :
  fst (git2r_repository_workdir (repo_at "/home/u/project") start)
    = Value (STRSXP ["/home/u/project"]) /\
  fst (workdir (repo_at "/home/u/project") start) = Value (STRSXP ["/home/u/project"]).
Proof. split; vm_compute; reflexivity. Qed.

Example can_open_scenario :
  fst (git2r_repository_can_open (STRSXP ["/home/u/project"]) start) = Value (LGLSXP [1]) /\
  fst (git2r_repository_can_open (STRSXP ["/tmp/unrelated"]) start) = Value (LGLSXP [0]) /\
  fst (git2r_repository_can_open (LGLSXP [1]) start)
    = Rf_error "Error in '%s': '%s' must be a character vector of length one"
               [arg_s "git2r_repository_can_open"; arg_s "path"].
Proof. repeat split; vm_compute; reflexivity. Qed.

(** C4: [fetch] and [config] return [R_NilValue] although the library call
    they made has failed: [fetch] on a remote name that is not configured,
    [config] on a repository whose storage refuses the write. *)
Theorem config_and_fetch_discard_library_errors :
  rc (git_remote_load ["home"; "u"; "project"] "nosuch" disk) = GIT_ENOTFOUND /\
  fst (fetch (repo_at "/home/u/project") (STRSXP ["nosuch"]) start) = Value R_NilValue /\
  rc (fst (git_config_set_string ["srv"; "mirror.git"] "user.name" "x" disk)) = -1 /\
  fst (config (repo_at "/srv/mirror.git") (VECSXP [STRSXP ["x"]] (Some ["user.name"])) start)
    = Value R_NilValue.
Proof. repeat split; vm_compute; reflexivity. Qed.

(** C7: on a bare repository [git2r_repository_workdir] returns
    [R_NilValue], while [workdir] passes the NULL it gets from
    [git_repository_workdir] to [mkChar]. *)
Theorem workdir_of_bare_repository :
  git_repository_is_bare ["srv"; "mirror.git"] disk = 1 /\
  git_repository_workdir ["srv"; "mirror.git"] disk = None /\
  fst (git2r_repository_workdir (repo_at "/srv/mirror.git") start) = Value R_NilValue /\
  fst (workdir (repo_at "/srv/mirror.git") start) = Undefined "mkChar(NULL)".
Proof. repeat split; vm_compute; reflexivity. Qed.

(** C5 fails as stated: [is_repository] raises an R error on [R_NilValue]
    and on a value that is not a character vector. *)
Lemma is_repository_raises_on_non_strings :
  fst (is_repository R_NilValue start) = Rf_error "'path' equals R_NilValue" [] /\
  fst (is_repository (LGLSXP [1]) start) = Rf_error "'path' must be a string" [].
Proof. split; vm_compute; reflexivity. Qed.

Lemma can_open_probes_strings_witness :
  git2r_arg_check_string (STRSXP ["/home/u/fresh"]) = 0 /\
  fst (git2r_repository_can_open (STRSXP ["/home/u/fresh"]) start) = Value (LGLSXP [1]) /\
  fst (is_repository (STRSXP ["/nowhere"]) start) = Value (LGLSXP [0]).
Proof.
  assert (Hfresh : git2r_arg_check_string (STRSXP ["/home/u/fresh"]) = 0) by reflexivity.
  assert (Hnowhere : git2r_arg_check_string (STRSXP ["/nowhere"]) = 0) by reflexivity.
  split; [exact Hfresh|].
  destruct (can_open_probes_strings "/home/u/fresh" [] start Hfresh) as (Hopen & _ & _).
  destruct (can_open_probes_strings "/nowhere" [] start Hnowhere) as (_ & Hprobe & _).
  split; [exact Hopen | exact Hprobe].
Defined.

Lemma revisions_of_empty_repository_witness :
  fst (get_repository (repo_at "/home/u/fresh") start) = Value (Some ["home"; "u"; "fresh"]) /\
  rc (git_repository_is_empty ["home"; "u"; "fresh"] (repos start)) = 1 /\
  fst (revisions (repo_at "/home/u/fresh") start) = Value (VECSXP [] None).
Proof.
  assert (Hopen : fst (get_repository (repo_at "/home/u/fresh") start)
                  = Value (Some ["home"; "u"; "fresh"])) by (vm_compute; reflexivity).
  assert (Hempty : rc (git_repository_is_empty ["home"; "u"; "fresh"] (repos start)) = 1)
    by (vm_compute; reflexivity).
  split; [exact Hopen|]. split; [exact Hempty|].
  exact (revisions_of_empty_repository _ _ _ Hopen Hempty).
Defined.

Lemma checkout_is_a_stub_witness :
  fst (checkout_strategy (STRSXP ["HEAD"]) start) = Value CHECKOUT_HEAD /\
  fst (get_repository (repo_at "/home/u/project") start)
    = Value (Some ["home"; "u"; "project"]) /\
  repos (snd (checkout (-1) (repo_at "/home/u/project") (STRSXP ["HEAD"]) start))
    = repos start /\
  snd (checkout (-1) (repo_at "/home/u/project") (STRSXP ["HEAD"]) start)
    = snd (get_repository (repo_at "/home/u/project") start).
Proof.
  assert (Haction : fst (checkout_strategy (STRSXP ["HEAD"]) start) = Value CHECKOUT_HEAD)
    by (vm_compute; reflexivity).
  assert (Hopen : fst (get_repository (repo_at "/home/u/project") start)
                  = Value (Some ["home"; "u"; "project"])) by (vm_compute; reflexivity).
  split; [exact Haction|]. split; [exact Hopen|].
  exact (checkout_is_a_stub (-1) _ _ _ _ _ Haction Hopen).
Defined.

Lemma checkout_reads_unassigned_err_witness :
  fst (checkout 0 (repo_at "/home/u/project") (STRSXP ["HEAD"]) start) = Value R_NilValue /\
  fst (checkout (-1) (repo_at "/home/u/project") (STRSXP ["HEAD"]) start)
    = Undefined "giterr_last() is NULL".
Proof.
  assert (Haction : fst (checkout_strategy (STRSXP ["HEAD"]) start) = Value CHECKOUT_HEAD)
    by (vm_compute; reflexivity).
  assert (Hopen : fst (get_repository (repo_at "/home/u/project") start)
                  = Value (Some ["home"; "u"; "project"])) by (vm_compute; reflexivity).
  destruct (checkout_reads_unassigned_err _ _ _ _ _ Haction Hopen) as [Hok Herr].
  split.
  - apply Hok. lia.
  - rewrite (Herr (-1)) by lia. vm_compute. reflexivity.
Defined.

Lemma discover_walks_up_to_nearest_repository_witness :
  nearest_repository (repos start) (parse_path "/home/u/project/src/deep")
                     ["home"; "u"; "project"] /\
  fst (git2r_repository_discover (STRSXP ["/home/u/project/src/deep"]) start)
    = Value (STRSXP ["/home/u/project"]).
Proof.
  assert (Hnear : nearest_repository (repos start) (parse_path "/home/u/project/src/deep")
                                     ["home"; "u"; "project"]).
  { apply discover_nearest. vm_compute. reflexivity. }
  assert (Hcheck : git2r_arg_check_string (STRSXP ["/home/u/project/src/deep"]) = 0)
    by reflexivity.
  split; [exact Hnear|].
  exact (proj1 (discover_walks_up_to_nearest_repository helpers "/home/u/project/src/deep"
                  [] start Hcheck) _ Hnear).
Defined.

Lemma descendant_of_follows_parent_chain_witness :
  parent_chain history c4 c1 /\
  fst (git2r_graph_descendant_of (commit_at "/home/u/project" c4)
                                 (commit_at "/home/u/project" c1) start)
    = Value (ScalarLogical 1) /\
  fst (git2r_graph_descendant_of (commit_at "/home/u/project" c4)
                                 (commit_at "/home/u/project" c4) start)
    = Value (ScalarLogical 0).
Proof.
  assert (Hchain : parent_chain history c4 c1).
  { apply chain_step with (ps := [c3; c2]) (p := c2).
    - vm_compute. reflexivity.
    - apply list_elem_of_In. simpl. auto.
    - apply chain_parent with (ps := [c1]).
      + vm_compute. reflexivity.
      + apply list_elem_of_In. simpl. auto. }
  assert (Hopen : fst (git2r_repository_open (repo_at "/home/u/project") start)
                  = Value (Some ["home"; "u"; "project"])) by (vm_compute; reflexivity).
  assert (Hrepo : repositories (repos start) !! ["home"; "u"; "project"] = Some project)
    by (vm_compute; reflexivity).
  assert (Hc4 : commit_parents (repo_objects project) (git2r_oid_from_hex_sexp (STRSXP [c4]))
                = Some [c3; c2]) by (vm_compute; reflexivity).
  assert (Hc1 : commit_parents (repo_objects project) (git2r_oid_from_hex_sexp (STRSXP [c1]))
                = Some []) by (vm_compute; reflexivity).
  split; [exact Hchain|]. split.
  - refine (proj1 (proj2 (descendant_of_follows_parent_chain helpers start
                            ["git_commit"] ["git_commit"]
                            [("hex", STRSXP [c4]); ("repo", repo_at "/home/u/project")]
                            [("hex", STRSXP [c1]); ("repo", repo_at "/home/u/project")]
                            (repo_at "/home/u/project") (STRSXP [c4]) (STRSXP [c1])
                            _ _ _ _ eq_refl eq_refl eq_refl Hopen Hrepo Hc4 Hc1)) _ _).
    + vm_compute. discriminate.
    + exact Hchain.
  - refine (proj1 (descendant_of_follows_parent_chain helpers start
                     ["git_commit"] ["git_commit"]
                     [("hex", STRSXP [c4]); ("repo", repo_at "/home/u/project")]
                     [("hex", STRSXP [c4]); ("repo", repo_at "/home/u/project")]
                     (repo_at "/home/u/project") (STRSXP [c4]) (STRSXP [c4])
                     _ _ _ _ eq_refl eq_refl eq_refl Hopen Hrepo Hc4 Hc4) _).
    reflexivity.
Defined.

Lemma note_create_respects_overwrite_witness :
  let repo := repo_at "/home/u/project" in
  let who := signature_of "A U Thor" "author@example.org" in
  let ref := "refs/notes/commits" in
  let create f :=
    git2r_note_create repo (STRSXP [c1]) (STRSXP ["m2"]) (STRSXP [ref]) who who
                      (LGLSXP [f]) start in
  let note := note_object repo ref (oid_of "b") c1 "m2" in
  notes_tree project ref
    = Some {[ c1 := {| note_blob := oid_of "a"; note_message := "m1" |} ]} /\
  fst (create 0) = Rf_error "Error: %s\n" [arg_s ("AlreadyExists: " ++ c1)] /\
  fst (create 1) = Value note /\
  exists l, fst (git2r_note_list repo (STRSXP [ref]) (snd (create 1))) = Value (VECSXP l None) /\
            List.filter (annotates c1) l = [note].
Proof.
  cbv zeta.
  set (who := signature_of "A U Thor" "author@example.org").
  set (sig := {| sig_name := "A U Thor"; sig_email := "author@example.org";
                 sig_time := 0; sig_offset := 0 |}).
  set (old := {| note_blob := oid_of "a"; note_message := "m1" |}).
  assert (Hhex : git2r_arg_check_hex (STRSXP [c1]) = 0) by (vm_compute; reflexivity).
  assert (Hmsg : git2r_error_check_string_arg (STRSXP ["m2"]) = 0) by reflexivity.
  assert (Href : git2r_error_check_string_arg (STRSXP ["refs/notes/commits"]) = 0)
    by reflexivity.
  assert (Hwho : git2r_error_check_signature_arg who = 0) by reflexivity.
  assert (Hrc : 0 <= rc (git2r_signature_from_arg who)) by (vm_compute; discriminate).
  assert (Hsig : out (git2r_signature_from_arg who) = Some sig) by reflexivity.
  assert (Hx : oid_decode c1 = Some c1) by (vm_compute; reflexivity).
  assert (Hopen : fst (git2r_repository_open (repo_at "/home/u/project") start)
                  = Value (Some ["home"; "u"; "project"])) by (vm_compute; reflexivity).
  assert (Hrepo : repositories (repos start) !! ["home"; "u"; "project"] = Some project)
    by (vm_compute; reflexivity).
  assert (Htree : notes_tree project "refs/notes/commits" = Some {[ c1 := old ]})
    by (vm_compute; reflexivity).
  assert (Hold : ({[ c1 := old ]} : gmap ObjectId Note) !! c1 = Some old)
    by apply lookup_singleton_eq.
  assert (Hforce : forall f, git2r_error_check_logical_arg (LGLSXP [f]) = 0)
    by (intros f; reflexivity).
  pose proof (fun f =>
    note_create_respects_overwrite helpers start (repo_at "/home/u/project") who who
      ["home"; "u"; "project"] project c1 "m2" "refs/notes/commits" f c1 sig sig
      {[ c1 := old ]} old Hhex Hmsg Href Hwho Hwho (Hforce f) Hrc Hsig Hrc Hsig Hx Hopen
      Hrepo eq_refl Htree Hold) as Hclaim.
  cbv zeta in Hclaim.
  split; [exact Htree|]. split.
  - exact (proj1 (proj1 (Hclaim 0) eq_refl)).
  - assert (Hne : 1 <> 0) by discriminate.
    destruct (proj2 (Hclaim 1) Hne) as [Hnote Hlist].
    split; [exact Hnote | exact Hlist].
Defined.

(** * The rest of the binding on the example world *)

Import Extension.

Lemma pair_of_fst {A B} (p : A * B) (a : A) : fst p = a -> p = (a, snd p).
Proof. intros <-. apply surjective_pairing. Qed.

Lemma tagged_opens :
  git2r_repository_open tagged_at opening
  = (Value (Some tagged_dir), snd (git2r_repository_open tagged_at opening)).
Proof. apply pair_of_fst. vm_compute. reflexivity. Qed.

Lemma tagged_gets :
  get_repository tagged_at opening
  = (Value (Some tagged_dir), snd (get_repository tagged_at opening)).
Proof. apply pair_of_fst. vm_compute. reflexivity. Qed.

Lemma note_list_default_and_missing_witness :
  git_note_default_ref reviewed_dir (repos opening) = Lib 0 (Some "refs/notes/review") None /\
  fst (git2r_note_list reviewed_at R_NilValue opening)
  = Value (VECSXP [note_object reviewed_at "refs/notes/review" (oid_of "c") c2 "looks good"]
                  None) /\
  rc (git_note_entries fresh_dir "refs/notes/commits" (repos opening)) = GIT_ENOTFOUND /\
  git2r_note_list fresh_at R_NilValue opening
  = git2r_note_list fresh_at (STRSXP ["refs/notes/commits"]) opening /\
  fst (git2r_note_list fresh_at R_NilValue opening) = Value (VECSXP [] None).
Proof.
  assert (Hopen : fst (git2r_repository_open reviewed_at opening) = Value (Some reviewed_dir))
    by (vm_compute; reflexivity).
  assert (Hcheck : git2r_error_check_string_arg (STRSXP ["refs/notes/review"]) = 0)
    by reflexivity.
  assert (Hdefault : git_note_default_ref reviewed_dir (repos opening)
                     = Lib 0 (Some "refs/notes/review") None) by (vm_compute; reflexivity).
  assert (Hentries : git_note_entries reviewed_dir "refs/notes/review" (repos opening)
                     = Lib 0 [(oid_of "c", c2)] None) by (vm_compute; reflexivity).
  assert (Hread : forall b a, In (b, a) [(oid_of "c", c2)] ->
            exists n, git_note_read reviewed_dir "refs/notes/review" a (repos opening)
                      = Lib 0 (Some n) None /\
                      git_note_message n = (fun _ : git_oid => "looks good") a).
  { intros b a [[= <- <-] | []].
    exists {| note_blob := oid_of "c"; note_message := "looks good" |}.
    split; [vm_compute; reflexivity | reflexivity]. }
  destruct (note_list_default_and_missing reviewed_at opening reviewed_dir
              "refs/notes/review" Hopen Hcheck Hdefault) as (_ & Hlisted & _).
  assert (Hopen' : fst (git2r_repository_open fresh_at opening) = Value (Some fresh_dir))
    by (vm_compute; reflexivity).
  assert (Hcheck' : git2r_error_check_string_arg (STRSXP ["refs/notes/commits"]) = 0)
    by reflexivity.
  assert (Hdefault' : git_note_default_ref fresh_dir (repos opening)
                      = Lib 0 (Some "refs/notes/commits") None) by (vm_compute; reflexivity).
  assert (Hmissing : rc (git_note_entries fresh_dir "refs/notes/commits" (repos opening))
                     = GIT_ENOTFOUND) by (vm_compute; reflexivity).
  destruct (note_list_default_and_missing fresh_at opening fresh_dir
              "refs/notes/commits" Hopen' Hcheck' Hdefault') as (Hsame & _ & Hempty).
  split; [exact Hdefault |]. split.
  - exact (Hlisted [(oid_of "c", c2)] (fun _ => "looks good") Hentries Hread).
  - split; [exact Hmissing |]. split; [exact Hsame |]. exact (proj1 (Hempty Hmissing)).
Defined.

Lemma routines_refuse_unopened_repository_witness :
  let lost := repo_at "/tmp/unrelated" in
  fst (get_repository lost opening) = Value None /\
  fst (tags lost opening) = Rf_error "Invalid repository" [] /\
  fst (add lost (STRSXP ["a.txt"]) opening) = Rf_error "Invalid repository" [].
Proof.
  cbv zeta.
  assert (Hlost : fst (get_repository (repo_at "/tmp/unrelated") opening) = Value None)
    by (vm_compute; reflexivity).
  pose proof (routines_refuse_unopened_repository
                (repo_at "/tmp/unrelated") opening _ (pair_of_fst _ _ Hlost)) as Hclaim.
  split; [exact Hlost |]. split.
  - exact (f_equal fst (proj1 (proj2 (proj2 (proj2 (proj2 Hclaim)))))).
  - exact (f_equal fst (proj2 (proj2 (proj2 (proj2 (proj2 (proj2 (proj2 (proj2 Hclaim)))))))
                          (STRSXP ["a.txt"]) eq_refl)).
Defined.

Lemma remote_url_reads_unassigned_err_witness :
  Rf_length (STRSXP []) = 0 /\
  fst (remote_url 0 tagged_at (STRSXP []) opening) = Value (STRSXP []) /\
  fst (remote_url (-1) tagged_at (STRSXP []) opening) = Undefined "giterr_last() is NULL".
Proof.
  assert (Hlen : Rf_length (STRSXP []) = 0) by reflexivity.
  pose proof (remote_url_reads_unassigned_err
                tagged_at (STRSXP []) opening tagged_dir _ tagged_gets Hlen) as Hclaim.
  split; [exact Hlen |]. split.
  - rewrite (proj1 Hclaim 0) by lia. reflexivity.
  - rewrite (proj2 Hclaim (-1)) by lia. vm_compute. reflexivity.
Defined.

Lemma remote_url_assigns_err_in_loop_witness :
  0 < Rf_length (STRSXP ["origin"]) /\
  remote_url (-1) tagged_at (STRSXP ["origin"]) opening
  = remote_url 0 tagged_at (STRSXP ["origin"]) opening.
Proof.
  assert (Hlen : 0 < Rf_length (STRSXP ["origin"])) by (vm_compute; reflexivity).
  split; [exact Hlen |].
  exact (remote_url_assigns_err_in_loop
           tagged_at (STRSXP ["origin"]) opening (-1) 0 Hlen).
Defined.

Lemma remote_url_lists_urls_witness :
  fst (remote_url (-1) tagged_at (STRSXP ["origin"; "origin"]) opening)
  = Value (STRSXP ["https://example.org/project.git"; "https://example.org/project.git"]).
Proof.
  assert (Hne : ["origin"; "origin"] <> ([] : list string)) by discriminate.
  assert (Hload : forall n, In n ["origin"; "origin"] ->
            exists rm, 0 <= rc (git_remote_load tagged_dir n (repos opening)) /\
                       out (git_remote_load tagged_dir n (repos opening)) = Some rm /\
                       git_remote_url rm
                       = Some ((fun _ => "https://example.org/project.git") n)).
  { intros n [<- | [<- | []]];
      exists (tagged_dir, "https://example.org/project.git");
      (split; [vm_compute; discriminate | split; [vm_compute; reflexivity | reflexivity]]). }
  exact (remote_url_lists_urls tagged_at
           ["origin"; "origin"] (fun _ => "https://example.org/project.git")
           opening tagged_dir _ (-1) tagged_gets Hne Hload).
Defined.

Lemma remotes_returns_listed_names_witness :
  fst (remotes tagged_at opening) = Value (STRSXP ["origin"]).
Proof.
  assert (Hrc : 0 <= rc (git_remote_list tagged_dir (repos opening)))
    by (vm_compute; discriminate).
  assert (Hout : out (git_remote_list tagged_dir (repos opening)) = Some ["origin"])
    by (vm_compute; reflexivity).
  exact (remotes_returns_listed_names tagged_at opening tagged_dir _ ["origin"]
           tagged_gets Hrc Hout).
Defined.

Lemma references_names_every_reference_witness :
  exists objs,
    fst (references tagged_at opening)
    = Value (VECSXP objs (Some ["refs/heads/master"; "refs/tags/v1.0"])) /\
    length objs = 2%nat.
Proof.
  assert (Hrun : references tagged_at opening
                 = (fst (references tagged_at opening), snd (references tagged_at opening)))
    by apply surjective_pairing.
  assert (Hv : exists v, fst (references tagged_at opening) = Value v).
  { eexists. vm_compute. reflexivity. }
  destruct Hv as (v & Hv). rewrite Hv in Hrun.
  destruct (references_names_every_reference tagged_at opening tagged_dir _ v _
              tagged_gets Hrun)
    as (names & objs & Hnames & Hobjs & Hlen & _).
  assert (Hlist : out (git_reference_list tagged_dir (repos opening))
                  = Some ["refs/heads/master"; "refs/tags/v1.0"])
    by (vm_compute; reflexivity).
  rewrite Hlist in Hnames. injection Hnames as <-.
  exists objs. rewrite Hv, Hobjs. split; [reflexivity | exact Hlen].
Defined.

Lemma tags_lists_every_tag_witness :
  exists o,
    fst (tags tagged_at opening) = Value (VECSXP [o] None) /\
    fst (init_tag (release, Tag c4 "v1.0" "first release") (NEW_OBJECT "git_tag") opening)
    = Value o.
Proof.
  assert (Hrun : tags tagged_at opening
                 = (fst (tags tagged_at opening), snd (tags tagged_at opening)))
    by apply surjective_pairing.
  assert (Hv : exists v, fst (tags tagged_at opening) = Value v).
  { eexists. vm_compute. reflexivity. }
  destruct Hv as (v & Hv). rewrite Hv in Hrun.
  destruct (tags_lists_every_tag
              tagged_at opening tagged_dir _ v _ tagged_gets Hrun)
    as (objs & Hobjs & Hall).
  assert (Hnames : out (git_tag_list tagged_dir (repos opening)) = Some ["v1.0"])
    by (vm_compute; reflexivity).
  rewrite Hnames in Hall. change (default [] (Some ["v1.0"])) with ["v1.0"] in Hall.
  inversion Hall as [| name o names os (ref & oid & tag & Hdwim & Htarget & Hlookup & Hinit)
                       Hrest]; subst.
  inversion Hrest; subst.
  exists o. split; [exact Hv |].
  assert (Href : out (git_reference_dwim tagged_dir "v1.0" (repos opening))
                 = Some (Direct "refs/tags/v1.0" release)) by (vm_compute; reflexivity).
  rewrite Href in Hdwim. injection Hdwim as <-.
  cbn in Htarget. injection Htarget as <-.
  assert (Htag : out (git_tag_lookup tagged_dir release (repos opening))
                 = Some (release, Tag c4 "v1.0" "first release"))
    by (vm_compute; reflexivity).
  rewrite Htag in Hlookup. injection Hlookup as <-.
  rewrite Hinit. reflexivity.
Defined.

Lemma fresh_opens :
  git2r_repository_open fresh_at opening
  = (Value (Some fresh_dir), snd (git2r_repository_open fresh_at opening)).
Proof. apply pair_of_fst. vm_compute. reflexivity. Qed.

Lemma mirror_gets :
  get_repository mirror_at opening
  = (Value (Some mirror_dir), snd (get_repository mirror_at opening)).
Proof. apply pair_of_fst. vm_compute. reflexivity. Qed.


Lemma add_stages_then_writes_witness :
  fst (add tagged_at (STRSXP ["a.txt"]) opening) = Value R_NilValue /\
  fst (add mirror_at (STRSXP ["a.txt"]) opening) <> Value R_NilValue /\
  repos (snd (add mirror_at (STRSXP ["a.txt"]) opening))
  = snd (git_index_add_bypath mirror_dir "a.txt" (repos opening)).
Proof.
  assert (Hrc : 0 <= rc (git_repository_index tagged_dir (repos opening)))
    by (vm_compute; discriminate).
  assert (Hidx : out (git_repository_index tagged_dir (repos opening)) = Some tagged_dir)
    by (vm_compute; reflexivity).
  assert (Hrc' : 0 <= rc (git_repository_index mirror_dir (repos opening)))
    by (vm_compute; discriminate).
  assert (Hidx' : out (git_repository_index mirror_dir (repos opening)) = Some mirror_dir)
    by (vm_compute; reflexivity).
  pose proof (add_stages_then_writes tagged_at "a.txt" [] opening tagged_dir _ tagged_dir
                tagged_gets Hrc Hidx) as Hgood.
  pose proof (add_stages_then_writes mirror_at "a.txt" [] opening mirror_dir _ mirror_dir
                mirror_gets Hrc' Hidx') as Hbad.
  cbv zeta in Hgood, Hbad. split; [| split].
  - apply (proj2 Hgood). split; vm_compute; discriminate.
  - intros Hv. apply (proj2 Hbad) in Hv. destruct Hv as [Hstaged _].
    revert Hstaged. vm_compute. intros Hstaged. apply Hstaged. reflexivity.
  - rewrite (proj1 Hbad).
    assert (Hfail : (rc (fst (git_index_add_bypath mirror_dir "a.txt" (repos opening))) <? 0)
                    = true) by (vm_compute; reflexivity).
    rewrite Hfail. reflexivity.
Defined.

Lemma config_reads_names_of_unnamed_list_witness :
  fst (config tagged_at (VECSXP [STRSXP ["A U Thor"]] None) opening)
  = Rf_error "%s() can only be applied to a '%s', not a '%s'"
             [arg_s "STRING_ELT"; arg_s "character vector"; arg_s "NULL"].
Proof.
  assert (Hrc : 0 <= rc (git_repository_config tagged_dir (repos opening)))
    by (vm_compute; discriminate).
  exact (proj1 (config_reads_names_of_unnamed_list tagged_at (STRSXP ["A U Thor"]) []
                  opening tagged_dir _ tagged_gets Hrc)).
Defined.

Lemma config_sets_in_order_witness :
  let variables := VECSXP [STRSXP ["A U Thor"]; STRSXP ["author@example.org"]]
                          (Some ["user.name"; "user.email"]) in
  fst (config tagged_at variables opening) = Value R_NilValue /\
  repos (snd (config tagged_at variables opening))
  = set_strings tagged_dir [("user.name", "A U Thor"); ("user.email", "author@example.org")]
                (repos opening).
Proof.
  assert (Hrc : 0 <= rc (git_repository_config tagged_dir (repos opening)))
    by (vm_compute; discriminate).
  assert (Hcfg : out (git_repository_config tagged_dir (repos opening)) = Some tagged_dir)
    by (vm_compute; reflexivity).
  exact (config_sets_in_order tagged_at ["user.name"; "user.email"]
           ["A U Thor"; "author@example.org"] opening tagged_dir _ tagged_dir
           tagged_gets Hrc Hcfg eq_refl).
Defined.

Lemma repository_predicates_answer_true_for_one_witness :
  fst (git2r_repository_is_bare tagged_at opening) = Value (LGLSXP [0]) /\
  fst (git2r_repository_is_shallow tagged_at opening) = Value (LGLSXP [0]) /\
  fst (git2r_repository_head_detached tagged_at opening) = Value (LGLSXP [0]).
Proof.
  destruct (repository_predicates_answer_true_for_one tagged_at opening tagged_dir _
              tagged_opens) as (Hbare & Hshallow & Hdetached).
  split; [| split].
  - rewrite Hbare. vm_compute. reflexivity.
  - rewrite Hshallow by (vm_compute; discriminate). reflexivity.
  - rewrite Hdetached by (vm_compute; discriminate). reflexivity.
Defined.

Lemma head_of_unborn_branch_is_null_witness :
  rc (git_repository_head fresh_dir (repos opening)) = GIT_EUNBORNBRANCH /\
  fst (git2r_repository_head fresh_at opening) = Value R_NilValue.
Proof.
  assert (Hcode : rc (git_repository_head fresh_dir (repos opening)) = GIT_EUNBORNBRANCH)
    by (vm_compute; reflexivity).
  split; [exact Hcode |].
  exact (head_of_unborn_branch_is_null fresh_at opening fresh_dir _ fresh_opens
           (or_introl Hcode)).
Defined.

Lemma head_on_branch_is_the_branch_witness :
  fst (git2r_repository_head tagged_at opening)
  = Value (S4SXP ["git_branch"]
                 [("name", STRSXP ["master"]); ("type", INTSXP [GIT_BRANCH_LOCAL]);
                  ("repo", tagged_at)]).
Proof.
  assert (Hcode : rc (git_repository_head tagged_dir (repos opening)) = GIT_OK)
    by (vm_compute; reflexivity).
  assert (Href : out (git_repository_head tagged_dir (repos opening))
                 = Some (Direct "refs/heads/master" c4)) by (vm_compute; reflexivity).
  assert (Hbranch : git_reference_is_branch (Direct "refs/heads/master" c4) <> 0)
    by (vm_compute; discriminate).
  pose proof (head_on_branch_is_the_branch tagged_at opening tagged_dir _
                (Direct "refs/heads/master" c4) tagged_opens Hcode Href Hbranch) as Hclaim.
  cbv zeta in Hclaim. rewrite Hclaim by reflexivity. vm_compute. reflexivity.
Defined.

Lemma init_routines_agree_witness :
  git2r_repository_init (STRSXP ["/tmp/new"]) (LGLSXP [1]) opening
  = init (STRSXP ["/tmp/new"]) (LGLSXP [1]) opening /\
  fst (init (STRSXP ["/tmp/new"]) (LGLSXP [1]) opening) = Value R_NilValue.
Proof.
  assert (Hp : git2r_arg_check_string (STRSXP ["/tmp/new"]) = 0) by reflexivity.
  assert (Hb : git2r_arg_check_logical (LGLSXP [1]) = 0) by reflexivity.
  assert (Hcode : rc (fst (git_repository_init "/tmp/new" 1 (repos opening))) = GIT_OK)
    by (vm_compute; reflexivity).
  destruct (init_routines_agree "/tmp/new" [] 1 [] opening Hp Hb Hcode)
    as (Hsame & Hnull & _).
  split; assumption.
Defined.

Lemma empty_path_is_read_past_its_end_witness :
  fst (init (STRSXP []) (LGLSXP [0]) opening) = Undefined "STRING_ELT: index out of range" /\
  fst (add tagged_at (STRSXP []) opening) = Undefined "STRING_ELT: index out of range".
Proof.
  assert (Hbare : isLogical (LGLSXP [0]) = true) by reflexivity.
  destruct (empty_path_is_read_past_its_end (LGLSXP [0]) opening Hbare)
    as (Hinit & _ & Hadd).
  assert (Hrc : 0 <= rc (git_repository_index tagged_dir (repos opening)))
    by (vm_compute; discriminate).
  split.
  - rewrite Hinit. reflexivity.
  - exact (proj1 (Hadd tagged_at tagged_dir _ tagged_gets Hrc)).
Defined.

Lemma note_list_of_default_ref_witness :
  fst (git2r_note_default_ref tagged_at opening) = Value (STRSXP ["refs/notes/commits"]) /\
  git2r_note_list tagged_at (STRSXP ["refs/notes/commits"]) opening
  = git2r_note_list tagged_at R_NilValue opening.
Proof.
  assert (Hquiet : seterr (git_note_default_ref tagged_dir (repos opening)) = None)
    by (vm_compute; reflexivity).
  assert (Hdef : fst (git2r_note_default_ref tagged_at opening)
                 = Value (STRSXP ["refs/notes/commits"])) by (vm_compute; reflexivity).
  assert (Hcheck : git2r_error_check_string_arg (STRSXP ["refs/notes/commits"]) = 0)
    by reflexivity.
  split; [exact Hdef |].
  exact (note_list_of_default_ref tagged_at opening tagged_dir _
           (STRSXP ["refs/notes/commits"]) _ tagged_opens Hquiet
           (pair_of_fst _ _ Hdef) Hcheck).
Defined.

Lemma note_remove_targets_annotated_object_witness :
  let who := signature_of "A U Thor" "author@example.org" in
  let note := note_object tagged_at "refs/notes/commits" (oid_of "a") c1 "m1" in
  fst (git2r_note_remove note who who opening) = Value R_NilValue /\
  repos (snd (git2r_note_remove note who who opening))
  = snd (git_note_remove tagged_dir "refs/notes/commits"
           {| sig_name := "A U Thor"; sig_email := "author@example.org";
              sig_time := 0; sig_offset := 0 |}
           {| sig_name := "A U Thor"; sig_email := "author@example.org";
              sig_time := 0; sig_offset := 0 |}
           c1 (repos opening)).
Proof.
  cbv zeta.
  set (who := signature_of "A U Thor" "author@example.org").
  set (sig := {| sig_name := "A U Thor"; sig_email := "author@example.org";
                 sig_time := 0; sig_offset := 0 |}).
  assert (Hnote : git2r_error_check_note_arg
                    (note_object tagged_at "refs/notes/commits" (oid_of "a") c1 "m1") = 0)
    by reflexivity.
  assert (Hwho : git2r_error_check_signature_arg who = 0) by reflexivity.
  assert (Hrc : 0 <= rc (git2r_signature_from_arg who)) by (vm_compute; discriminate).
  assert (Hsig : out (git2r_signature_from_arg who) = Some sig) by reflexivity.
  assert (Hro : 0 <= rc (git_oid_fromstr (git_oid_fmt c1))) by (vm_compute; discriminate).
  assert (Hoid : out (git_oid_fromstr (git_oid_fmt c1)) = Some c1)
    by (vm_compute; reflexivity).
  pose proof (note_remove_targets_annotated_object tagged_at "refs/notes/commits"
                (oid_of "a") c1 "m1" who who opening tagged_dir _ sig sig
                Hnote Hwho Hwho tagged_opens Hrc Hsig Hrc Hsig Hro Hoid) as Hclaim.
  cbv zeta in Hclaim. destruct Hclaim as (Hrepos & Hok & _).
  split; [| exact Hrepos].
  apply Hok. vm_compute. discriminate.
Defined.
